(** * Word Error Rate evaluation: a shallow embedding of [wer_evaluation.py]

    The development covers the four parts of the module: the Levenshtein
    alignment with its backtracking classification, the text normaliser,
    the per-pair scorer and the corpus aggregator.  Python exceptions are
    modelled in the [option] monad ([None] stands for a raised
    [IndexError], [OverflowError] or [ZeroDivisionError]); [print] is
    modelled by a log of structured lines; floats are binary64 numbers
    with their rounding. *)

From Stdlib Require Import ZArith QArith Qcanon Qround Qabs Qpower Lia Lqa.
From stdpp Require Import base tactics option list numbers strings.

Local Open Scope Z_scope.

(** ** Machine integers of the numpy table

    [np.zeros(..., dtype=int)] allocates 64-bit signed cells.  Arithmetic on
    cells wraps around; storing a Python [int] that does not fit raises
    [OverflowError]. *)

Definition int64_min : Z := - 2 ^ 63.
Definition int64_max : Z := 2 ^ 63 - 1.

Definition wrap64 (z : Z) : Z := (z + 2 ^ 63) mod 2 ^ 64 - 2 ^ 63.

Definition in_int64 (z : Z) : bool := (int64_min <=? z) && (z <=? int64_max).

(** ** The dynamic-programming table *)

Abbreviation table := (list (list Z)) (only parsing).

(** [np.zeros((filas, columnas), dtype=int)] *)
Definition np_zeros (filas columnas : nat) : table :=
  replicate filas (replicate columnas 0).

(** [dp[i][j]] read; out of range is an [IndexError]. *)
Definition getitem (dp : table) (i j : nat) : option Z :=
  fila ← dp !! i; fila !! j.

(** [dp[i][j] = v] for a cell value [v] (already a 64-bit integer). *)
Definition setitem (dp : table) (i j : nat) (v : Z) : option table :=
  fila ← dp !! i;
  _ ← fila !! j;
  Some (<[i := <[j := v]> fila]> dp).

(** [dp[i][j] = v] for a Python [int] [v]: the conversion to a cell fails
    with [OverflowError] outside the 64-bit range. *)
Definition setitem_int (dp : table) (i j : nat) (v : Z) : option table :=
  if in_int64 v then setitem dp i j v else None.

(** [for x in xs: body] over a state, stopping at the first exception. *)
Fixpoint for_each {S : Type} (xs : list nat) (body : nat → S → option S)
    (s : S) : option S :=
  match xs with
  | [] => Some s
  | x :: xs' => s' ← body x s; for_each xs' body s'
  end.

(** [range(a, b)] *)
Definition range (a b : nat) : list nat := seq a (b - a).

(** How the backtracking [while] loop was left. *)
Inductive salida := CondicionFalsa | Break | SinCombustible.

(** The variables of the backtracking loop. *)
Record estado := Estado {
  e_i : nat;
  e_j : nat;
  sustituciones : Z;
  eliminaciones : Z;
  inserciones : Z
}.

Section Alineacion.
Context {T : Type} `{!EqDecision T}.

Section ConEntradas.
Variables ref_words hyp_words : list T.

(** Body of the nested [for i ... for j ...] loops (lines 67-74). *)
Definition paso_dp (i j : nat) (dp : table) : option table :=
  a ← ref_words !! (i - 1)%nat;
  b ← hyp_words !! (j - 1)%nat;
  if decide (a = b) then
    d ← getitem dp (i - 1)%nat (j - 1)%nat;
    setitem dp i j d
  else
    del ← getitem dp (i - 1)%nat j;
    ins ← getitem dp i (j - 1)%nat;
    sus ← getitem dp (i - 1)%nat (j - 1)%nat;
    setitem dp i j (wrap64 (1 + Z.min del (Z.min ins sus))).

(** Lines 55-74: allocation, base column, base row, recurrence. *)
Definition llenar_dp : option table :=
  let n := length ref_words in
  let m := length hyp_words in
  let dp := np_zeros (n + 1) (m + 1) in
  dp ← for_each (range 0 (n + 1)) (λ i dp, setitem_int dp i 0 (Z.of_nat i)) dp;
  dp ← for_each (range 0 (m + 1)) (λ j dp, setitem_int dp 0 j (Z.of_nat j)) dp;
  for_each (range 1 (n + 1))
    (λ i dp, for_each (range 1 (m + 1)) (λ j dp, paso_dp i j dp) dp) dp.

(** The guards of the [if]/[elif] chain of the backtracking loop, with
    Python's short-circuit [and]: the indexing on the right is only
    evaluated when the comparisons on the left hold. *)
Definition es_coincidencia (i j : nat) : option bool :=
  if (0 <? i)%nat && (0 <? j)%nat then
    a ← ref_words !! (i - 1)%nat;
    b ← hyp_words !! (j - 1)%nat;
    Some (bool_decide (a = b))
  else Some false.

Definition es_sustitucion (dp : table) (i j : nat) : option bool :=
  if (0 <? i)%nat && (0 <? j)%nat then
    c ← getitem dp i j;
    d ← getitem dp (i - 1)%nat (j - 1)%nat;
    Some (c =? wrap64 (d + 1))
  else Some false.

Definition es_eliminacion (dp : table) (i j : nat) : option bool :=
  if (0 <? i)%nat then
    c ← getitem dp i j;
    d ← getitem dp (i - 1)%nat j;
    Some (c =? wrap64 (d + 1))
  else Some false.

Definition es_insercion (dp : table) (i j : nat) : option bool :=
  if (0 <? j)%nat then
    c ← getitem dp i j;
    d ← getitem dp i (j - 1)%nat;
    Some (c =? wrap64 (d + 1))
  else Some false.

(** One iteration of the [while] body (lines 82-96): the next state, or
    [None] inside when the [else: break] branch is taken. *)
Definition paso_retroceso (dp : table) (st : estado)
    : option (option estado) :=
  let '(Estado i j s d ins) := st in
  c ← es_coincidencia i j;
  if (c : bool) then Some (Some (Estado (i - 1)%nat (j - 1)%nat s d ins)) else
  c ← es_sustitucion dp i j;
  if (c : bool) then Some (Some (Estado (i - 1)%nat (j - 1)%nat (s + 1) d ins)) else
  c ← es_eliminacion dp i j;
  if (c : bool) then Some (Some (Estado (i - 1)%nat j s (d + 1) ins)) else
  c ← es_insercion dp i j;
  if (c : bool) then Some (Some (Estado i (j - 1)%nat s d (ins + 1))) else
  Some None.

(** The [while i > 0 or j > 0] loop (lines 81-96). *)
Fixpoint retroceso (combustible : nat) (dp : table) (st : estado)
    : option (salida * estado) :=
  if (0 <? e_i st)%nat || (0 <? e_j st)%nat then
    match combustible with
    | O => Some (SinCombustible, st)
    | S combustible' =>
        r ← paso_retroceso dp st;
        match r with
        | Some st' => retroceso combustible' dp st'
        | None => Some (Break, st)
        end
    end
  else Some (CondicionFalsa, st).

(** The whole function with the way the loop was left kept visible.
    Every iteration decreases [i + j], so [n + m] iterations suffice. *)
Definition calcular_distancia_edicion_traza
    : option (salida * estado * table) :=
  let n := length ref_words in
  let m := length hyp_words in
  dp ← llenar_dp;
  r ← retroceso (n + m) dp (Estado n m 0 0 0);
  Some (r, dp).

(** [calcular_distancia_edicion] (lines 44-98). *)
Definition calcular_distancia_edicion : option (Z * Z * Z * table) :=
  '(_, st, dp) ← calcular_distancia_edicion_traza;
  Some (sustituciones st, eliminaciones st, inserciones st, dp).

End ConEntradas.
End Alineacion.

(** ** The classical Levenshtein distance

    The reference definition is the textbook recursion on the heads of the
    two sequences; it shares nothing with the table of the program, which
    works on prefixes. *)

Section Levenshtein.
Context {T : Type} `{!EqDecision T}.

Fixpoint levenshtein (a b : list T) : nat :=
  match a with
  | [] => length b
  | x :: a' =>
      (fix por_b (b : list T) : nat :=
         match b with
         | [] => length a
         | y :: b' =>
             if decide (x = y) then levenshtein a' b'
             else S (Nat.min (levenshtein a' b)
                             (Nat.min (por_b b') (levenshtein a' b')))
         end) b
  end.

(** Edit scripts: [guion a b k] holds when [a] is turned into [b] by a
    script of matches (free) and [k] single-token substitutions,
    deletions and insertions. *)
Inductive guion : list T → list T → nat → Prop :=
| guion_nil : guion [] [] 0
| guion_igual x a b k : guion a b k → guion (x :: a) (x :: b) k
| guion_sust x y a b k : guion a b k → guion (x :: a) (y :: b) (S k)
| guion_elim x a b k : guion a b k → guion (x :: a) b (S k)
| guion_ins y a b k : guion a b k → guion a (y :: b) (S k).

End Levenshtein.

(** ** The alignment as the specification words it

    Section 4.2 of the specification describes the table by its recurrence
    and the backtracking as a walk from [(n, m)] to [(0, 0)] with a fixed
    priority of moves.  The definitions below follow that text, not the
    program; the program is compared with them further down. *)

Section AlineacionSpec.
Context {T : Type} `{!EqDecision T}.
Variables ref hyp : list T.

(** [ref[i] == hyp[j]] on existing tokens. *)
Definition mismo_token (i j : nat) : Prop :=
  ∃ a, ref !! i = Some a ∧ hyp !! j = Some a.

#[global] Instance mismo_token_dec i j : Decision (mismo_token i j).
Proof.
  unfold mismo_token.
  destruct (ref !! i) as [a|] eqn:Ha, (hyp !! j) as [b|] eqn:Hb.
  - destruct (decide (a = b)) as [->|Hne]; [left; eauto|].
    right; intros (c & ? & ?); congruence.
  - right; intros (c & ? & ?); congruence.
  - right; intros (c & ? & ?); congruence.
  - right; intros (c & ? & ?); congruence.
Defined.

(** [table[i][0] = i], [table[0][j] = j], and for [i, j >= 1] the
    recurrence on [table[i-1][j]], [table[i][j-1]], [table[i-1][j-1]]. *)
Fixpoint tabla_spec (i j : nat) : Z :=
  match i with
  | O => Z.of_nat j
  | S i' =>
      (fix fila (j : nat) : Z :=
         match j with
         | O => Z.of_nat i
         | S j' =>
             if decide (mismo_token i' j') then tabla_spec i' j'
             else 1 + Z.min (tabla_spec i' j)
                            (Z.min (fila j') (tabla_spec i' j'))
         end) j
  end.

(** The tests of the walk at cell [(i, j)]; a test that mentions a cell
    above or to the left only holds where that cell exists. *)
Definition coincide (i j : nat) : Prop :=
  ∃ i' j', i = S i' ∧ j = S j' ∧ mismo_token i' j'.

Definition cabe_sustitucion (i j : nat) : Prop :=
  ∃ i' j', i = S i' ∧ j = S j' ∧ tabla_spec i j = tabla_spec i' j' + 1.

Definition cabe_eliminacion (i j : nat) : Prop :=
  ∃ i', i = S i' ∧ tabla_spec i j = tabla_spec i' j + 1.

Definition cabe_insercion (i j : nat) : Prop :=
  ∃ j', j = S j' ∧ tabla_spec i j = tabla_spec i j' + 1.

(** [camino_spec i j (s, d, k)]: the walk from [(i, j)] reaches [(0, 0)]
    and takes [s] substitutions, [d] deletions and [k] insertions, each
    move being the first one permitted in the order match, substitution,
    deletion, insertion. *)
Inductive camino_spec : nat → nat → Z * Z * Z → Prop :=
| camino_fin : camino_spec 0 0 (0, 0, 0)
| camino_coincide i j c :
    coincide (S i) (S j) →
    camino_spec i j c → camino_spec (S i) (S j) c
| camino_sust i j s d k :
    ¬ coincide (S i) (S j) → cabe_sustitucion (S i) (S j) →
    camino_spec i j (s, d, k) → camino_spec (S i) (S j) (s + 1, d, k)
| camino_elim i j s d k :
    ¬ coincide (S i) j → ¬ cabe_sustitucion (S i) j →
    cabe_eliminacion (S i) j →
    camino_spec i j (s, d, k) → camino_spec (S i) j (s, d + 1, k)
| camino_ins i j s d k :
    ¬ coincide i (S j) → ¬ cabe_sustitucion i (S j) →
    ¬ cabe_eliminacion i (S j) → cabe_insercion i (S j) →
    camino_spec i j (s, d, k) → camino_spec i (S j) (s, d, k + 1).

End AlineacionSpec.

(** ** Text

    A Python [str] is a sequence of Unicode code points.  The character
    tables of the interpreter ([str.lower], NFD decomposition, the general
    category [Mn], and the classes [\w] and [\s] of the [re] module, which
    is also the whitespace of [str.split] and [str.strip]) are not part of
    the repository: the normaliser is defined over any such tables. *)

Abbreviation codepoint := N (only parsing).
Abbreviation str := (list N) (only parsing).

Record tablas_unicode := TablasUnicode {
  u_lower : str → str;          (* [texto.lower()] *)
  u_nfd : str → str;            (* [unicodedata.normalize('NFD', texto)] *)
  u_Mn : codepoint → bool;      (* [unicodedata.category(char) == 'Mn'] *)
  u_word : codepoint → bool;    (* [\w] *)
  u_space : codepoint → bool    (* [\s] *)
}.

(** The space character [' ']. *)
Definition SP : N := 32%N.
(** The line feed ['\n']. *)
Definition LF : N := 10%N.

Section Texto.
Variable U : tablas_unicode.

(** [re.sub(r'[^\w\s]', ' ', texto)] *)
Definition sub_no_palabra (texto : str) : str :=
  map (λ c, if u_word U c || u_space U c then c else SP) texto.

(** [re.sub(r'\s+', ' ', texto)]: each maximal run of whitespace becomes
    one space; [en_racha] tells that the previous character was
    whitespace. *)
Fixpoint sub_espacios (en_racha : bool) (texto : str) : str :=
  match texto with
  | [] => []
  | c :: texto' =>
      if u_space U c then
        if en_racha then sub_espacios true texto'
        else SP :: sub_espacios true texto'
      else c :: sub_espacios false texto'
  end.

(** Leading and trailing whitespace removal of [str.strip()]. *)
Fixpoint lstrip (texto : str) : str :=
  match texto with
  | [] => []
  | c :: texto' => if u_space U c then lstrip texto' else texto
  end.

Fixpoint rstrip (texto : str) : str :=
  match texto with
  | [] => []
  | c :: texto' =>
      match rstrip texto' with
      | [] => if u_space U c then [] else [c]
      | resto => c :: resto
      end
  end.

Definition strip (texto : str) : str := rstrip (lstrip texto).

(** [normalizar_texto] (lines 24-42). *)
Definition normalizar_texto (texto : str) : str :=
  let texto := u_lower U texto in
  let texto := u_nfd U texto in
  let texto := List.filter (λ char, negb (u_Mn U char)) texto in
  let texto := sub_no_palabra texto in
  let texto := sub_espacios false texto in
  let texto := strip texto in
  texto.

(** [texto.split()]: the maximal runs of non-whitespace; [actual] is the
    current word, last character first. *)
Fixpoint split_ws (actual : str) (texto : str) : list str :=
  match texto with
  | [] => match actual with [] => [] | _ => [reverse actual] end
  | c :: texto' =>
      if u_space U c then
        match actual with
        | [] => split_ws [] texto'
        | _ => reverse actual :: split_ws [] texto'
        end
      else split_ws (c :: actual) texto'
  end.

Definition split (texto : str) : list str := split_ws [] texto.

(** [contenido.split('\n\n')]: the pieces between non-overlapping
    occurrences of two line feeds, found from the left. *)
Fixpoint split_parrafos (actual : str) (contenido : str) : list str :=
  match contenido with
  | [] => [reverse actual]
  | c :: contenido' =>
      match contenido' with
      | c' :: contenido'' =>
          if (c =? LF)%N && (c' =? LF)%N
          then reverse actual :: split_parrafos [] contenido''
          else split_parrafos (c :: actual) contenido'
      | [] => split_parrafos (c :: actual) contenido'
      end
  end.

End Texto.

(** ** Floating-point results

    The rates are Python floats, that is IEEE 754 binary64 numbers.  A
    finite double is kept as the rational it denotes, and every operation
    rounds its exact result to the nearest double, ties to even.  The sign
    of a zero is not kept: nothing here produces a negative zero. *)

Inductive flotante := Finito (q : Qc) | MasInf | MenosInf | NaN.

(** The integer nearest to [x], the even one of the two when [x] is
    halfway. *)
Definition redondeo_par (x : Q) : Z :=
  let f := Qfloor x in
  match (x - inject_Z f ?= 1 # 2)%Q with
  | Lt => f
  | Gt => f + 1
  | Eq => if Z.even f then f else f + 1
  end.

(** [floor (log2 x)] for [x > 0]. *)
Definition exponente (x : Q) : Z :=
  let e := Z.log2 (Qnum x) - Z.log2 (Zpos (Qden x)) in
  if Qle_bool (2 ^ e) x then e else e - 1.

(** The doubles around [x] are the multiples of [2 ^ cuanto x]: 53
    significant bits, and the subnormal spacing [2 ^ -1074] at the
    bottom. *)
Definition cuanto (x : Q) : Z := Z.max (exponente (Qabs x) - 52) (-1074).

(** Values of magnitude [2 ^ 1024] or more are infinite. *)
Definition empaquetar (v : Q) : flotante :=
  if Qle_bool (2 ^ 1024) v then MasInf
  else if Qle_bool v (- 2 ^ 1024) then MenosInf
  else Finito (Q2Qc v).

(** The multiple of [2 ^ cuanto x] nearest to [x]. *)
Definition valor_redondeado (x : Q) : Q :=
  let p := cuanto x in
  inject_Z (redondeo_par (x / 2 ^ p)) * 2 ^ p.

(** The double nearest to the rational [x]. *)
Definition redondear (x : Q) : flotante := empaquetar (valor_redondeado x).

(** The unit roundoff of the doubles. *)
Definition epsilon : Qc := Q2Qc (2 ^ (-53)).

(** The quotient of two Python integers as a double: CPython rounds the
    exact quotient once. *)
Definition cociente (a b : Z) : flotante :=
  redondear (inject_Z a / inject_Z b).

(** [a / b] on Python integers; a zero divisor raises.  (Python also
    raises when the quotient is too large for a double, which takes a
    numerator of [2 ^ 1024] or more; [cociente] is infinite there.) *)
Definition truediv (a b : Z) : option flotante :=
  if b =? 0 then None else Some (cociente a b).

(** [1 - x] *)
Definition uno_menos (x : flotante) : flotante :=
  match x with
  | Finito q => redondear (1 - q)
  | MasInf => MenosInf
  | MenosInf => MasInf
  | NaN => NaN
  end.

(** [x > 0] *)
Definition positivo (x : flotante) : bool :=
  match x with
  | Finito q => bool_decide (0 < q)%Qc
  | MasInf => true
  | MenosInf | NaN => false
  end.

(** [max(0, x)]: Python returns the first argument unless the second is
    strictly greater. *)
Definition max0 (x : flotante) : flotante :=
  if positivo x then x else Finito 0%Qc.

(** [x + y] *)
Definition f_suma (x y : flotante) : flotante :=
  match x, y with
  | Finito a, Finito b => redondear (a + b)
  | NaN, _ | _, NaN => NaN
  | MasInf, MenosInf | MenosInf, MasInf => NaN
  | MasInf, _ | _, MasInf => MasInf
  | MenosInf, _ | _, MenosInf => MenosInf
  end.

(** [x / y] on numpy doubles, where nothing raises. *)
Definition f_div (x y : flotante) : flotante :=
  match x, y with
  | NaN, _ | _, NaN => NaN
  | Finito a, Finito b =>
      if bool_decide (b = 0%Qc)
      then (if bool_decide (a = 0%Qc) then NaN
            else if bool_decide (0 < a)%Qc then MasInf else MenosInf)
      else redondear (a / b)
  | Finito _, (MasInf | MenosInf) => Finito 0%Qc
  | (MasInf | MenosInf), (MasInf | MenosInf) => NaN
  | MasInf, Finito b => if bool_decide (0 ≤ b)%Qc then MasInf else MenosInf
  | MenosInf, Finito b => if bool_decide (0 ≤ b)%Qc then MenosInf else MasInf
  end.

(** The double of an integer. *)
Definition de_entero (n : Z) : flotante := redondear (inject_Z n).

(** numpy adds the doubles of a contiguous array by pairwise summation.
    Fewer than 8 elements are added one after the other.  Up to 128
    elements are added into eight running sums, [r[k]] taking the elements
    at [k], [k + 8], [k + 16], ...; the eight sums are then combined as
    [((r0 + r1) + (r2 + r3)) + ((r4 + r5) + (r6 + r7))] and the elements
    past the last multiple of 8 are added at the end.  A longer array is
    cut in two at a multiple of 8 near its middle. *)

(** [vueltas] rounds of the unrolled loop: the eight running sums and the
    elements not yet read. *)
Fixpoint acumular8 (vueltas : nat) (r a : list flotante)
    : list flotante * list flotante :=
  match vueltas with
  | O => (r, a)
  | S v => acumular8 v (zip_with f_suma r (take 8 a)) (drop 8 a)
  end.

Definition sumar8 (r : list flotante) : flotante :=
  match r with
  | [r0; r1; r2; r3; r4; r5; r6; r7] =>
      f_suma (f_suma (f_suma r0 r1) (f_suma r2 r3))
             (f_suma (f_suma r4 r5) (f_suma r6 r7))
  | _ => NaN
  end.

(** [combustible] bounds the depth of the recursion; the length of the
    array is more than enough. *)
Fixpoint pairwise_sum (combustible : nat) (a : list flotante) : flotante :=
  let n := length a in
  if (n <? 8)%nat then foldl f_suma (Finito 0%Qc) a
  else if (n <=? 128)%nat then
    let '(r, resto) := acumular8 (n / 8 - 1) (take 8 a) (drop 8 a) in
    foldl f_suma (sumar8 r) resto
  else
    match combustible with
    | O => NaN
    | S c =>
        let n2 := (n / 2 - (n / 2) mod 8)%nat in
        f_suma (pairwise_sum c (take n2 a)) (pairwise_sum c (drop n2 a))
    end.

(** [np.mean(xs)]: the sum of the array divided by its number of
    elements, which numpy holds in an [intp]. *)
Definition np_mean (xs : list flotante) : flotante :=
  let rcount := Z.min (Z.of_nat (length xs)) (2 ^ 63 - 1) in
  f_div (pairwise_sum (length xs) xs) (de_entero rcount).

(** ** The scorer *)

(** The dictionary returned by [calcular_wer]. *)
Record metricas := Metricas {
  r_wer : flotante;
  r_accuracy : flotante;
  r_sustituciones : Z;
  r_eliminaciones : Z;
  r_inserciones : Z;
  r_total_errores : Z;
  r_palabras_referencia : Z;
  r_palabras_hipotesis : Z
}.

Section Puntuacion.
Variable U : tablas_unicode.

(** The token sequence of a transcript (lines 112-116). *)
Definition palabras (texto : str) : list str :=
  split U (normalizar_texto U texto).

(** [calcular_wer] (lines 100-138); [S'], [D'], [I'] are the source's
    [S], [D], [I]. *)
Definition calcular_wer (referencia hipotesis : str) : option metricas :=
  let ref_normalizada := normalizar_texto U referencia in
  let hyp_normalizada := normalizar_texto U hipotesis in
  let ref_words := split U ref_normalizada in
  let hyp_words := split U hyp_normalizada in
  '(S', D', I', _) ← calcular_distancia_edicion ref_words hyp_words;
  let N := Z.of_nat (length ref_words) in
  '(wer, accuracy) ←
    (if N =? 0 then
       let wer := if 0 <? Z.of_nat (length hyp_words)
                  then MasInf else Finito 0%Qc in
       let accuracy := Finito 0%Qc in
       Some (wer, accuracy)
     else
       wer ← truediv (S' + D' + I') N;
       let accuracy := max0 (uno_menos wer) in
       Some (wer, accuracy));
  Some {| r_wer := wer;
          r_accuracy := accuracy;
          r_sustituciones := S';
          r_eliminaciones := D';
          r_inserciones := I';
          r_total_errores := S' + D' + I';
          r_palabras_referencia := N;
          r_palabras_hipotesis := Z.of_nat (length hyp_words) |}.

End Puntuacion.

(** ** The corpus aggregator *)

(** What [open(archivo).read()] gives: the decoded contents,
    [FileNotFoundError], or any other exception. *)
Inductive lectura := Contenido (contenido : str) | NoEncontrado | OtroError.

(** One line per [print] call, with the values it interpolates. *)
Inductive linea :=
| ErrorNoEncontrado (archivo : string)
| ErrorLectura (archivo : string)
| Advertencia
| Longitudes (manual openai : nat)
| ErrorSinTranscripciones
| Procesando (cuantas : nat)
| LineaWER (i : nat) (wer accuracy : flotante)
| LineaErrores (s d i : Z)
| LineaPalabras (ref hip : Z).

(** The dictionary returned by [calcular_wer_total]. *)
Record resumen := Resumen {
  wer_promedio : flotante;
  wer_total : flotante;
  accuracy_promedio : flotante;
  accuracy_total : flotante;
  total_sustituciones : Z;
  total_eliminaciones : Z;
  total_inserciones : Z;
  total_errores : Z;
  total_palabras_referencia : Z;
  num_transcripciones : nat;
  resultados_individuales : list metricas
}.

(** [calcular_wer_total] returns the empty dictionary or the summary. *)
Inductive retorno := Vacio | Lleno (r : resumen).

(** The variables updated by the loop over the pairs (lines 191-207). *)
Record acumulado := Acumulado {
  ac_resultados : list metricas;
  S_total : Z;
  D_total : Z;
  I_total : Z;
  N_total : Z
}.

Section Agregador.
Variable U : tablas_unicode.
Variable disco : string → lectura.

(** [extraer_transcripciones] (lines 140-163), with what it prints. *)
Definition extraer_transcripciones (archivo : string)
    : list str * list linea :=
  match disco archivo with
  | Contenido contenido =>
      (omap (λ t, match strip U t with [] => None | t' => Some t' end)
            (split_parrafos [] contenido), [])
  | NoEncontrado => ([], [ErrorNoEncontrado archivo])
  | OtroError => ([], [ErrorLectura archivo])
  end.

(** The [for i, (manual, openai) in enumerate(zip(...), 1)] loop; an
    exception of [calcular_wer] leaves it with what was printed so far. *)
Fixpoint procesar (i : nat) (pares : list (str * str)) (ac : acumulado)
    (salida : list linea) : option acumulado * list linea :=
  match pares with
  | [] => (Some ac, salida)
  | (manual, openai) :: pares' =>
      match calcular_wer U manual openai with
      | None => (None, salida)
      | Some resultado =>
          procesar (S i) pares'
            {| ac_resultados := ac_resultados ac ++ [resultado];
               S_total := S_total ac + r_sustituciones resultado;
               D_total := D_total ac + r_eliminaciones resultado;
               I_total := I_total ac + r_inserciones resultado;
               N_total := N_total ac + r_palabras_referencia resultado |}
            (salida ++
               [LineaWER i (r_wer resultado) (r_accuracy resultado);
                LineaErrores (r_sustituciones resultado)
                  (r_eliminaciones resultado) (r_inserciones resultado);
                LineaPalabras (r_palabras_referencia resultado)
                  (r_palabras_hipotesis resultado)])
      end
  end.

(** Lines 180-185: the two lists after the length check, and the warning
    printed when they differ. *)
Definition igualar (transcripciones_manual transcripciones_openai : list str)
    : list str * list str * list linea :=
  if decide (length transcripciones_manual ≠ length transcripciones_openai)
  then
    let min_len := Nat.min (length transcripciones_manual)
                           (length transcripciones_openai) in
    (take min_len transcripciones_manual,
     take min_len transcripciones_openai,
     [Advertencia;
      Longitudes (length transcripciones_manual)
                 (length transcripciones_openai)])
  else (transcripciones_manual, transcripciones_openai, []).

(** Lines 209-226: the summary built from the accumulated totals. *)
Definition resumir (ac : acumulado) : option resumen :=
  let resultados_individuales := ac_resultados ac in
  let wer_promedio := np_mean (r_wer <$> resultados_individuales) in
  wer_total ←
    (if 0 <? N_total ac
     then truediv (S_total ac + D_total ac + I_total ac) (N_total ac)
     else Some MasInf);
  let accuracy_promedio := np_mean (r_accuracy <$> resultados_individuales) in
  let accuracy_total := max0 (uno_menos wer_total) in
  Some {| wer_promedio := wer_promedio;
          wer_total := wer_total;
          accuracy_promedio := accuracy_promedio;
          accuracy_total := accuracy_total;
          total_sustituciones := S_total ac;
          total_eliminaciones := D_total ac;
          total_inserciones := I_total ac;
          total_errores := S_total ac + D_total ac + I_total ac;
          total_palabras_referencia := N_total ac;
          num_transcripciones := length resultados_individuales;
          resultados_individuales := resultados_individuales |}.

(** [calcular_wer_total] (lines 165-226): the value returned ([None] when
    an exception escapes) and everything printed. *)
Definition calcular_wer_total (archivo_manual archivo_openai : string)
    : option retorno * list linea :=
  let '(transcripciones_manual, salida1) :=
    extraer_transcripciones archivo_manual in
  let '(transcripciones_openai, salida2) :=
    extraer_transcripciones archivo_openai in
  let '(transcripciones_manual, transcripciones_openai, aviso) :=
    igualar transcripciones_manual transcripciones_openai in
  let salida := salida1 ++ salida2 ++ aviso in
  match transcripciones_manual with
  | [] => (Some Vacio, salida ++ [ErrorSinTranscripciones])
  | _ =>
      let salida := salida ++ [Procesando (length transcripciones_manual)] in
      match procesar 1 (zip transcripciones_manual transcripciones_openai)
              (Acumulado [] 0 0 0 0) salida with
      | (None, salida) => (None, salida)
      | (Some ac, salida) => (Lleno <$> resumir ac, salida)
      end
  end.

End Agregador.

(** ** The Basic Latin block of the tables

    These tables agree with the interpreter's on the code points below 128
    (ASCII letters fold to lower case, nothing decomposes, there are no
    marks, [\w] is [[A-Za-z0-9_]], and [\s] is the ASCII whitespace with the
    four separators U+001C to U+001F); every other code point is treated as
    a caseless symbol.  They serve to run the program on ASCII text. *)

Definition entre (a b c : N) : bool := ((a <=? c) && (c <=? b))%N.

Definition basic_latin : tablas_unicode := {|
  u_lower := map (λ c, if entre 65 90 c then (c + 32)%N else c);
  u_nfd := λ texto, texto;
  u_Mn := λ _, false;
  u_word := λ c, entre 48 57 c || entre 65 90 c || (c =? 95)%N || entre 97 122 c;
  u_space := λ c, entre 9 13 c || entre 28 32 c
|}.

(** A Python literal written in ASCII. *)
Fixpoint literal (s : string) : str :=
  match s with
  | EmptyString => []
  | String c s' => Ascii.N_of_ascii c :: literal s'
  end.

(** ** Invariants used in the proofs *)

(** A table with rows [0..n] and columns [0..m]. *)
Definition forma (dp : table) (n m : nat) : Prop :=
  length dp = S n ∧ Forall (λ fila, length fila = S m) dp.

(** The cells selected by [P] already hold their final value. *)
Definition lleno {T : Type} `{!EqDecision T} (ref hyp : list T)
    (dp : table) (P : nat → nat → Prop) : Prop :=
  forma dp (length ref) (length hyp) ∧
  ∀ i j, (i ≤ length ref)%nat → (j ≤ length hyp)%nat → P i j →
         getitem dp i j = Some (tabla_spec ref hyp i j).

(** A code point that lower-casing and canonical decomposition leave
    alone. *)
Definition fijo (U : tablas_unicode) (c : N) : Prop :=
  u_lower U [c] = [c] ∧ u_nfd U [c] = [c].

(** What the proof of idempotence uses of the character tables: the space
    is whitespace, is no mark and is left alone; every code point of a
    lower-cased, decomposed text is left alone by both operations; and a
    text made of such code points that are word characters or spaces is
    unchanged by both (word characters have combining class zero, so
    nothing is reordered). *)
Record tablas_ok (U : tablas_unicode) : Prop := {
  espacio_es_espacio : u_space U SP = true;
  espacio_no_Mn : u_Mn U SP = false;
  espacio_fijo : fijo U SP;
  imagen_fija : ∀ s, Forall (fijo U) (u_nfd U (u_lower U s));
  fijos_identidad : ∀ r,
    Forall (λ c, fijo U c ∧ (u_word U c = true ∨ c = SP)) r →
    u_lower U r = r ∧ u_nfd U r = r
}.

Section FormaNormal.
Variable U : tablas_unicode.
Implicit Types (l : list N) (c : N).

(** Whitespace of [l] is made of single [SP]s; [b] tells that [l] follows
    a whitespace character. *)
Fixpoint espaciado (b : bool) l : Prop :=
  match l with
  | [] => True
  | c :: l' =>
      if u_space U c then b = false ∧ c = SP ∧ espaciado true l'
      else espaciado false l'
  end.

Definition limpio c : Prop :=
  fijo U c ∧ u_Mn U c = false ∧
  ((u_word U c = true ∧ u_space U c = false) ∨ c = SP).

(** After [lstrip] the text is empty or starts with a non-space. *)
Definition sin_espacio_inicial l : Prop :=
  match l with [] => True | c :: _ => u_space U c = false end.

End FormaNormal.

(** A double of unbounded exponent: a significand of at most 53 bits on
    a spacing of at least [2 ^ -1074]. *)
Definition es_double (d : Q) : Prop :=
  ∃ M j, (d == inject_Z M * 2 ^ j)%Q ∧ Z.abs M < 2 ^ 53 ∧ -1074 ≤ j.

(** A rate or an accuracy: a non-negative number or the infinity. *)
Definition no_negativo (x : flotante) : Prop :=
  x = MasInf ∨ ∃ q, x = Finito q ∧ (0 ≤ q)%Qc.

(** [x] is a sum of the elements of [l], added in some order and grouped
    in some way, each addition rounded. *)
Inductive suma_arbol : list flotante → flotante → Prop :=
| sa_nada : suma_arbol [] (Finito 0%Qc)
| sa_uno x : suma_arbol [x] x
| sa_mas l1 l2 x y :
    suma_arbol l1 x → suma_arbol l2 y → suma_arbol (l1 ++ l2) (f_suma x y)
| sa_perm l1 l2 x : l1 ≡ₚ l2 → suma_arbol l1 x → suma_arbol l2 x.

(** The transcripts whose token sequences numpy can index. *)
Definition cortas (U : tablas_unicode) (ts : list (list N)) : Prop :=
  Forall (λ t, Z.of_nat (length (palabras U t)) < int64_max) ts.

(** The same, as a check that can be run. *)
Definition cortasb (U : tablas_unicode) (ts : list (list N)) : bool :=
  forallb (λ t, Z.of_nat (length (palabras U t)) <? int64_max) ts.

Definition suma (xs : list Z) : Z := foldr Z.add 0 xs.

(** Files used in the examples below. *)
Definition disco_signos (archivo : string) : lectura :=
  if String.eqb archivo "manual.txt" then Contenido (literal "?")
  else if String.eqb archivo "openai.txt" then Contenido (literal "!")
  else NoEncontrado.

Definition disco_cinco_tres (archivo : string) : lectura :=
  if String.eqb archivo "manual.txt" then
    Contenido (literal "uno

dos

tres

cuatro

cinco")
  else if String.eqb archivo "openai.txt" then
    Contenido (literal "uno

los

tres tristes")
  else NoEncontrado.

(** ** Definitions used to state further properties *)

(** [sep.join(ts)] *)
Definition unir (sep : list N) (ts : list (list N)) : list N :=
  match ts with
  | [] => []
  | t :: ts' => t ++ flat_map (λ u, sep ++ u) ts'
  end.

(** A text without two line feeds in a row. *)
Definition sin_linea_en_blanco (t : list N) : Prop :=
  ∀ a b, t ≠ a ++ LF :: LF :: b.

(** A file that holds the given text under one name. *)
Definition disco_con (nombre : string) (contenido : list N)
    (archivo : string) : lectura :=
  if String.eqb archivo nombre then Contenido contenido else NoEncontrado.

(** The same, as a check that can be run. *)
Fixpoint con_linea_en_blanco (t : list N) : bool :=
  match t with
  | c :: t' =>
      match t' with
      | c' :: _ => ((c =? LF)%N && (c' =? LF)%N) || con_linea_en_blanco t'
      | [] => false
      end
  | [] => false
  end.

(** The three lines printed for each pair, numbered from [i]. *)
Fixpoint lineas_de (i : nat) (rs : list metricas) : list linea :=
  match rs with
  | [] => []
  | r :: rs' =>
      [LineaWER i (r_wer r) (r_accuracy r);
       LineaErrores (r_sustituciones r) (r_eliminaciones r) (r_inserciones r);
       LineaPalabras (r_palabras_referencia r) (r_palabras_hipotesis r)]
      ++ lineas_de (S i) rs'
  end.

(** Two pairs, the second with a reference made of punctuation only. *)
Definition disco_signo_palabra (archivo : string) : lectura :=
  if String.eqb archivo "manual.txt" then
    Contenido (unir [LF; LF] [literal "hola mundo"; literal "..."])
  else if String.eqb archivo "openai.txt" then
    Contenido (unir [LF; LF] [literal "hola mundo"; literal "hola"])
  else NoEncontrado.

(** Five pairs of nine words, each with one substitution. *)
Definition disco_nueve (archivo : string) : lectura :=
  if String.eqb archivo "manual.txt" then
    Contenido (unir [LF; LF] (replicate 5 (literal "a b c d e f g h i")))
  else if String.eqb archivo "openai.txt" then
    Contenido (unir [LF; LF] (replicate 5 (literal "a b c d e f g h x")))
  else NoEncontrado.

(** A character that may occur in a normalised text. *)
Definition caracter_normal (U : tablas_unicode) (c : N) : Prop :=
  c = SP ∨ (u_word U c = true ∧ u_space U c = false ∧ u_Mn U c = false).

(** Goals on canonical rationals, restated on plain rationals. *)
Ltac qc_a_q :=
  unfold Qcle, Qclt, Qcminus, Qcplus, Qcopp in *; simpl in *;
  rewrite ?Qred_correct in *.

(** The same, keeping large constants folded. *)
Ltac qc_desplegar :=
  repeat progress
    (unfold Qcle, Qclt, Qcmult, Qcplus, Qcminus, Qcopp, Qcdiv, Qcinv in *;
     cbn [this Q2Qc Qc_of_Z] in *);
  rewrite ?Qred_correct in *.

(** ** The report and the script

    The lines printed by [mostrar_resultados] and by the script under
    [if __name__ == "__main__"], and the lines the script writes to
    [resultados_wer.txt]; each carries the values it formats. *)
Inductive linea_informe :=
| DelAgregador (l : linea)
| Calculando
| Regla
| TituloResultados
| NumTranscripciones (n : nat)
| TotalPalabras (palabras_referencia : Z)
| EnBlanco
| TituloTotales
| WerTotal (wer : flotante)
| PrecisionTotal (accuracy : flotante)
| TituloPromedio
| WerPromedio (wer : flotante)
| PrecisionPromedio (accuracy : flotante)
| TituloDesglose
| Sustituciones (s : Z)
| Eliminaciones (d : Z)
| Inserciones (i : Z)
| TotalErrores (e : Z)
| TituloFormula
| FormulaGeneral
| FormulaValores (s d i palabras_referencia : Z)
| FormulaResultado (e palabras_referencia : Z) (wer : flotante)
| Guardados
| NoProcesadas.

(** [mostrar_resultados] (lines 228-253): what it prints, and [None] when
    a key is missing from the dictionary ([KeyError]). *)
Definition mostrar_resultados (resultados : retorno)
    : option unit * list linea_informe :=
  match resultados with
  | Vacio => (None, [TituloResultados])
  | Lleno r =>
      (Some (),
       [TituloResultados;
        NumTranscripciones (num_transcripciones r);
        TotalPalabras (total_palabras_referencia r);
        EnBlanco;
        TituloTotales;
        WerTotal (wer_total r);
        PrecisionTotal (accuracy_total r);
        EnBlanco;
        TituloPromedio;
        WerPromedio (wer_promedio r);
        PrecisionPromedio (accuracy_promedio r);
        EnBlanco;
        TituloDesglose;
        Sustituciones (total_sustituciones r);
        Eliminaciones (total_eliminaciones r);
        Inserciones (total_inserciones r);
        TotalErrores (total_errores r);
        EnBlanco;
        TituloFormula;
        FormulaGeneral;
        FormulaValores (total_sustituciones r) (total_eliminaciones r)
          (total_inserciones r) (total_palabras_referencia r);
        FormulaResultado (total_errores r) (total_palabras_referencia r)
          (wer_total r)])
  end.

(** The script (lines 255-280): the contents written to
    [resultados_wer.txt], if any, and what is printed; [None] outside when
    an exception escapes.  Opening and writing the results file is taken
    to succeed. *)
Definition principal (U : tablas_unicode) (disco : string → lectura)
    : option (option (list linea_informe)) * list linea_informe :=
  let archivo_manual := "transcripcionManual.txt" in
  let archivo_openai := "transcripcionOpenAI.txt" in
  let salida := [Calculando; Regla] in
  let '(resultados, impreso) :=
    calcular_wer_total U disco archivo_manual archivo_openai in
  let salida := salida ++ (DelAgregador <$> impreso) in
  match resultados with
  | None => (None, salida)
  | Some Vacio => (Some None, salida ++ [NoProcesadas])
  | Some (Lleno r) =>
      let '(mostrado, impreso) := mostrar_resultados (Lleno r) in
      let salida := salida ++ impreso in
      match mostrado with
      | None => (None, salida)
      | Some _ =>
          (Some (Some [TituloResultados; Regla;
                       WerTotal (wer_total r);
                       PrecisionTotal (accuracy_total r);
                       TotalErrores (total_errores r);
                       TotalPalabras (total_palabras_referencia r)]),
           salida ++ [Guardados])
      end
  end.

(** * Properties *)

(** ** Machine integers *)

Lemma wrap64_small z : int64_min ≤ z ≤ int64_max → wrap64 z = z.
Proof.
  unfold wrap64, int64_min, int64_max. intros Hz.
  rewrite Z.mod_small; lia.
Qed.

Lemma in_int64_true z : int64_min ≤ z ≤ int64_max → in_int64 z = true.
Proof.
  unfold in_int64. intros [H1 H2].
  apply andb_true_intro; split; lia.
Qed.

(** ** The reference distance *)

Section LevenshteinProps.
Context {T : Type} `{!EqDecision T}.
Implicit Types a b : list T.

Lemma levenshtein_nil_l b : levenshtein [] b = length b.
Proof. reflexivity. Qed.

Lemma levenshtein_nil_r a : levenshtein a [] = length a.
Proof. destruct a; reflexivity. Qed.

Lemma levenshtein_cons x y a b :
  levenshtein (x :: a) (y :: b) =
    if decide (x = y) then levenshtein a b
    else S (Nat.min (levenshtein a (y :: b))
                    (Nat.min (levenshtein (x :: a) b) (levenshtein a b))).
Proof. reflexivity. Qed.

Lemma levenshtein_cons_eq x a b :
  levenshtein (x :: a) (x :: b) = levenshtein a b.
Proof. rewrite levenshtein_cons. by rewrite decide_True. Qed.

(** Removing or adding one token changes the distance by at most one. *)
Lemma levenshtein_lipschitz (k : nat) : ∀ a b, (length a + length b ≤ k)%nat →
  (∀ x, levenshtein a b ≤ S (levenshtein (x :: a) b))%nat ∧
  (∀ y, levenshtein a b ≤ S (levenshtein a (y :: b)))%nat ∧
  (∀ x, levenshtein (x :: a) b ≤ S (levenshtein a b))%nat ∧
  (∀ y, levenshtein a (y :: b) ≤ S (levenshtein a b))%nat.
Proof.
  induction k as [|k IH]; intros a b Hk.
  { destruct a, b; simpl in Hk; try lia. repeat split; intros; simpl; lia. }
  assert (HC : ∀ x, (levenshtein (x :: a) b ≤ S (levenshtein a b))%nat).
  { intros x. destruct b as [|y b'].
    - rewrite !levenshtein_nil_r. simpl. lia.
    - rewrite levenshtein_cons. destruct (decide (x = y)) as [->|Hne].
      + destruct (IH a b') as (_ & HB & _); [simpl in Hk; lia|].
        specialize (HB y). lia.
      + lia. }
  assert (HD : ∀ y, (levenshtein a (y :: b) ≤ S (levenshtein a b))%nat).
  { intros y. destruct a as [|x a'].
    - rewrite !levenshtein_nil_l. simpl. lia.
    - rewrite levenshtein_cons. destruct (decide (x = y)) as [->|Hne].
      + destruct (IH a' b) as (HA & _); [simpl in Hk; lia|].
        specialize (HA y). lia.
      + lia. }
  repeat split; try done.
  - intros x. destruct b as [|y b'].
    + rewrite !levenshtein_nil_r. simpl. lia.
    + rewrite levenshtein_cons. destruct (decide (x = y)) as [->|Hne].
      * destruct (IH a b') as (_ & _ & _ & HD'); [simpl in Hk; lia|].
        apply HD'.
      * destruct (IH a b') as (HA & _ & _ & HD'); [simpl in Hk; lia|].
        specialize (HA x). specialize (HD' y). lia.
  - intros y. destruct a as [|x a'].
    + rewrite !levenshtein_nil_l. simpl. lia.
    + rewrite levenshtein_cons. destruct (decide (x = y)) as [->|Hne].
      * destruct (IH a' b) as (_ & _ & HC' & _); [simpl in Hk; lia|].
        apply HC'.
      * destruct (IH a' b) as (_ & HB & HC' & _); [simpl in Hk; lia|].
        specialize (HB y). specialize (HC' x). lia.
Qed.

Lemma levenshtein_elim x a b :
  (levenshtein (x :: a) b ≤ S (levenshtein a b))%nat.
Proof. by eapply (levenshtein_lipschitz _ a b). Qed.

Lemma levenshtein_ins y a b :
  (levenshtein a (y :: b) ≤ S (levenshtein a b))%nat.
Proof. by eapply (levenshtein_lipschitz _ a b). Qed.

Lemma levenshtein_sust x y a b :
  (levenshtein (x :: a) (y :: b) ≤ S (levenshtein a b))%nat.
Proof. rewrite levenshtein_cons. case_decide; lia. Qed.

(** The recursion is realised by a script ... *)
Lemma levenshtein_guion a : ∀ b, guion a b (levenshtein a b).
Proof.
  induction a as [|x a IHa]; intros b.
  - induction b as [|y b IHb]; [constructor|].
    simpl in *. by constructor.
  - induction b as [|y b IHb].
    + rewrite levenshtein_nil_r. specialize (IHa []).
      rewrite levenshtein_nil_r in IHa. simpl. by constructor.
    + rewrite levenshtein_cons. destruct (decide (x = y)) as [->|Hne].
      * by constructor.
      * destruct (Nat.min_spec (levenshtein a (y :: b))
          (Nat.min (levenshtein (x :: a) b) (levenshtein a b))) as [[_ ->]|[_ ->]].
        { by constructor. }
        destruct (Nat.min_spec (levenshtein (x :: a) b) (levenshtein a b))
          as [[_ ->]|[_ ->]]; by constructor.
Qed.

(** ... and no script is cheaper. *)
Lemma levenshtein_minimo a b k : guion a b k → (levenshtein a b ≤ k)%nat.
Proof.
  induction 1 as [|x a b k _ IH|x y a b k _ IH|x a b k _ IH|y a b k _ IH].
  - simpl. lia.
  - by rewrite levenshtein_cons_eq.
  - pose proof (levenshtein_sust x y a b). lia.
  - pose proof (levenshtein_elim x a b). lia.
  - pose proof (levenshtein_ins y a b). lia.
Qed.

(** Scripts compose, hence can be read from the right end. *)
Lemma guion_app a b k a' b' k' :
  guion a b k → guion a' b' k' → guion (a ++ a') (b ++ b') (k + k').
Proof.
  intros H H'. induction H; simpl; try by constructor.
  done.
Qed.

Lemma guion_reverse a b k : guion a b k → guion (reverse a) (reverse b) k.
Proof.
  induction 1 as [|x a b k _ IH|x y a b k _ IH|x a b k _ IH|y a b k _ IH];
    rewrite ?reverse_cons.
  - constructor.
  - replace k with (k + 0)%nat by lia.
    apply guion_app; [done|]. repeat constructor.
  - replace (S k) with (k + 1)%nat by lia.
    apply guion_app; [done|]. repeat constructor.
  - replace (S k) with (k + 1)%nat by lia.
    rewrite <- (app_nil_r (reverse b)).
    apply guion_app; [done|]. repeat constructor.
  - replace (S k) with (k + 1)%nat by lia.
    rewrite <- (app_nil_r (reverse a)).
    apply guion_app; [done|]. repeat constructor.
Qed.

Lemma levenshtein_reverse a b :
  levenshtein (reverse a) (reverse b) = levenshtein a b.
Proof.
  apply Nat.le_antisymm.
  - apply levenshtein_minimo, guion_reverse, levenshtein_guion.
  - rewrite <- (reverse_involutive a), <- (reverse_involutive b) at 1.
    apply levenshtein_minimo, guion_reverse, levenshtein_guion.
Qed.

Lemma levenshtein_bound a b :
  (levenshtein a b ≤ Nat.max (length a) (length b))%nat.
Proof.
  revert b. induction a as [|x a IHa]; intros b; [simpl; lia|].
  destruct b as [|y b]; [rewrite levenshtein_nil_r; lia|].
  pose proof (levenshtein_sust x y a b). specialize (IHa b).
  cbn [length]. lia.
Qed.

End LevenshteinProps.

(** ** The table of the specification and the reference distance *)

Section TablaSpec.
Context {T : Type} `{!EqDecision T}.
Variables ref hyp : list T.

Lemma tabla_spec_0_l j : tabla_spec ref hyp 0 j = Z.of_nat j.
Proof. reflexivity. Qed.

Lemma tabla_spec_0_r i : tabla_spec ref hyp i 0 = Z.of_nat i.
Proof. destruct i; reflexivity. Qed.

Lemma tabla_spec_S i j :
  tabla_spec ref hyp (S i) (S j) =
    if decide (mismo_token ref hyp i j) then tabla_spec ref hyp i j
    else 1 + Z.min (tabla_spec ref hyp i (S j))
                   (Z.min (tabla_spec ref hyp (S i) j) (tabla_spec ref hyp i j)).
Proof. reflexivity. Qed.

(** Cell [(i, j)] holds the distance between the prefixes of lengths
    [i] and [j]. *)
Lemma tabla_spec_levenshtein i : ∀ j,
  (i ≤ length ref)%nat → (j ≤ length hyp)%nat →
  tabla_spec ref hyp i j =
    Z.of_nat (levenshtein (reverse (take i ref)) (reverse (take j hyp))).
Proof.
  induction i as [|i IHi]; intros j Hi Hj.
  - rewrite tabla_spec_0_l, take_0, reverse_nil, levenshtein_nil_l.
    rewrite length_reverse, length_take. lia.
  - induction j as [|j IHj].
    + rewrite tabla_spec_0_r, (take_0 hyp), reverse_nil, levenshtein_nil_r.
      rewrite length_reverse, length_take. lia.
    + destruct (lookup_lt_is_Some_2 ref i) as [a Ha]; [lia|].
      destruct (lookup_lt_is_Some_2 hyp j) as [b Hb]; [lia|].
      rewrite tabla_spec_S.
      rewrite (take_S_r ref i a Ha), (take_S_r hyp j b Hb), !reverse_snoc.
      rewrite levenshtein_cons.
      rewrite <- !reverse_snoc, <- (take_S_r ref i a Ha), <- (take_S_r hyp j b Hb).
      destruct (decide (mismo_token ref hyp i j)) as [(c & Hc1 & Hc2)|Hne].
      * rewrite decide_True by congruence. apply IHi; lia.
      * rewrite decide_False.
        2:{ intros ->. apply Hne. by exists b. }
        rewrite IHj, !IHi by lia. lia.
Qed.

Lemma tabla_spec_total :
  tabla_spec ref hyp (length ref) (length hyp) = Z.of_nat (levenshtein ref hyp).
Proof.
  rewrite tabla_spec_levenshtein by lia.
  by rewrite !firstn_all, levenshtein_reverse.
Qed.

Lemma tabla_spec_bounds i j :
  (i ≤ length ref)%nat → (j ≤ length hyp)%nat →
  0 ≤ tabla_spec ref hyp i j ≤ Z.of_nat (Nat.max i j).
Proof.
  intros Hi Hj. rewrite tabla_spec_levenshtein by done.
  pose proof (levenshtein_bound (reverse (take i ref)) (reverse (take j hyp))) as H.
  rewrite !length_reverse, !length_take in H. lia.
Qed.

End TablaSpec.

(** ** Reading and writing table cells *)

Lemma forma_np_zeros n m : forma (np_zeros (n + 1) (m + 1)) n m.
Proof.
  unfold np_zeros. rewrite !Nat.add_1_r. split.
  - by rewrite length_replicate.
  - apply Forall_replicate. by rewrite length_replicate.
Qed.

Lemma forma_fila dp n m i fila :
  forma dp n m → dp !! i = Some fila → length fila = S m.
Proof. intros [_ H] Hi. by apply (Forall_lookup_1 _ _ _ _ H Hi). Qed.

Lemma getitem_is_Some dp n m i j :
  forma dp n m → (i ≤ n)%nat → (j ≤ m)%nat → is_Some (getitem dp i j).
Proof.
  intros Hf Hi Hj. unfold getitem.
  destruct (lookup_lt_is_Some_2 dp i) as [fila Hfila]; [destruct Hf; lia|].
  rewrite Hfila. simpl. apply lookup_lt_is_Some_2.
  rewrite (forma_fila _ _ _ _ _ Hf Hfila). lia.
Qed.

Lemma setitem_spec dp n m i j v :
  forma dp n m → (i ≤ n)%nat → (j ≤ m)%nat →
  ∃ dp', setitem dp i j v = Some dp' ∧ forma dp' n m ∧
         getitem dp' i j = Some v ∧
         ∀ i' j', (i', j') ≠ (i, j) → getitem dp' i' j' = getitem dp i' j'.
Proof.
  intros Hf Hi Hj. unfold setitem.
  destruct (lookup_lt_is_Some_2 dp i) as [fila Hfila]; [destruct Hf; lia|].
  pose proof (forma_fila _ _ _ _ _ Hf Hfila) as Hlen.
  destruct (lookup_lt_is_Some_2 fila j) as [w Hw]; [lia|].
  rewrite Hfila. simpl. rewrite Hw. simpl.
  eexists; split; [done|]. split; [|split].
  - destruct Hf as [Hf1 Hf2]. split; [by rewrite length_insert|].
    apply Forall_insert; [done|]. by rewrite length_insert.
  - unfold getitem. rewrite list_lookup_insert_eq by (destruct Hf; lia).
    simpl. apply list_lookup_insert_eq. lia.
  - intros i' j' Hne. unfold getitem.
    destruct (decide (i' = i)) as [->|Hi'].
    + rewrite list_lookup_insert_eq by (destruct Hf; lia).
      rewrite Hfila. simpl. apply list_lookup_insert_ne. congruence.
    + by rewrite list_lookup_insert_ne.
Qed.

(** ** Loops *)

Lemma for_each_seq_inv {S : Type} (Inv : nat → S → Prop)
    (body : nat → S → option S) (a k : nat) (s : S) :
  Inv a s →
  (∀ i s, (a ≤ i < a + k)%nat → Inv i s →
          ∃ s', body i s = Some s' ∧ Inv (Datatypes.S i) s') →
  ∃ s', for_each (seq a k) body s = Some s' ∧ Inv (a + k)%nat s'.
Proof.
  revert a s. induction k as [|k IH]; intros a s H0 Hstep.
  - exists s. rewrite Nat.add_0_r. done.
  - destruct (Hstep a s) as (s1 & Hb & H1); [lia|done|].
    destruct (IH (Datatypes.S a) s1) as (s2 & Hf & H2); [done| |].
    { intros i s' Hi. apply Hstep. lia. }
    exists s2. simpl. rewrite Hb. simpl. split; [done|].
    by replace (a + Datatypes.S k)%nat with (Datatypes.S a + k)%nat by lia.
Qed.

(** ** The program fills the table of the specification *)

Section Llenado.
Context {T : Type} `{!EqDecision T}.
Variables ref hyp : list T.
Let n := length ref.
Let m := length hyp.
Hypothesis Hn : Z.of_nat n < int64_max.
Hypothesis Hm : Z.of_nat m < int64_max.

Lemma lleno_weaken dp (P Q : nat → nat → Prop) :
  lleno ref hyp dp P → (∀ i j, (i ≤ n)%nat → (j ≤ m)%nat → Q i j → P i j) → lleno ref hyp dp Q.
Proof. intros [Hf H] HQ. split; [done|]. auto. Qed.

Lemma lleno_setitem dp P i j :
  lleno ref hyp dp P → (i ≤ n)%nat → (j ≤ m)%nat →
  ∃ dp', setitem dp i j (tabla_spec ref hyp i j) = Some dp' ∧
         lleno ref hyp dp' (λ i' j', P i' j' ∨ (i' = i ∧ j' = j)).
Proof.
  intros [Hf H] Hi Hj.
  destruct (setitem_spec dp n m i j (tabla_spec ref hyp i j) Hf Hi Hj)
    as (dp' & Hset & Hf' & Hget & Hother).
  exists dp'. split; [done|]. split; [done|].
  intros i' j' Hi' Hj' HP.
  destruct (decide ((i', j') = (i, j))) as [Heq|Hne].
  - by inversion Heq; subst.
  - rewrite Hother by done. apply H; [done..|].
    destruct HP as [|[-> ->]]; done.
Qed.

Lemma tabla_spec_int64 i j :
  (i ≤ n)%nat → (j ≤ m)%nat →
  int64_min ≤ tabla_spec ref hyp i j ≤ int64_max - 1.
Proof.
  intros Hi Hj. pose proof (tabla_spec_bounds ref hyp i j Hi Hj).
  unfold int64_min, int64_max in *. lia.
Qed.

Lemma paso_dp_spec dp P i j :
  lleno ref hyp dp P → (1 ≤ i ≤ n)%nat → (1 ≤ j ≤ m)%nat →
  P (i - 1)%nat j → P i (j - 1)%nat → P (i - 1)%nat (j - 1)%nat →
  ∃ dp', paso_dp ref hyp i j dp = Some dp' ∧
         lleno ref hyp dp' (λ i' j', P i' j' ∨ (i' = i ∧ j' = j)).
Proof.
  intros Hl Hi Hj P1 P2 P3. pose proof Hl as [Hf H].
  destruct i as [|i]; [lia|]. destruct j as [|j]; [lia|].
  replace (S i - 1)%nat with i in * by lia.
  replace (S j - 1)%nat with j in * by lia.
  fold n in Hi. fold m in Hj.
  destruct (lookup_lt_is_Some_2 ref i) as [a Ha]; [fold n; lia|].
  destruct (lookup_lt_is_Some_2 hyp j) as [b Hb]; [fold m; lia|].
  unfold paso_dp.
  replace (S i - 1)%nat with i by lia. replace (S j - 1)%nat with j by lia.
  rewrite Ha, Hb. cbn [mbind option_bind].
  rewrite (H i (S j)), (H (S i) j), (H i j) by (done || lia).
  cbn [mbind option_bind].
  pose proof (tabla_spec_S ref hyp i j) as Hrec.
  destruct (decide (a = b)) as [->|Hab].
  - rewrite decide_True in Hrec by (by exists b).
    rewrite <- Hrec. apply lleno_setitem; [done|lia..].
  - rewrite decide_False in Hrec.
    2:{ intros (c & ? & ?). congruence. }
    rewrite <- Hrec, wrap64_small.
    + apply lleno_setitem; [done|lia..].
    + pose proof (tabla_spec_int64 (S i) (S j)). lia.
Qed.

Lemma llenar_dp_spec :
  ∃ dp, llenar_dp ref hyp = Some dp ∧ lleno ref hyp dp (λ _ _, True).
Proof.
  unfold llenar_dp. fold n m. unfold range.
  (* base column *)
  destruct (for_each_seq_inv
    (λ i dp, lleno ref hyp dp (λ i' j', j' = 0%nat ∧ (i' < i)%nat))
    (λ i dp, setitem_int dp i 0 (Z.of_nat i)) 0 (n + 1 - 0)
    (np_zeros (n + 1) (m + 1))) as (dp1 & -> & H1).
  { split; [apply forma_np_zeros|]. intros i j _ _ [_ ?]. lia. }
  { intros i dp Hi Hl. unfold setitem_int.
    rewrite in_int64_true by (unfold int64_min, int64_max in *; lia).
    rewrite <- (tabla_spec_0_r ref hyp i).
    destruct (lleno_setitem dp _ i 0 Hl) as (dp' & -> & Hl'); [lia..|].
    exists dp'. split; [done|]. eapply lleno_weaken; [done|].
    simpl. intros i' j' _ _ [-> ?]. destruct (decide (i' = i)); [right|left]; lia. }
  simpl.
  (* base row *)
  destruct (for_each_seq_inv
    (λ j dp, lleno ref hyp dp (λ i' j', j' = 0%nat ∨ (i' = 0%nat ∧ (j' < j)%nat)))
    (λ j dp, setitem_int dp 0 j (Z.of_nat j)) 0 (m + 1 - 0) dp1)
    as (dp2 & -> & H2).
  { eapply lleno_weaken; [done|]. simpl. intros i' j' Hi' _ [->|[_ ?]]; lia. }
  { intros j dp Hj Hl. unfold setitem_int.
    rewrite in_int64_true by (unfold int64_min, int64_max in *; lia).
    rewrite <- (tabla_spec_0_l ref hyp j).
    destruct (lleno_setitem dp _ 0 j Hl) as (dp' & -> & Hl'); [lia..|].
    exists dp'. split; [done|]. eapply lleno_weaken; [done|].
    simpl. intros i' j' _ _ [->|[-> ?]]; [by left; left|].
    destruct (decide (j' = j)); [right|left; right]; lia. }
  simpl.
  (* recurrence *)
  destruct (for_each_seq_inv
    (λ i dp, lleno ref hyp dp (λ i' j', j' = 0%nat ∨ (i' < i)%nat))
    (λ i dp, for_each (seq 1 (m + 1 - 1)) (λ j dp, paso_dp ref hyp i j dp) dp)
    1 (n + 1 - 1) dp2) as (dp3 & -> & H3).
  { eapply lleno_weaken; [done|]. simpl. intros i' j' _ Hj' [->|?]; [by left|].
    right. split; lia. }
  { intros i dp Hi Hl.
    destruct (for_each_seq_inv
      (λ j dp, lleno ref hyp dp (λ i' j', j' = 0%nat ∨ (i' < i)%nat
                                 ∨ (i' = i ∧ (j' < j)%nat)))
      (λ j dp, paso_dp ref hyp i j dp) 1 (m + 1 - 1) dp) as (dp' & -> & Hl').
    { eapply lleno_weaken; [done|]. simpl. intros i' j' _ _ [->|[?|[_ ?]]]; lia. }
    { intros j dp' Hj Hl'.
      destruct (paso_dp_spec dp' _ i j Hl') as (dp'' & -> & Hl''); try lia.
      exists dp''. split; [done|]. eapply lleno_weaken; [done|].
      simpl. intros i' j' _ _ [->|[?|[-> ?]]]; [by left; left|by left; right; left|].
      destruct (decide (j' = j)); [right|left; right; right]; lia. }
    exists dp'. split; [done|]. eapply lleno_weaken; [done|].
    simpl. intros i' j' _ Hj' [->|?]; [by left|].
    destruct (decide (i' = i)); [right; right|right; left]; lia. }
  exists dp3. split; [done|]. eapply lleno_weaken; [done|].
  simpl. intros i' j' Hi' _ _. right. lia.
Qed.

End Llenado.

(** ** The walk of the specification *)

Section CaminoSpec.
Context {T : Type} `{!EqDecision T}.
Variables ref hyp : list T.

Lemma tabla_spec_coincide i j :
  coincide ref hyp (S i) (S j) →
  tabla_spec ref hyp (S i) (S j) = tabla_spec ref hyp i j.
Proof.
  intros (i' & j' & [= <-] & [= <-] & Hij).
  rewrite tabla_spec_S. by rewrite decide_True.
Qed.

(** Away from [(0, 0)] some move is always permitted. *)
Lemma algun_movimiento i j :
  (0 < i ∨ 0 < j)%nat →
  coincide ref hyp i j ∨ cabe_sustitucion ref hyp i j ∨
  cabe_eliminacion ref hyp i j ∨ cabe_insercion ref hyp i j.
Proof.
  intros Hij. destruct i as [|i], j as [|j]; [lia| | |].
  - right; right; right. exists j. split; [done|].
    rewrite !tabla_spec_0_l. lia.
  - right; right; left. exists i. split; [done|].
    rewrite !tabla_spec_0_r. lia.
  - pose proof (tabla_spec_S ref hyp i j) as Hrec.
    destruct (decide (mismo_token ref hyp i j)) as [Hm|Hm].
    { left. by exists i, j. }
    right.
    destruct (Z.min_spec (tabla_spec ref hyp i (S j))
      (Z.min (tabla_spec ref hyp (S i) j) (tabla_spec ref hyp i j)))
      as [[_ Hmin]|[_ Hmin]]; rewrite Hmin in Hrec.
    { right; left. exists i. split; [done|]. lia. }
    destruct (Z.min_spec (tabla_spec ref hyp (S i) j) (tabla_spec ref hyp i j))
      as [[_ Hmin']|[_ Hmin']]; rewrite Hmin' in Hrec.
    { right; right. exists j. split; [done|]. lia. }
    left. exists i, j. repeat split; lia.
Qed.

(** The counts of a walk are non-negative, add up to the cell it starts
    from, and their deletions and insertions differ by [i - j]. *)
Lemma camino_spec_cuentas i j s d k :
  camino_spec ref hyp i j (s, d, k) →
  0 ≤ s ∧ 0 ≤ d ∧ 0 ≤ k ∧
  s + d + k = tabla_spec ref hyp i j ∧
  d - k = Z.of_nat i - Z.of_nat j.
Proof.
  intros H. remember (s, d, k) as c eqn:Hc. revert s d k Hc.
  induction H as [|i j c Hco _ IH|i j s0 d0 k0 _ Hsu _ IH
                  |i j s0 d0 k0 _ _ Hel _ IH|i j s0 d0 k0 _ _ _ Hin _ IH];
    intros s d k Hc; simplify_eq.
  - simpl. lia.
  - specialize (IH _ _ _ eq_refl). rewrite tabla_spec_coincide by done. lia.
  - specialize (IH _ _ _ eq_refl).
    destruct Hsu as (i' & j' & [= <-] & [= <-] & ->). lia.
  - specialize (IH _ _ _ eq_refl).
    destruct Hel as (i' & [= <-] & ->). lia.
  - specialize (IH _ _ _ eq_refl).
    destruct Hin as (j' & [= <-] & ->). lia.
Qed.

(** The priority order leaves no choice: the walk is unique. *)
Lemma camino_spec_unico i j c c' :
  camino_spec ref hyp i j c → camino_spec ref hyp i j c' → c = c'.
Proof.
  intros H. revert c'.
  induction H as [|i j c Hco _ IH|i j s0 d0 k0 Hnco Hsu _ IH
                  |i j s0 d0 k0 Hnco Hnsu Hel _ IH
                  |i j s0 d0 k0 Hnco Hnsu Hnel Hin _ IH];
    intros c' H'; inversion H'; subst; try done;
    try (by (specialize (IH _ ltac:(eassumption)); congruence)).
Qed.

End CaminoSpec.

(** ** The backtracking loop walks the walk of the specification *)

Section Retroceso.
Context {T : Type} `{!EqDecision T}.
Variables ref hyp : list T.
Let n := length ref.
Let m := length hyp.
Hypothesis Hn : Z.of_nat n < int64_max.
Hypothesis Hm : Z.of_nat m < int64_max.
Variable dp : table.
Hypothesis Hdp : lleno ref hyp dp (λ _ _, True).

Lemma celda i j :
  (i ≤ n)%nat → (j ≤ m)%nat → getitem dp i j = Some (tabla_spec ref hyp i j).
Proof. intros. by apply Hdp. Qed.

Lemma mas_uno i j :
  (i ≤ n)%nat → (j ≤ m)%nat →
  wrap64 (tabla_spec ref hyp i j + 1) = tabla_spec ref hyp i j + 1.
Proof.
  intros Hi Hj. apply wrap64_small.
  pose proof (tabla_spec_int64 ref hyp Hn Hm i j Hi Hj). lia.
Qed.

Lemma es_coincidencia_spec i j :
  (i ≤ n)%nat → (j ≤ m)%nat →
  ∃ b, es_coincidencia ref hyp i j = Some b ∧
       (b = true ↔ coincide ref hyp i j).
Proof.
  intros Hi Hj. unfold es_coincidencia.
  destruct i as [|i]; [|destruct j as [|j]]; simpl.
  - exists false. split; [done|]. split; [done|]. by intros (? & ? & ? & _).
  - exists false. split; [done|]. split; [done|]. by intros (? & ? & _ & ? & _).
  - rewrite !Nat.sub_0_r.
    destruct (lookup_lt_is_Some_2 ref i) as [a Ha]; [fold n; lia|].
    destruct (lookup_lt_is_Some_2 hyp j) as [b Hb]; [fold m; lia|].
    rewrite Ha, Hb. simpl. eexists; split; [done|].
    rewrite bool_decide_eq_true. split.
    + intros ->. exists i, j. repeat split. by exists b.
    + intros (i' & j' & [= <-] & [= <-] & c & ? & ?). congruence.
Qed.

Lemma es_sustitucion_spec i j :
  (i ≤ n)%nat → (j ≤ m)%nat →
  ∃ b, es_sustitucion dp i j = Some b ∧
       (b = true ↔ cabe_sustitucion ref hyp i j).
Proof.
  intros Hi Hj. unfold es_sustitucion.
  destruct i as [|i]; [|destruct j as [|j]]; cbn [Nat.ltb Nat.leb andb].
  - exists false. split; [done|]. split; [done|]. by intros (? & ? & ? & _).
  - exists false. split; [done|]. split; [done|]. by intros (? & ? & _ & ? & _).
  - replace (S i - 1)%nat with i by lia. replace (S j - 1)%nat with j by lia.
    rewrite !celda by lia. cbn [mbind option_bind].
    rewrite mas_uno by lia. eexists; split; [done|].
    rewrite Z.eqb_eq. split.
    + intros ?. by exists i, j.
    + by intros (i' & j' & [= <-] & [= <-] & ?).
Qed.

Lemma es_eliminacion_spec i j :
  (i ≤ n)%nat → (j ≤ m)%nat →
  ∃ b, es_eliminacion dp i j = Some b ∧
       (b = true ↔ cabe_eliminacion ref hyp i j).
Proof.
  intros Hi Hj. unfold es_eliminacion.
  destruct i as [|i]; cbn [Nat.ltb Nat.leb].
  - exists false. split; [done|]. split; [done|]. by intros (? & ? & _).
  - replace (S i - 1)%nat with i by lia.
    rewrite !celda by lia. cbn [mbind option_bind].
    rewrite mas_uno by lia. eexists; split; [done|].
    rewrite Z.eqb_eq. split.
    + intros ?. by exists i.
    + by intros (i' & [= <-] & ?).
Qed.

Lemma es_insercion_spec i j :
  (i ≤ n)%nat → (j ≤ m)%nat →
  ∃ b, es_insercion dp i j = Some b ∧
       (b = true ↔ cabe_insercion ref hyp i j).
Proof.
  intros Hi Hj. unfold es_insercion.
  destruct j as [|j]; cbn [Nat.ltb Nat.leb].
  - exists false. split; [done|]. split; [done|]. by intros (? & ? & _).
  - replace (S j - 1)%nat with j by lia.
    rewrite !celda by lia. cbn [mbind option_bind].
    rewrite mas_uno by lia. eexists; split; [done|].
    rewrite Z.eqb_eq. split.
    + intros ?. by exists j.
    + by intros (j' & [= <-] & ?).
Qed.

(** From any cell of the table the loop leaves through its condition, at
    [(0, 0)], never through [break], and the counts it adds are those of
    the walk of the specification. *)
Lemma retroceso_camino combustible : ∀ i j s d k,
  (i ≤ n)%nat → (j ≤ m)%nat → (i + j ≤ combustible)%nat →
  ∃ s' d' k',
    retroceso ref hyp combustible dp (Estado i j s d k) =
      Some (CondicionFalsa, Estado 0 0 (s + s') (d + d') (k + k')) ∧
    camino_spec ref hyp i j (s', d', k').
Proof.
  induction combustible as [|f IH]; intros i j s d k Hi Hj Hf.
  { assert (i = 0%nat) as -> by lia. assert (j = 0%nat) as -> by lia.
    exists 0, 0, 0. rewrite !Z.add_0_r. split; [done|constructor]. }
  destruct (decide (i = 0%nat ∧ j = 0%nat)) as [[-> ->]|Hne].
  { exists 0, 0, 0. rewrite !Z.add_0_r. split; [done|constructor]. }
  assert (((0 <? i)%nat || (0 <? j)%nat) = true) as Hcond.
  { apply orb_true_iff. rewrite !Nat.ltb_lt. lia. }
  cbn [retroceso e_i e_j]. rewrite Hcond. clear Hcond.
  unfold paso_retroceso.
  destruct (es_coincidencia_spec i j Hi Hj) as (b1 & -> & H1).
  destruct (es_sustitucion_spec i j Hi Hj) as (b2 & E2 & H2).
  destruct (es_eliminacion_spec i j Hi Hj) as (b3 & E3 & H3).
  destruct (es_insercion_spec i j Hi Hj) as (b4 & E4 & H4).
  cbn [mbind option_bind].
  destruct b1.
  { destruct (proj1 H1 eq_refl) as (i' & j' & -> & -> & Hij).
    cbn [mbind option_bind]. replace (S i' - 1)%nat with i' by lia.
    replace (S j' - 1)%nat with j' by lia.
    destruct (IH i' j' s d k) as (s' & d' & k' & -> & Hc); [lia..|].
    exists s', d', k'. split; [done|].
    apply camino_coincide; [|done]. by exists i', j'. }
  assert (¬ coincide ref hyp i j) as N1 by (intros ?%H1; done).
  rewrite E2. cbn [mbind option_bind]. destruct b2.
  { pose proof (proj1 H2 eq_refl) as Hsu.
    destruct Hsu as (i' & j' & -> & -> & Hij).
    cbn [mbind option_bind]. replace (S i' - 1)%nat with i' by lia.
    replace (S j' - 1)%nat with j' by lia.
    destruct (IH i' j' (s + 1) d k) as (s' & d' & k' & -> & Hc); [lia..|].
    exists (s' + 1), d', k'. split; [do 3 f_equal; lia|].
    apply camino_sust; [done| |done]. by exists i', j'. }
  assert (¬ cabe_sustitucion ref hyp i j) as N2 by (intros ?%H2; done).
  rewrite E3. cbn [mbind option_bind]. destruct b3.
  { pose proof (proj1 H3 eq_refl) as Hel.
    destruct Hel as (i' & -> & Hij).
    cbn [mbind option_bind]. replace (S i' - 1)%nat with i' by lia.
    destruct (IH i' j s (d + 1) k) as (s' & d' & k' & -> & Hc); [lia..|].
    exists s', (d' + 1), k'. split; [do 3 f_equal; lia|].
    apply camino_elim; [done..| |done]. by exists i'. }
  assert (¬ cabe_eliminacion ref hyp i j) as N3 by (intros ?%H3; done).
  rewrite E4. cbn [mbind option_bind]. destruct b4.
  { pose proof (proj1 H4 eq_refl) as Hin.
    destruct Hin as (j' & -> & Hij).
    cbn [mbind option_bind]. replace (S j' - 1)%nat with j' by lia.
    destruct (IH i j' s d (k + 1)) as (s' & d' & k' & -> & Hc); [lia..|].
    exists s', d', (k' + 1). split; [do 3 f_equal; lia|].
    apply camino_ins; [done..| |done]. by exists j'. }
  assert (¬ cabe_insercion ref hyp i j) as N4 by (intros ?%H4; done).
  destruct (algun_movimiento ref hyp i j) as [?|[?|[?|?]]]; [lia|done..].
Qed.

(** Every iteration of the loop body takes one of the four moves. *)
Lemma paso_retroceso_avanza i j s d k :
  (i ≤ n)%nat → (j ≤ m)%nat → (0 < i ∨ 0 < j)%nat →
  ∃ st', paso_retroceso ref hyp dp (Estado i j s d k) = Some (Some st') ∧
         (e_i st' + e_j st' < i + j)%nat.
Proof.
  intros Hi Hj Hij. unfold paso_retroceso.
  destruct (es_coincidencia_spec i j Hi Hj) as (b1 & -> & H1).
  destruct (es_sustitucion_spec i j Hi Hj) as (b2 & -> & H2).
  destruct (es_eliminacion_spec i j Hi Hj) as (b3 & -> & H3).
  destruct (es_insercion_spec i j Hi Hj) as (b4 & -> & H4).
  cbn [mbind option_bind].
  destruct b1.
  { destruct (proj1 H1 eq_refl) as (i' & j' & -> & -> & _).
    eexists; split; [done|]. simpl. lia. }
  destruct b2.
  { destruct (proj1 H2 eq_refl) as (i' & j' & -> & -> & _).
    eexists; split; [done|]. simpl. lia. }
  destruct b3.
  { destruct (proj1 H3 eq_refl) as (i' & -> & _).
    eexists; split; [done|]. simpl. lia. }
  destruct b4.
  { destruct (proj1 H4 eq_refl) as (j' & -> & _).
    eexists; split; [done|]. simpl. lia. }
  destruct (algun_movimiento ref hyp i j Hij) as [H|[H|[H|H]]].
  - by apply H1 in H.
  - by apply H2 in H.
  - by apply H3 in H.
  - by apply H4 in H.
Qed.

End Retroceso.

(** ** The alignment as a whole *)

Section AlineacionCorrecta.
Context {T : Type} `{!EqDecision T}.
Variables ref hyp : list T.
Hypothesis Hn : Z.of_nat (length ref) < int64_max.
Hypothesis Hm : Z.of_nat (length hyp) < int64_max.

Lemma calcular_distancia_edicion_traza_spec :
  ∃ s d k dp,
    calcular_distancia_edicion_traza ref hyp =
      Some (CondicionFalsa, Estado 0 0 s d k, dp) ∧
    lleno ref hyp dp (λ _ _, True) ∧
    camino_spec ref hyp (length ref) (length hyp) (s, d, k).
Proof.
  destruct (llenar_dp_spec ref hyp Hn Hm) as (dp & Hdp & Hl).
  destruct (retroceso_camino ref hyp Hn Hm dp Hl
              (length ref + length hyp) (length ref) (length hyp) 0 0 0)
    as (s & d & k & Hr & Hc); [lia..|].
  exists s, d, k, dp. unfold calcular_distancia_edicion_traza.
  rewrite Hdp. cbn [mbind option_bind]. rewrite Hr. done.
Qed.

Lemma calcular_distancia_edicion_spec :
  ∃ s d k dp,
    calcular_distancia_edicion ref hyp = Some (s, d, k, dp) ∧
    lleno ref hyp dp (λ _ _, True) ∧
    camino_spec ref hyp (length ref) (length hyp) (s, d, k).
Proof.
  destruct calcular_distancia_edicion_traza_spec as (s & d & k & dp & Ht & Hl & Hc).
  exists s, d, k, dp. unfold calcular_distancia_edicion. by rewrite Ht.
Qed.

End AlineacionCorrecta.

(** *** C1: the counts are non-negative and add up to the Levenshtein
    distance

    For every pair of token lists (of a length numpy can index), the
    substitutions, deletions and insertions returned by
    [calcular_distancia_edicion] are non-negative and their sum is the
    classical unit-cost Levenshtein distance of the two lists: the value
    of the textbook recursion, which is the cost of some edit script and
    a lower bound on the cost of every edit script. *)
Theorem distancia_edicion_suma_levenshtein {T : Type} `{!EqDecision T}
    (ref hyp : list T) :
  Z.of_nat (length ref) < int64_max →
  Z.of_nat (length hyp) < int64_max →
  ∃ s d k dp,
    calcular_distancia_edicion ref hyp = Some (s, d, k, dp) ∧
    0 ≤ s ∧ 0 ≤ d ∧ 0 ≤ k ∧
    s + d + k = Z.of_nat (levenshtein ref hyp) ∧
    guion ref hyp (Z.to_nat (s + d + k)) ∧
    (∀ c, guion ref hyp c → s + d + k ≤ Z.of_nat c).
Proof.
  intros Hn Hm.
  destruct (calcular_distancia_edicion_spec ref hyp Hn Hm)
    as (s & d & k & dp & Hc & _ & Hw).
  exists s, d, k, dp. split; [done|].
  pose proof (camino_spec_cuentas ref hyp _ _ _ _ _ Hw) as (? & ? & ? & Hs & _).
  rewrite tabla_spec_total in Hs. do 4 (split; [done|]).
  rewrite Hs, Nat2Z.id. split; [apply levenshtein_guion|].
  intros c Hg. apply inj_le. by apply levenshtein_minimo.
Qed.

Lemma distancia_edicion_suma_levenshtein_ejemplo :
  ∃ s d k dp,
    calcular_distancia_edicion [1; 2; 3; 4]%nat [1; 5; 4; 6; 7]%nat
      = Some (s, d, k, dp) ∧
    0 ≤ s ∧ 0 ≤ d ∧ 0 ≤ k ∧
    s + d + k = Z.of_nat (levenshtein [1; 2; 3; 4]%nat [1; 5; 4; 6; 7]%nat) ∧
    guion [1; 2; 3; 4]%nat [1; 5; 4; 6; 7]%nat (Z.to_nat (s + d + k)) ∧
    (∀ c, guion [1; 2; 3; 4]%nat [1; 5; 4; 6; 7]%nat c → s + d + k ≤ Z.of_nat c).
Proof.
  apply (distancia_edicion_suma_levenshtein [1; 2; 3; 4]%nat [1; 5; 4; 6; 7]%nat);
    reflexivity.
Defined.

(** *** C8: the decomposition follows the fixed priority order

    The counts returned by the program are those of the walk that the
    specification describes: from [(n, m)] down to [(0, 0)], over the table
    of the recurrence, taking at each cell a match when the tokens are
    equal, otherwise a substitution, else a deletion, else an insertion,
    each under its test on the table.  That walk is unique, and the table
    the program returns is the table of the recurrence. *)
Theorem retroceso_sigue_prioridad {T : Type} `{!EqDecision T}
    (ref hyp : list T) :
  Z.of_nat (length ref) < int64_max →
  Z.of_nat (length hyp) < int64_max →
  ∃ s d k dp,
    calcular_distancia_edicion ref hyp = Some (s, d, k, dp) ∧
    (∀ i j, (i ≤ length ref)%nat → (j ≤ length hyp)%nat →
            getitem dp i j = Some (tabla_spec ref hyp i j)) ∧
    camino_spec ref hyp (length ref) (length hyp) (s, d, k) ∧
    (∀ c, camino_spec ref hyp (length ref) (length hyp) c → c = (s, d, k)).
Proof.
  intros Hn Hm.
  destruct (calcular_distancia_edicion_spec ref hyp Hn Hm)
    as (s & d & k & dp & Hc & [_ Hl] & Hw).
  exists s, d, k, dp. repeat split; [done|by auto|done|].
  intros c Hc'. by apply (camino_spec_unico ref hyp _ _ _ _ Hc' Hw).
Qed.

Lemma retroceso_sigue_prioridad_ejemplo :
  ∃ s d k dp,
    calcular_distancia_edicion [1; 2]%nat [2; 1; 5]%nat = Some (s, d, k, dp) ∧
    (∀ i j, (i ≤ 2)%nat → (j ≤ 3)%nat →
            getitem dp i j = Some (tabla_spec [1; 2]%nat [2; 1; 5]%nat i j)) ∧
    camino_spec [1; 2]%nat [2; 1; 5]%nat 2 3 (s, d, k) ∧
    (∀ c, camino_spec [1; 2]%nat [2; 1; 5]%nat 2 3 c → c = (s, d, k)).
Proof.
  apply (retroceso_sigue_prioridad [1; 2]%nat [2; 1; 5]%nat); reflexivity.
Defined.

(** *** C9: the backtracking loop ends at [(0, 0)] and never breaks

    The [while] loop is left through its condition with [i = 0] and
    [j = 0] (not through [break], and within the [n + m] iterations that
    bound it), and at every cell of the table other than [(0, 0)] the body
    takes one of the four moves: the final [else: break] is unreachable. *)
Theorem retroceso_termina_sin_break {T : Type} `{!EqDecision T}
    (ref hyp : list T) :
  Z.of_nat (length ref) < int64_max →
  Z.of_nat (length hyp) < int64_max →
  ∃ st dp,
    calcular_distancia_edicion_traza ref hyp = Some (CondicionFalsa, st, dp) ∧
    e_i st = 0%nat ∧ e_j st = 0%nat ∧
    ∀ i j s d k,
      (i ≤ length ref)%nat → (j ≤ length hyp)%nat → (0 < i ∨ 0 < j)%nat →
      ∃ st', paso_retroceso ref hyp dp (Estado i j s d k) = Some (Some st') ∧
             (e_i st' + e_j st' < i + j)%nat.
Proof.
  intros Hn Hm.
  destruct (calcular_distancia_edicion_traza_spec ref hyp Hn Hm)
    as (s & d & k & dp & Hc & Hl & _).
  exists (Estado 0 0 s d k), dp. repeat split; [done|].
  intros. by apply (paso_retroceso_avanza ref hyp Hn Hm dp Hl).
Qed.

Lemma retroceso_termina_sin_break_ejemplo :
  ∃ st dp,
    calcular_distancia_edicion_traza [1; 2; 3]%nat [3; 1]%nat
      = Some (CondicionFalsa, st, dp) ∧
    e_i st = 0%nat ∧ e_j st = 0%nat ∧
    ∀ i j s d k,
      (i ≤ 3)%nat → (j ≤ 2)%nat → (0 < i ∨ 0 < j)%nat →
      ∃ st', paso_retroceso [1; 2; 3]%nat [3; 1]%nat dp (Estado i j s d k)
               = Some (Some st') ∧
             (e_i st' + e_j st' < i + j)%nat.
Proof.
  apply (retroceso_termina_sin_break [1; 2; 3]%nat [3; 1]%nat); reflexivity.
Defined.

(** *** C10: deletions minus insertions is the length difference

    For every pair of token lists, the counts returned by
    [calcular_distancia_edicion] satisfy [D - I = len(ref) - len(hyp)]. *)
Theorem eliminaciones_menos_inserciones {T : Type} `{!EqDecision T}
    (ref hyp : list T) :
  Z.of_nat (length ref) < int64_max →
  Z.of_nat (length hyp) < int64_max →
  ∃ s d k dp,
    calcular_distancia_edicion ref hyp = Some (s, d, k, dp) ∧
    d - k = Z.of_nat (length ref) - Z.of_nat (length hyp).
Proof.
  intros Hn Hm.
  destruct (calcular_distancia_edicion_spec ref hyp Hn Hm)
    as (s & d & k & dp & Hc & _ & Hw).
  exists s, d, k, dp. split; [done|].
  by pose proof (camino_spec_cuentas ref hyp _ _ _ _ _ Hw) as (_ & _ & _ & _ & ?).
Qed.

Lemma eliminaciones_menos_inserciones_ejemplo :
  ∃ s d k dp,
    calcular_distancia_edicion [1; 2; 3; 4]%nat [1; 2; 4]%nat
      = Some (s, d, k, dp) ∧
    d - k = Z.of_nat (length [1; 2; 3; 4]%nat) - Z.of_nat (length [1; 2; 4]%nat).
Proof.
  apply (eliminaciones_menos_inserciones [1; 2; 3; 4]%nat [1; 2; 4]%nat);
    reflexivity.
Defined.

(** ** The normaliser *)

Section Normalizador.
Variable U : tablas_unicode.
Implicit Types (l : list N) (c : N).

Lemma Forall_list_filter {A} (P : A → Prop) (f : A → bool) (xs : list A) :
  Forall P xs → Forall (λ x, P x ∧ f x = true) (List.filter f xs).
Proof.
  induction 1 as [|x xs Hx _ IH]; simpl; [constructor|].
  destruct (f x) eqn:Hf; [constructor|]; done.
Qed.

Lemma list_filter_id {A} (f : A → bool) (xs : list A) :
  Forall (λ x, f x = true) xs → List.filter f xs = xs.
Proof.
  induction 1 as [|x xs Hx _ IH]; simpl; [done|]. by rewrite Hx, IH.
Qed.

Lemma sub_no_palabra_id l :
  Forall (λ c, u_word U c = true ∨ u_space U c = true) l →
  sub_no_palabra U l = l.
Proof.
  unfold sub_no_palabra.
  induction 1 as [|c l Hc _ IH]; simpl; [done|]. rewrite IH.
  destruct Hc as [->| ->]; [done|]. by rewrite orb_true_r.
Qed.

Lemma espaciado_true b l : espaciado U true l → espaciado U b l.
Proof.
  destruct l as [|c l]; simpl; [done|].
  destruct (u_space U c); [|done]. by intros [? _].
Qed.

Lemma sub_espacios_fijo l : ∀ b, espaciado U b l → sub_espacios U b l = l.
Proof.
  induction l as [|c l IH]; intros b; simpl; [done|].
  destruct (u_space U c).
  - intros (-> & -> & H). by rewrite IH.
  - intros H. by rewrite IH.
Qed.

Lemma lstrip_espaciado l : ∀ b b', espaciado U b l → espaciado U b' (lstrip U l).
Proof.
  induction l as [|c l IH]; intros b b'; simpl; [done|].
  destruct (u_space U c) eqn:Hc.
  - intros (_ & _ & H). by apply (IH true).
  - intros H. simpl. by rewrite Hc.
Qed.

Lemma rstrip_espaciado l : ∀ b, espaciado U b l → espaciado U b (rstrip U l).
Proof.
  induction l as [|c l IH]; intros b; simpl; [done|].
  destruct (rstrip U l) as [|c' r] eqn:Hr.
  - destruct (u_space U c) eqn:Hc; [done|]. intros _. simpl. by rewrite Hc.
  - cbn [espaciado]. destruct (u_space U c).
    + intros (-> & -> & H). repeat split. by apply (IH true).
    + intros H. by apply (IH false).
Qed.

Lemma lstrip_Forall (P : N → Prop) l : Forall P l → Forall P (lstrip U l).
Proof.
  induction 1 as [|c l Hc Hl IH]; simpl; [constructor|].
  destruct (u_space U c); [done|]. by constructor.
Qed.

Lemma rstrip_Forall (P : N → Prop) l : Forall P l → Forall P (rstrip U l).
Proof.
  induction 1 as [|c l Hc Hl IH]; simpl; [constructor|].
  destruct (rstrip U l) as [|c' r].
  - destruct (u_space U c); by repeat constructor.
  - by constructor.
Qed.

Lemma lstrip_inicial l : sin_espacio_inicial U (lstrip U l).
Proof.
  induction l as [|c l IH]; simpl; [done|].
  destruct (u_space U c) eqn:Hc; [done|]. simpl. done.
Qed.

Lemma rstrip_inicial l : sin_espacio_inicial U l → sin_espacio_inicial U (rstrip U l).
Proof.
  destruct l as [|c l]; simpl; [done|]. intros Hc.
  destruct (rstrip U l); [by rewrite Hc|done].
Qed.

Lemma lstrip_fijo l : sin_espacio_inicial U l → lstrip U l = l.
Proof. destruct l as [|c l]; simpl; [done|]. by intros ->. Qed.

Lemma rstrip_idemp l : rstrip U (rstrip U l) = rstrip U l.
Proof.
  induction l as [|c l IH]; simpl; [done|].
  destruct (rstrip U l) as [|c' r] eqn:Hr.
  - destruct (u_space U c) eqn:Hc; simpl; [done|]. by rewrite Hc.
  - change (rstrip U (c :: c' :: r)) with
      (match rstrip U (c' :: r) with
       | [] => if u_space U c then [] else [c]
       | resto => c :: resto
       end).
    by rewrite IH.
Qed.

Lemma strip_idemp l : strip U (strip U l) = strip U l.
Proof.
  unfold strip.
  rewrite (lstrip_fijo (rstrip U (lstrip U l))).
  - apply rstrip_idemp.
  - apply rstrip_inicial, lstrip_inicial.
Qed.

Hypothesis Hok : tablas_ok U.

Lemma sub_espacios_limpio l : ∀ b,
  Forall (λ c, fijo U c ∧ u_Mn U c = false ∧
               (u_word U c = true ∨ u_space U c = true)) l →
  Forall (limpio U) (sub_espacios U b l) ∧ espaciado U b (sub_espacios U b l).
Proof.
  assert ((limpio U) SP) as HSP.
  { split; [apply Hok|]. split; [apply Hok|]. by right. }
  induction l as [|c l IH]; intros b Hl; simpl; [by split|].
  inversion Hl as [|? ? (Hf & HMn & Hws) Hl']; subst.
  destruct (u_space U c) eqn:Hc.
  - destruct (IH true Hl') as [H1 H2]. destruct b.
    + done.
    + split; [by constructor|]. simpl.
      by rewrite (espacio_es_espacio U Hok).
  - destruct (IH false Hl') as [H1 H2]. split.
    + constructor; [|done]. split; [done|]. split; [done|]. left.
      destruct Hws as [?|?]; [done|congruence].
    + simpl. by rewrite Hc.
Qed.

(** The result of the normaliser is made of fixed word characters and
    single spaces, none at either end. *)
Lemma normalizar_texto_forma x :
  Forall (limpio U) (normalizar_texto U x) ∧
  espaciado U false (normalizar_texto U x) ∧
  strip U (normalizar_texto U x) = normalizar_texto U x.
Proof.
  unfold normalizar_texto.
  pose proof (imagen_fija U Hok x) as H1.
  apply (Forall_list_filter _ (λ char, negb (u_Mn U char))) in H1.
  set (t2 := List.filter _ _) in *.
  assert (Forall (λ c, fijo U c ∧ u_Mn U c = false ∧
                       (u_word U c = true ∨ u_space U c = true))
                 (sub_no_palabra U t2)) as H3.
  { unfold sub_no_palabra. apply Forall_map.
    eapply Forall_impl; [exact H1|]. simpl. intros c [Hf HMn].
    destruct (u_word U c) eqn:Hw; simpl.
    { split; [done|]. split; [by destruct (u_Mn U c)|]. by left. }
    destruct (u_space U c) eqn:Hs; simpl.
    { split; [done|]. split; [by destruct (u_Mn U c)|]. by right. }
    split; [apply Hok|]. split; [apply Hok|]. right. apply Hok. }
  destruct (sub_espacios_limpio _ false H3) as [H4 H4'].
  split; [|split].
  - by apply rstrip_Forall, lstrip_Forall.
  - by apply rstrip_espaciado, (lstrip_espaciado _ false).
  - apply strip_idemp.
Qed.

End Normalizador.

(** *** C7: the normaliser is idempotent

    Over character tables with the properties [tablas_ok], normalising an
    already normalised text gives it back, for every text. *)
Theorem normalizar_texto_idempotente (U : tablas_unicode) (x : list N) :
  tablas_ok U →
  normalizar_texto U (normalizar_texto U x) = normalizar_texto U x.
Proof.
  intros Hok.
  destruct (normalizar_texto_forma U Hok x) as (Hl & He & Hs).
  set (r := normalizar_texto U x) in *.
  unfold normalizar_texto at 1.
  destruct (fijos_identidad U Hok r) as [-> ->].
  { eapply Forall_impl; [exact Hl|]. simpl. intros c (Hf & _ & [[? _]|?]); auto. }
  rewrite list_filter_id.
  2:{ eapply Forall_impl; [exact Hl|]. simpl. by intros c (_ & -> & _). }
  rewrite sub_no_palabra_id.
  2:{ eapply Forall_impl; [exact Hl|]. simpl. intros c (_ & _ & [[? _]| ->]); [by left|].
      right. apply Hok. }
  by rewrite sub_espacios_fijo.
Qed.

Lemma basic_latin_ok : tablas_ok basic_latin.
Proof.
  assert (∀ c, (if entre 65 90 (if entre 65 90 c then (c + 32)%N else c)
                then ((if entre 65 90 c then (c + 32)%N else c) + 32)%N
                else (if entre 65 90 c then (c + 32)%N else c))
               = (if entre 65 90 c then (c + 32)%N else c)) as Hlc.
  { intros c. unfold entre.
    destruct (65 <=? c)%N eqn:H1, (c <=? 90)%N eqn:H2; simpl;
      rewrite ?H1, ?H2; simpl; try done.
    apply N.leb_le in H1, H2.
    destruct (65 <=? c + 32)%N eqn:H3, (c + 32 <=? 90)%N eqn:H4; simpl; try done.
    apply N.leb_le in H4. lia. }
  split.
  - reflexivity.
  - reflexivity.
  - by split.
  - intros s. simpl. apply Forall_map, Forall_forall. intros c _.
    split; [|done]. cbn [u_lower basic_latin map]. by rewrite Hlc.
  - intros r Hr. simpl. split; [|done].
    induction Hr as [|c r [[Hc _] _] _ IH]; simpl; [done|].
    simpl in Hc. rewrite IH. congruence.
Qed.

Lemma normalizar_texto_idempotente_ejemplo :
  normalizar_texto basic_latin
    (normalizar_texto basic_latin (literal "  Hola,   Mundo!! que_tal 12  "))
  = normalizar_texto basic_latin (literal "  Hola,   Mundo!! que_tal 12  ").
Proof.
  apply (normalizar_texto_idempotente basic_latin
           (literal "  Hola,   Mundo!! que_tal 12  ") basic_latin_ok).
Defined.

(** ** Powers of two *)

Lemma dos_pos z : (0 < 2 ^ z)%Q.
Proof. by apply Qpower_0_lt. Qed.

Lemma dos_mas a b : (2 ^ (a + b) == 2 ^ a * 2 ^ b)%Q.
Proof. by apply Qpower_plus. Qed.

Lemma dos_menos a b : (2 ^ (a - b) == 2 ^ a / 2 ^ b)%Q.
Proof. by apply Qpower_minus. Qed.

Lemma dos_Z n : 0 ≤ n → (inject_Z (2 ^ n) == 2 ^ n)%Q.
Proof. intros Hn. by rewrite Zpower_Qpower. Qed.

Lemma dos_le a b : a ≤ b → (2 ^ a <= 2 ^ b)%Q.
Proof. intros H. by apply Qpower_le_compat_l. Qed.

Lemma dos_lt a b : a < b → (2 ^ a < 2 ^ b)%Q.
Proof. intros H. by apply Qpower_lt_compat_l. Qed.

Lemma dos_lt_inv a b : (2 ^ a < 2 ^ b)%Q → a < b.
Proof. intros H. by apply (Qpower_lt_compat_l_inv 2). Qed.

Lemma inject_Z_pos k : 0 < k → (0 < inject_Z k)%Q.
Proof. intros H. change 0%Q with (inject_Z 0). by rewrite <- Zlt_Qlt. Qed.

(** [x / 2 ^ p] against an integer multiple. *)
Lemma entre_dos_le x y p : (x <= y)%Q → (x / 2 ^ p <= y / 2 ^ p)%Q.
Proof.
  intros H. apply Qmult_le_compat_r; [done|].
  apply Qinv_le_0_compat, Qlt_le_weak, dos_pos.
Qed.

Lemma multiplo_dos (M j p : Z) :
  p ≤ j → (inject_Z M * 2 ^ j / 2 ^ p == inject_Z (M * 2 ^ (j - p)))%Q.
Proof.
  intros H. rewrite inject_Z_mult, dos_Z by lia. rewrite dos_menos.
  field. apply Qnot_eq_sym, Qlt_not_eq, dos_pos.
Qed.

(** ** Rounding to the nearest integer *)

Lemma redondeo_par_cerca x :
  (inject_Z (redondeo_par x) - (1 # 2) <= x
   ∧ x <= inject_Z (redondeo_par x) + (1 # 2))%Q.
Proof.
  unfold redondeo_par.
  pose proof (Qfloor_le x) as H1. pose proof (Qlt_floor x) as H2.
  rewrite inject_Z_plus in H2. change (inject_Z 1) with 1%Q in H2.
  destruct (Qcompare_spec (x - inject_Z (Qfloor x)) (1 # 2)) as [H|H|H].
  - destruct (Z.even (Qfloor x)); rewrite ?inject_Z_plus;
      change (inject_Z 1) with 1%Q; split; lra.
  - split; lra.
  - rewrite inject_Z_plus. change (inject_Z 1) with 1%Q. split; lra.
Qed.

Lemma redondeo_par_comp x y : (x == y)%Q → redondeo_par x = redondeo_par y.
Proof.
  intros H. unfold redondeo_par. rewrite (Qfloor_comp _ _ H).
  assert ((x - inject_Z (Qfloor y) ?= 1 # 2) =
          (y - inject_Z (Qfloor y) ?= 1 # 2))%Q as ->; [|done].
  apply Qcompare_comp; [|done]. by rewrite H.
Qed.

Lemma redondeo_par_Z k : redondeo_par (inject_Z k) = k.
Proof.
  unfold redondeo_par. rewrite Qfloor_Z.
  destruct (Qcompare_spec (inject_Z k - inject_Z k) (1 # 2)) as [H|H|H];
    [lra|done|lra].
Qed.

Lemma redondeo_par_mono x y : (x <= y)%Q → redondeo_par x ≤ redondeo_par y.
Proof.
  intros H. pose proof (Qfloor_resp_le _ _ H) as Hf.
  unfold redondeo_par.
  pose proof (Qfloor_le x) as Hx1. pose proof (Qlt_floor x) as Hx2.
  pose proof (Qfloor_le y) as Hy1. pose proof (Qlt_floor y) as Hy2.
  rewrite inject_Z_plus in Hx2, Hy2. change (inject_Z 1) with 1%Q in Hx2, Hy2.
  destruct (decide (Qfloor x = Qfloor y)) as [Heq|Hne].
  - rewrite Heq in *.
    destruct (Qcompare_spec (x - inject_Z (Qfloor y)) (1 # 2)) as [Hc|Hc|Hc];
    destruct (Qcompare_spec (y - inject_Z (Qfloor y)) (1 # 2)) as [Hd|Hd|Hd];
      try destruct (Z.even (Qfloor y)); try lia; lra.
  - assert (Qfloor x + 1 ≤ Qfloor y) by lia.
    destruct (Qcompare_spec (x - inject_Z (Qfloor x)) (1 # 2)) as [Hc|Hc|Hc];
    destruct (Qcompare_spec (y - inject_Z (Qfloor y)) (1 # 2)) as [Hd|Hd|Hd];
      try destruct (Z.even (Qfloor x)); try destruct (Z.even (Qfloor y)); lia.
Qed.

(** ** The binary exponent *)

Lemma exponente_spec x :
  (0 < x)%Q → (2 ^ exponente x <= x ∧ x < 2 ^ (exponente x + 1))%Q.
Proof.
  intros Hx. destruct x as [a b]. unfold exponente. cbn [Qnum Qden].
  assert (0 < a) as Ha by (unfold Qlt in Hx; simpl in Hx; lia).
  pose proof (Z.log2_spec a Ha) as [Ha1 Ha2].
  pose proof (Z.log2_spec (Z.pos b) (Pos2Z.is_pos b)) as [Hb1 Hb2].
  pose proof (Z.log2_nonneg a) as Hla. pose proof (Z.log2_nonneg (Z.pos b)) as Hlb.
  set (la := Z.log2 a) in *. set (lb := Z.log2 (Z.pos b)) in *.
  assert (a # b == inject_Z a / inject_Z (Z.pos b))%Q as Hab
    by apply Qmake_Qdiv.
  assert (0 < inject_Z (Z.pos b))%Q as Hbq by (apply inject_Z_pos; lia).
  destruct (Qle_bool (2 ^ (la - lb)) (a # b)) eqn:Hle.
  - apply Qle_bool_iff in Hle. split; [done|].
    replace (la - lb + 1) with ((la + 1) - lb) by lia.
    rewrite dos_menos, <- !dos_Z, Hab by lia.
    apply Qlt_shift_div_l; [apply inject_Z_pos; lia|].
    unfold Qdiv. rewrite <- Qmult_assoc, (Qmult_comm (/ _)), Qmult_assoc.
    apply Qlt_shift_div_r; [done|].
    rewrite <- !inject_Z_mult, <- Zlt_Qlt. nia.
  - assert (a # b < 2 ^ (la - lb))%Q as Hlt.
    { apply Qnot_le_lt. intros H. apply Qle_bool_iff in H. congruence. }
    replace (la - lb - 1 + 1) with (la - lb) by lia. split; [|done].
    replace (la - lb - 1) with (la - (lb + 1)) by lia.
    rewrite dos_menos, <- !dos_Z, Hab by lia.
    apply Qle_shift_div_r; [apply inject_Z_pos; lia|].
    unfold Qdiv. rewrite <- Qmult_assoc, (Qmult_comm (/ _)), Qmult_assoc.
    apply Qle_shift_div_l; [done|].
    rewrite <- !inject_Z_mult, <- Zle_Qle. nia.
Qed.

Lemma exponente_unico x e :
  (2 ^ e <= x)%Q → (x < 2 ^ (e + 1))%Q → exponente x = e.
Proof.
  intros H1 H2.
  assert (0 < x)%Q as Hx by (pose proof (dos_pos e); lra).
  destruct (exponente_spec x Hx) as [H3 H4].
  assert (e < exponente x + 1) by (apply dos_lt_inv; lra).
  assert (exponente x < e + 1) by (apply dos_lt_inv; lra).
  lia.
Qed.

Lemma exponente_mono x y :
  (0 < x)%Q → (x <= y)%Q → exponente x ≤ exponente y.
Proof.
  intros Hx Hxy.
  destruct (exponente_spec x Hx) as [H1 H2].
  destruct (exponente_spec y) as [H3 H4]; [lra|].
  assert (exponente x < exponente y + 1) by (apply dos_lt_inv; lra).
  lia.
Qed.

Lemma exponente_cota_inf x j : (2 ^ j <= x)%Q → j ≤ exponente x.
Proof.
  intros H. assert (0 < x)%Q as Hx by (pose proof (dos_pos j); lra).
  destruct (exponente_spec x Hx) as [H1 H2].
  assert (j < exponente x + 1) by (apply dos_lt_inv; lra). lia.
Qed.

Lemma exponente_cota_sup x j : (0 < x)%Q → (x < 2 ^ j)%Q → exponente x < j.
Proof.
  intros Hx H. destruct (exponente_spec x Hx) as [H1 H2].
  apply dos_lt_inv; lra.
Qed.

(** ** Rounding to a double *)

Lemma multiplo_dos_inv (M j p : Z) :
  p ≤ j → (inject_Z (M * 2 ^ (j - p)) * 2 ^ p == inject_Z M * 2 ^ j)%Q.
Proof.
  intros H. rewrite <- multiplo_dos by done.
  field. apply Qnot_eq_sym, Qlt_not_eq, dos_pos.
Qed.

Lemma cuanto_positivo x e :
  (2 ^ e <= x)%Q → (x < 2 ^ (e + 1))%Q → cuanto x = Z.max (e - 52) (-1074).
Proof.
  intros H1 H2. unfold cuanto.
  assert (0 < x)%Q as Hx by (pose proof (dos_pos e); lra).
  rewrite (exponente_unico (Qabs x) e); [done|rewrite Qabs_pos; lra..].
Qed.

Lemma valor_redondeado_signo x :
  ((0 <= x → 0 <= valor_redondeado x) ∧ (x <= 0 → valor_redondeado x <= 0))%Q.
Proof.
  unfold valor_redondeado. set (p := cuanto x).
  pose proof (dos_pos p) as Hp.
  split; intros Hx.
  - apply Qmult_le_0_compat; [|lra].
    change 0%Q with (inject_Z 0). rewrite <- Zle_Qle.
    rewrite <- (redondeo_par_Z 0). apply redondeo_par_mono.
    apply Qle_shift_div_l; [done|]. change (inject_Z 0) with 0%Q. lra.
  - assert (inject_Z (redondeo_par (x / 2 ^ p)) <= 0)%Q as H.
    { change 0%Q with (inject_Z 0). rewrite <- Zle_Qle.
      rewrite <- (redondeo_par_Z 0). apply redondeo_par_mono.
      apply Qle_shift_div_r; [done|]. change (inject_Z 0) with 0%Q. lra. }
    nra.
Qed.

Lemma valor_redondeado_cota_sup x M j :
  (0 < x)%Q → (x <= inject_Z M * 2 ^ j)%Q → M < 2 ^ 53 → -1074 ≤ j →
  (valor_redondeado x <= inject_Z M * 2 ^ j)%Q.
Proof.
  intros Hx HxM HM Hj.
  destruct (exponente_spec x Hx) as [H1 H2].
  unfold valor_redondeado. rewrite (cuanto_positivo x _ H1 H2).
  set (e := exponente x) in *. set (p := Z.max (e - 52) (-1074)).
  pose proof (dos_pos j) as Hpj. pose proof (dos_pos p) as Hpp.
  assert (e < 53 + j) as He.
  { apply exponente_cota_sup; [done|]. rewrite dos_mas, <- (dos_Z 53) by lia.
    apply Qle_lt_trans with (1 := HxM). apply Qmult_lt_compat_r; [done|].
    by rewrite <- Zlt_Qlt. }
  assert (p ≤ j) as Hpj' by lia.
  rewrite <- (multiplo_dos_inv M j p Hpj').
  apply Qmult_le_compat_r; [|lra]. rewrite <- Zle_Qle.
  rewrite <- (redondeo_par_Z (M * 2 ^ (j - p))). apply redondeo_par_mono.
  rewrite <- multiplo_dos by done. by apply entre_dos_le.
Qed.

Lemma valor_redondeado_cota_inf x M j :
  (inject_Z M * 2 ^ j <= x)%Q → 0 < M < 2 ^ 53 → -1074 ≤ j →
  (inject_Z M * 2 ^ j <= valor_redondeado x)%Q.
Proof.
  intros HxM HM Hj.
  pose proof (dos_pos j) as Hpj.
  assert (0 < inject_Z M)%Q as HMq by (apply inject_Z_pos; lia).
  assert (0 < x)%Q as Hx by nra.
  destruct (exponente_spec x Hx) as [H1 H2].
  unfold valor_redondeado. rewrite (cuanto_positivo x _ H1 H2).
  set (e := exponente x) in *. set (p := Z.max (e - 52) (-1074)).
  pose proof (dos_pos p) as Hpp.
  destruct (Z.le_gt_cases p j) as [Hle|Hgt].
  - rewrite <- (multiplo_dos_inv M j p Hle).
    apply Qmult_le_compat_r; [|lra]. rewrite <- Zle_Qle.
    rewrite <- (redondeo_par_Z (M * 2 ^ (j - p))) at 1.
    apply redondeo_par_mono.
    rewrite <- multiplo_dos by done. by apply entre_dos_le.
  - assert (p = e - 52) as Hp by lia.
    apply Qle_trans with (2 ^ e)%Q.
    + apply Qle_trans with (2 ^ (53 + j))%Q; [|apply dos_le; lia].
      rewrite dos_mas, <- (dos_Z 53) by lia.
      apply Qmult_le_compat_r; [|lra]. rewrite <- Zle_Qle. lia.
    + assert (2 ^ e == inject_Z (1 * 2 ^ (e - p)) * 2 ^ p)%Q as ->.
      { rewrite multiplo_dos_inv by lia. change (inject_Z 1) with 1%Q. ring. }
      apply Qmult_le_compat_r; [|lra]. rewrite <- Zle_Qle.
      rewrite <- (redondeo_par_Z (1 * 2 ^ (e - p))) at 1.
      apply redondeo_par_mono.
      rewrite <- multiplo_dos by lia. apply entre_dos_le.
      change (inject_Z 1) with 1%Q. lra.
Qed.

Lemma valor_redondeado_error x :
  (Qabs (valor_redondeado x - x) <= 2 ^ (cuanto x - 1))%Q.
Proof.
  unfold valor_redondeado. set (p := cuanto x).
  pose proof (dos_pos p) as Hp.
  pose proof (redondeo_par_cerca (x / 2 ^ p)) as [H1 H2].
  set (m := inject_Z (redondeo_par (x / 2 ^ p))) in *.
  assert (x == x / 2 ^ p * 2 ^ p)%Q as Hx by (field; lra).
  set (y := (x / 2 ^ p)%Q) in *.
  assert (2 ^ (p - 1) == 2 ^ p * (1 # 2))%Q as ->.
  { replace (p - 1) with (p + -1) by lia. by rewrite dos_mas. }
  apply Qabs_Qle_condition. rewrite Hx. split; nra.
Qed.

Lemma empaquetar_finito v :
  (- 2 ^ 1024 < v)%Q → (v < 2 ^ 1024)%Q → empaquetar v = Finito (Q2Qc v).
Proof.
  intros H1 H2. unfold empaquetar.
  destruct (Qle_bool (2 ^ 1024) v) eqn:Ha.
  { apply Qle_bool_iff in Ha. lra. }
  destruct (Qle_bool v (- 2 ^ 1024)) eqn:Hb; [|done].
  apply Qle_bool_iff in Hb. lra.
Qed.

Lemma empaquetar_no_negativo v :
  (0 <= v)%Q →
  empaquetar v = MasInf ∨ (empaquetar v = Finito (Q2Qc v) ∧ (v < 2 ^ 1024)%Q).
Proof.
  intros Hv. unfold empaquetar.
  destruct (Qle_bool (2 ^ 1024) v) eqn:Ha; [by left|right].
  assert (v < 2 ^ 1024)%Q as Hlt.
  { apply Qnot_le_lt. intros H. apply Qle_bool_iff in H. congruence. }
  destruct (Qle_bool v (- 2 ^ 1024)) eqn:Hb; [|done].
  apply Qle_bool_iff in Hb. pose proof (dos_pos 1024). lra.
Qed.

Lemma empaquetar_no_positivo v :
  (v <= 0)%Q →
  empaquetar v = MenosInf ∨ empaquetar v = Finito (Q2Qc v).
Proof.
  intros Hv. unfold empaquetar.
  destruct (Qle_bool (2 ^ 1024) v) eqn:Ha.
  { apply Qle_bool_iff in Ha. pose proof (dos_pos 1024). lra. }
  destruct (Qle_bool v (- 2 ^ 1024)); [by left|by right].
Qed.

Lemma this_Q2Qc v : (this (Q2Qc v) == v)%Q.
Proof. apply Qred_correct. Qed.

Lemma Qc_no_negativo v : (0 <= v)%Q → (0 ≤ Q2Qc v)%Qc.
Proof. intros H. unfold Qcle. cbn [this Q2Qc]. by rewrite !Qred_correct. Qed.

Lemma valor_redondeado_cero x : (x == 0)%Q → (valor_redondeado x == 0)%Q.
Proof.
  intros Hx. destruct (valor_redondeado_signo x) as [H1 H2].
  apply Qle_antisym; [apply H2|apply H1]; lra.
Qed.

(** A non-negative rational rounds to a non-negative double or overflows. *)
Lemma redondear_no_negativo x :
  (0 <= x)%Q →
  redondear x = MasInf ∨ ∃ q, redondear x = Finito q ∧ (0 ≤ q)%Qc.
Proof.
  intros Hx. unfold redondear.
  pose proof (proj1 (valor_redondeado_signo x) Hx) as Hv.
  destruct (empaquetar_no_negativo _ Hv) as [->|[-> _]]; [by left|right].
  eexists; split; [done|]. by apply Qc_no_negativo.
Qed.

Lemma redondear_no_positivo x :
  (x <= 0)%Q →
  redondear x = MenosInf ∨ ∃ q, redondear x = Finito q ∧ (q ≤ 0)%Qc.
Proof.
  intros Hx. unfold redondear.
  pose proof (proj2 (valor_redondeado_signo x) Hx) as Hv.
  destruct (empaquetar_no_positivo _ Hv) as [->| ->]; [by left|right].
  eexists; split; [done|]. unfold Qcle. cbn [this Q2Qc].
  rewrite !Qred_correct. exact Hv.
Qed.

(** Rounding does not cross a double. *)
Lemma redondear_acotado_dos x M j :
  (0 <= x)%Q → (x <= inject_Z M * 2 ^ j)%Q → M < 2 ^ 53 → -1074 ≤ j ≤ 971 →
  ∃ q, redondear x = Finito q ∧ (0 ≤ q)%Qc ∧ (q <= inject_Z M * 2 ^ j)%Q.
Proof.
  intros Hx HM HM53 Hj.
  pose proof (proj1 (valor_redondeado_signo x) Hx) as Hv.
  pose proof (dos_pos j) as Hpj.
  assert (valor_redondeado x <= inject_Z M * 2 ^ j)%Q as Hvk.
  { destruct (Qlt_le_dec 0 x) as [Hpos|Hle].
    - apply valor_redondeado_cota_sup; (done || lia).
    - rewrite valor_redondeado_cero; lra. }
  assert (inject_Z M * 2 ^ j < 2 ^ 1024)%Q as Hk1024.
  { apply Qlt_le_trans with (2 ^ 53 * 2 ^ j)%Q.
    - apply Qmult_lt_compat_r; [done|]. rewrite <- dos_Z by lia.
      by rewrite <- Zlt_Qlt.
    - rewrite <- dos_mas. apply dos_le. lia. }
  unfold redondear. rewrite empaquetar_finito.
  - eexists; split; [done|]. split; [by apply Qc_no_negativo|].
    by rewrite this_Q2Qc.
  - pose proof (dos_pos 1024). lra.
  - lra.
Qed.

(** Here an integer below [2 ^ 53]. *)
Lemma redondear_acotado x k :
  (0 <= x)%Q → (x <= inject_Z k)%Q → k < 2 ^ 53 →
  ∃ q, redondear x = Finito q ∧ (0 ≤ q)%Qc ∧ (q ≤ Qc_of_Z k)%Qc.
Proof.
  intros Hx Hk Hk53.
  pose proof (proj1 (valor_redondeado_signo x) Hx) as Hv.
  assert (valor_redondeado x <= inject_Z k)%Q as Hvk.
  { destruct (Qlt_le_dec 0 x) as [Hpos|Hle].
    - rewrite <- (Qmult_1_r (inject_Z k)). change 1%Q with (2 ^ 0)%Q.
      apply valor_redondeado_cota_sup; [done| |done|lia].
      change (2 ^ 0)%Q with 1%Q. lra.
    - rewrite valor_redondeado_cero; lra. }
  assert (inject_Z k < 2 ^ 1024)%Q as Hk1024.
  { rewrite <- dos_Z by lia. rewrite <- Zlt_Qlt.
    apply Z.lt_trans with (1 := Hk53). by apply Z.pow_lt_mono_r. }
  unfold redondear. rewrite empaquetar_finito.
  - eexists; split; [done|]. split; [by apply Qc_no_negativo|].
    unfold Qcle. cbn [this Q2Qc Qc_of_Z]. by rewrite !Qred_correct.
  - pose proof (dos_pos 1024). lra.
  - lra.
Qed.

Lemma redondear_desde x j :
  (2 ^ j <= x)%Q → -1074 ≤ j →
  redondear x = MasInf ∨ ∃ q, redondear x = Finito q ∧ (2 ^ j <= q)%Q.
Proof.
  intros Hx Hj. pose proof (dos_pos j) as Hpj.
  assert (2 ^ j <= valor_redondeado x)%Q as Hv.
  { rewrite <- (Qmult_1_l (2 ^ j)). change 1%Q with (inject_Z 1).
    apply valor_redondeado_cota_inf; [|done|done].
    change (inject_Z 1) with 1%Q. lra. }
  unfold redondear.
  destruct (empaquetar_no_negativo (valor_redondeado x)) as [->|[-> _]];
    [lra|by left|right].
  eexists; split; [done|]. by rewrite this_Q2Qc.
Qed.

(** Integers below [2 ^ 53] are doubles. *)
Lemma redondear_exacto x k :
  (x == inject_Z k)%Q → 0 ≤ k < 2 ^ 53 → redondear x = Finito (Qc_of_Z k).
Proof.
  intros Hx Hk.
  assert (valor_redondeado x == inject_Z k)%Q as Hv.
  { destruct (decide (k = 0)) as [->|Hk0].
    - by apply valor_redondeado_cero.
    - apply Qle_antisym.
      + rewrite <- (Qmult_1_r (inject_Z k)). change 1%Q with (2 ^ 0)%Q.
        apply valor_redondeado_cota_sup; [|rewrite Hx|lia|lia].
        * rewrite Hx. apply inject_Z_pos. lia.
        * change (2 ^ 0)%Q with 1%Q. lra.
      + rewrite <- (Qmult_1_r (inject_Z k)) at 1. change 1%Q with (2 ^ 0)%Q.
        apply valor_redondeado_cota_inf; [|lia|lia].
        rewrite Hx. change (2 ^ 0)%Q with 1%Q. lra. }
  assert (inject_Z k < 2 ^ 1024)%Q as Hk1024.
  { rewrite <- dos_Z by lia. rewrite <- Zlt_Qlt.
    apply Z.lt_trans with (2 ^ 53); [lia|]. by apply Z.pow_lt_mono_r. }
  assert (0 <= inject_Z k)%Q by (change 0%Q with (inject_Z 0); rewrite <- Zle_Qle; lia).
  unfold redondear. rewrite empaquetar_finito.
  - f_equal. apply Qc_is_canon. by rewrite this_Q2Qc.
  - pose proof (dos_pos 1024). lra.
  - lra.
Qed.

Lemma redondear_entero k :
  0 ≤ k < 2 ^ 53 → redondear (inject_Z k) = Finito (Qc_of_Z k).
Proof. by apply redondear_exacto. Qed.

(** The spacing of the doubles below [2 ^ (j + 1)]. *)
Lemma cuanto_cota x j :
  (Qabs x < 2 ^ (j + 1))%Q → ¬ (x == 0)%Q → -1022 ≤ j → cuanto x ≤ j - 52.
Proof.
  intros Hx Hx0 Hj. unfold cuanto.
  assert (0 < Qabs x)%Q as Hpos.
  { pose proof (Qabs_nonneg x). apply Qle_lteq in H as [H|H]; [done|].
    exfalso. apply Hx0. revert H. apply Qabs_case; intros ? H; lra. }
  pose proof (exponente_cota_sup _ _ Hpos Hx). lia.
Qed.

(** A finite result is within half a spacing of the exact value. *)
Lemma redondear_error x q j :
  redondear x = Finito q → (Qabs x < 2 ^ (j + 1))%Q → -1022 ≤ j →
  (Qabs (q - x) <= 2 ^ (j - 53))%Q.
Proof.
  intros Hq Hx Hj.
  assert (q == valor_redondeado x)%Q as ->.
  { unfold redondear, empaquetar in Hq.
    destruct (Qle_bool _ _); [done|]. destruct (Qle_bool _ _); [done|].
    injection Hq as <-. apply this_Q2Qc. }
  destruct (Qeq_dec x 0) as [H0|H0].
  - rewrite valor_redondeado_cero, H0 by done.
    pose proof (dos_pos (j - 53)). apply Qabs_Qle_condition. lra.
  - apply Qle_trans with (1 := valor_redondeado_error x).
    apply dos_le. pose proof (cuanto_cota x j Hx H0 Hj). lia.
Qed.

(** In the normal range the error is at most [2 ^ -53] of the value. *)
Lemma redondear_error_relativo x q :
  redondear x = Finito q → (2 ^ (-1022) <= x)%Q →
  (Qabs (q - x) <= x * 2 ^ (-53))%Q.
Proof.
  intros Hq Hx.
  assert (0 < x)%Q as Hpos by (pose proof (dos_pos (-1022)); lra).
  destruct (exponente_spec x Hpos) as [H1 H2].
  pose proof (exponente_cota_inf x _ Hx) as He.
  apply Qle_trans with (2 ^ (exponente x - 53))%Q.
  - apply (redondear_error x q (exponente x) Hq); [|done].
    by rewrite Qabs_pos by lra.
  - replace (exponente x - 53) with (exponente x + -53) by lia.
    rewrite dos_mas. apply Qmult_le_compat_r; [done|].
    apply Qlt_le_weak, dos_pos.
Qed.

(** The result depends on the value only, not on the fraction that
    denotes it. *)
Lemma empaquetar_comp v v' : (v == v')%Q → empaquetar v = empaquetar v'.
Proof.
  intros H. unfold empaquetar.
  assert (Q2Qc v = Q2Qc v') as -> by by apply Q2Qc_eq_iff.
  assert (Qle_bool (2 ^ 1024) v = Qle_bool (2 ^ 1024) v') as ->
    by (apply Qleb_comp; [reflexivity|done]).
  assert (Qle_bool v (- 2 ^ 1024) = Qle_bool v' (- 2 ^ 1024)) as ->
    by (apply Qleb_comp; [done|reflexivity]).
  done.
Qed.

Lemma redondear_comp x y : (x == y)%Q → redondear x = redondear y.
Proof.
  intros Hxy. unfold redondear. apply empaquetar_comp.
  destruct (Qeq_dec x 0) as [H0|H0].
  { rewrite (valor_redondeado_cero x H0), (valor_redondeado_cero y); [done|].
    by rewrite <- Hxy. }
  assert (0 < Qabs x)%Q as Hpos.
  { pose proof (Qabs_nonneg x). apply Qle_lteq in H as [H|H]; [done|].
    exfalso. apply H0. revert H. apply Qabs_case; intros ? H; lra. }
  destruct (exponente_spec _ Hpos) as [H1 H2].
  assert (cuanto y = cuanto x) as Hc.
  { unfold cuanto. f_equal. f_equal.
    apply exponente_unico; by rewrite <- Hxy. }
  unfold valor_redondeado. rewrite Hc. generalize (cuanto x). intros p.
  rewrite (redondeo_par_comp (x / 2 ^ p) (y / 2 ^ p)); [done|].
  by rewrite Hxy.
Qed.

(** ** The rounded value is the nearest double *)

Lemma redondeo_par_cercano y k :
  (Qabs (inject_Z (redondeo_par y) - y) <= Qabs (inject_Z k - y))%Q.
Proof.
  destruct (redondeo_par_cerca y) as [H1 H2].
  destruct (decide (k = redondeo_par y)) as [->|Hne]; [apply Qle_refl|].
  apply Qle_trans with (1 # 2)%Q.
  - apply Qabs_Qle_condition. split; lra.
  - assert (inject_Z k <= inject_Z (redondeo_par y) - 1
            ∨ inject_Z (redondeo_par y) + 1 <= inject_Z k)%Q as [H|H].
    { destruct (Z.lt_ge_cases k (redondeo_par y)); [left|right].
      - assert (k ≤ redondeo_par y + -1) as Hk by lia.
        rewrite Zle_Qle, inject_Z_plus in Hk.
        change (inject_Z (-1)) with (-1)%Q in Hk. lra.
      - assert (redondeo_par y + 1 ≤ k) as Hk by lia.
        rewrite Zle_Qle, inject_Z_plus in Hk.
        change (inject_Z 1) with 1%Q in Hk. lra. }
    + rewrite Qabs_neg by lra. lra.
    + rewrite Qabs_pos by lra. lra.
Qed.

Lemma redondeo_par_empate y :
  (y - inject_Z (Qfloor y) == 1 # 2)%Q → Z.even (redondeo_par y) = true.
Proof.
  intros H. unfold redondeo_par.
  destruct (Qcompare_spec (y - inject_Z (Qfloor y)) (1 # 2)) as [_|H'|H'];
    [|lra..].
  destruct (Z.even (Qfloor y)) eqn:He; [done|].
  rewrite Z.even_add, He. done.
Qed.

(** No multiple of the spacing is nearer. *)
Lemma valor_redondeado_rejilla x k :
  (Qabs (valor_redondeado x - x)
   <= Qabs (inject_Z k * 2 ^ cuanto x - x))%Q.
Proof.
  unfold valor_redondeado. set (p := cuanto x).
  pose proof (dos_pos p) as Hp.
  pose proof (redondeo_par_cercano (x / 2 ^ p) k) as H.
  assert (x == x / 2 ^ p * 2 ^ p)%Q as Hx by (field; lra).
  set (y := (x / 2 ^ p)%Q) in *. rewrite Hx.
  assert (∀ a, inject_Z a * 2 ^ p - y * 2 ^ p == (inject_Z a - y) * 2 ^ p)%Q
    as Hd by (intros; ring).
  rewrite !Hd, !Qabs_Qmult, (Qabs_pos (2 ^ p)) by lra.
  apply Qmult_le_compat_r; [done|lra].
Qed.

Lemma exponente_abs x :
  ¬ (x == 0)%Q →
  (2 ^ exponente (Qabs x) <= Qabs x ∧ Qabs x < 2 ^ (exponente (Qabs x) + 1))%Q.
Proof.
  intros H0. apply exponente_spec.
  pose proof (Qabs_nonneg x). apply Qle_lteq in H as [H|H]; [done|].
  exfalso. apply H0. revert H. apply Qabs_case; intros ? H; lra.
Qed.

(** [valor_redondeado x] is a double nearest to [x]. *)
Lemma valor_redondeado_cercano x d :
  es_double d → (Qabs (valor_redondeado x - x) <= Qabs (d - x))%Q.
Proof.
  intros (M & j & Hd0 & HM & Hj). rewrite Hd0. clear d Hd0.
  destruct (Qeq_dec x 0) as [H0|H0].
  { rewrite valor_redondeado_cero by done. rewrite H0.
    setoid_replace (0 - 0)%Q with 0%Q using relation Qeq by ring. apply Qabs_nonneg. }
  destruct (exponente_abs x H0) as [He1 He2].
  set (e := exponente (Qabs x)) in *.
  assert (cuanto x = Z.max (e - 52) (-1074)) as Hc by done.
  destruct (Z.le_gt_cases (cuanto x) j) as [Hle|Hgt].
  - rewrite <- (multiplo_dos_inv M j (cuanto x) Hle).
    apply valor_redondeado_rejilla.
  - assert (cuanto x = e - 52) as Hc' by lia.
    pose proof (dos_pos j) as Hpj.
    assert (Qabs (inject_Z M * 2 ^ j) < 2 ^ e)%Q as Hd.
    { rewrite Qabs_Qmult, (Qabs_pos (2 ^ j)) by lra.
      apply Qlt_le_trans with (2 ^ 53 * 2 ^ j)%Q.
      - apply Qmult_lt_compat_r; [done|].
        rewrite <- (dos_Z 53) by lia.
        assert (Qabs (inject_Z M) == inject_Z (Z.abs M))%Q as -> by done.
        by rewrite <- Zlt_Qlt.
      - rewrite <- dos_mas. apply dos_le. lia. }
    apply Qabs_Qlt_condition in Hd.
    set (d := (inject_Z M * 2 ^ j)%Q) in *.
    destruct (Qlt_le_dec 0 x) as [Hpos|Hneg].
    + rewrite Qabs_pos in He1, He2 by lra.
      apply Qle_trans with (Qabs (inject_Z (2 ^ 52) * 2 ^ cuanto x - x))%Q;
        [apply valor_redondeado_rejilla|].
      rewrite dos_Z, <- dos_mas, Hc' by lia.
      replace (52 + (e - 52)) with e by lia.
      rewrite (Qabs_neg (2 ^ e - x)), (Qabs_neg (d - x)) by lra. lra.
    + rewrite Qabs_neg in He1, He2 by lra.
      apply Qle_trans with (Qabs (inject_Z (- 2 ^ 52) * 2 ^ cuanto x - x))%Q;
        [apply valor_redondeado_rejilla|].
      rewrite inject_Z_opp, dos_Z by lia.
      setoid_replace (- 2 ^ 52 * 2 ^ cuanto x)%Q
        with (- (2 ^ 52 * 2 ^ cuanto x))%Q using relation Qeq by ring.
      rewrite <- dos_mas, Hc'.
      replace (52 + (e - 52)) with e by lia.
      rewrite (Qabs_pos (- 2 ^ e - x)), (Qabs_pos (d - x)) by lra. lra.
Qed.

(** [valor_redondeado x] is a double. *)
Lemma valor_redondeado_es_double x : es_double (valor_redondeado x).
Proof.
  destruct (Qeq_dec x 0) as [H0|H0].
  { exists 0, 0. rewrite valor_redondeado_cero by done.
    split; [ring|]. split; [done|lia]. }
  destruct (exponente_abs x H0) as [He1 He2].
  set (e := exponente (Qabs x)) in *.
  assert (cuanto x = Z.max (e - 52) (-1074)) as Hc by done.
  unfold valor_redondeado. set (p := cuanto x) in *.
  pose proof (dos_pos p) as Hp.
  set (m := redondeo_par (x / 2 ^ p)).
  assert (- 2 ^ 53 ≤ m ≤ 2 ^ 53) as Hm.
  { assert (Qabs (x / 2 ^ p) <= inject_Z (2 ^ 53))%Q as Hy.
    { unfold Qdiv. rewrite Qabs_Qmult, Qabs_Qinv, (Qabs_pos (2 ^ p)) by lra.
      apply Qle_shift_div_r; [done|].
      rewrite dos_Z, <- dos_mas by lia.
      apply Qle_trans with (2 ^ (e + 1))%Q; [lra|]. apply dos_le. lia. }
    apply Qabs_Qle_condition in Hy. destruct Hy as [Hy1 Hy2].
    rewrite <- inject_Z_opp in Hy1.
    apply redondeo_par_mono in Hy1, Hy2.
    rewrite redondeo_par_Z in Hy1, Hy2. subst m. lia. }
  destruct (decide (Z.abs m = 2 ^ 53)) as [Heq|Hne].
  - exists (m / 2), (p + 1). split; [|split; [|lia]].
    + assert (m = 2 * (m / 2)) as Hm2.
      { destruct (Z.abs_eq_or_opp m) as [Ha|Ha]; rewrite Ha in Heq.
        - rewrite Heq. done.
        - assert (m = - 2 ^ 53) as -> by lia. done. }
      rewrite Hm2 at 1. rewrite inject_Z_mult, dos_mas.
      change (2 ^ 1)%Q with 2%Q. change (inject_Z 2) with 2%Q. ring.
    + destruct (Z.abs_eq_or_opp m) as [Ha|Ha]; rewrite Ha in Heq.
      * rewrite Heq. done.
      * assert (m = - 2 ^ 53) as -> by lia. done.
  - exists m, p. split; [done|]. split; lia.
Qed.

(** A finite result of [redondear] is a double, and no double is nearer
    to the exact value. *)
Lemma redondear_cercano x q :
  redondear x = Finito q →
  es_double q ∧ ∀ d, es_double d → (Qabs (q - x) <= Qabs (d - x))%Q.
Proof.
  intros Hq.
  assert (q == valor_redondeado x)%Q as Hv.
  { unfold redondear, empaquetar in Hq.
    destruct (Qle_bool _ _); [done|]. destruct (Qle_bool _ _); [done|].
    injection Hq as <-. apply this_Q2Qc. }
  split.
  - destruct (valor_redondeado_es_double x) as (M & j & HM & ?).
    exists M, j. by rewrite Hv.
  - intros d Hd. rewrite Hv. by apply valor_redondeado_cercano.
Qed.

(** Some doubles: [2 / 3] is [0.6666666666666666]; [1 / 10] is [0.1],
    above the exact tenth; [2 ^ 53 + 1] is halfway and goes to the even
    [2 ^ 53], while [2 ^ 53 + 3] goes up to [2 ^ 53 + 4]; half of the
    smallest subnormal goes to zero and three halves of it go to twice
    it; the midpoint above the largest double overflows. *)
Lemma redondear_valores :
  redondear (2 # 3) = Finito (Q2Qc (6004799503160661 # 9007199254740992)) ∧
  redondear (1 # 10) = Finito (Q2Qc (3602879701896397 # 36028797018963968)) ∧
  redondear (inject_Z (2 ^ 53 + 1)) = Finito (Qc_of_Z (2 ^ 53)) ∧
  redondear (inject_Z (2 ^ 53 + 3)) = Finito (Qc_of_Z (2 ^ 53 + 4)) ∧
  redondear (/ inject_Z (2 ^ 1075)) = Finito 0%Qc ∧
  redondear (3 / inject_Z (2 ^ 1075)) = Finito (Q2Qc (/ inject_Z (2 ^ 1073))) ∧
  redondear (inject_Z (2 ^ 1024 - 2 ^ 970)) = MasInf ∧
  redondear (- (1 # 3)) = Finito (Q2Qc (- (6004799503160661 # 18014398509481984))).
Proof.
  repeat split; vm_compute; try reflexivity; f_equal; by apply Qc_is_canon.
Qed.

(** ** Sums of doubles *)

Lemma redondear_cero x : (x == 0)%Q → redondear x = Finito 0%Qc.
Proof.
  intros Hx. rewrite (redondear_exacto x 0); [by rewrite Z2Qc_inj_0|done|lia].
Qed.

Lemma f_suma_no_negativo x y :
  no_negativo x → no_negativo y →
  no_negativo (f_suma x y) ∧
  (x = MasInf ∨ y = MasInf → f_suma x y = MasInf).
Proof.
  intros [->|(a & -> & Ha)] [->|(b & -> & Hb)]; simpl;
    (split; [|try done]); try (by left).
  - apply redondear_no_negativo. qc_a_q. lra.
  - by intros [?|?].
Qed.

Lemma f_suma_acotada a b k1 k2 :
  (0 ≤ a)%Qc → (a ≤ Qc_of_Z k1)%Qc → (0 ≤ b)%Qc → (b ≤ Qc_of_Z k2)%Qc →
  k1 + k2 < 2 ^ 53 →
  ∃ c, f_suma (Finito a) (Finito b) = Finito c ∧
       (0 ≤ c)%Qc ∧ (c ≤ Qc_of_Z (k1 + k2))%Qc.
Proof.
  intros Ha Hak Hb Hbk Hk. simpl.
  apply redondear_acotado; [| |done].
  - qc_a_q. lra.
  - rewrite inject_Z_plus. qc_a_q. lra.
Qed.

Lemma f_suma_enteros k1 k2 :
  0 ≤ k1 → 0 ≤ k2 → k1 + k2 < 2 ^ 53 →
  f_suma (Finito (Qc_of_Z k1)) (Finito (Qc_of_Z k2)) = Finito (Qc_of_Z (k1 + k2)).
Proof.
  intros H1 H2 Hk. simpl. apply redondear_exacto; [|lia].
  by rewrite inject_Z_plus.
Qed.

(** ** The pairwise summation is a summation tree *)

Lemma suma_arbol_foldl resto : ∀ l x,
  suma_arbol l x → suma_arbol (l ++ resto) (foldl f_suma x resto).
Proof.
  induction resto as [|y resto IH]; intros l x Hx.
  - by rewrite app_nil_r.
  - cbn [foldl]. rewrite (assoc_L (++) l [y] resto : l ++ y :: resto = _).
    apply IH. apply sa_mas; [done|constructor].
Qed.

Lemma concat_zip_snoc {A} (ls : list (list A)) : ∀ c,
  length ls = length c →
  concat (zip_with (λ l x, l ++ [x]) ls c) ≡ₚ concat ls ++ c.
Proof.
  induction ls as [|l ls IH]; intros [|x c] Hlen; try done.
  cbn [zip_with concat]. rewrite IH by (simpl in Hlen; lia).
  rewrite <- !app_assoc. f_equiv. cbn [app].
  by rewrite Permutation_middle.
Qed.

Lemma Forall2_suma_snoc ls r c :
  Forall2 suma_arbol ls r → length c = length r →
  Forall2 suma_arbol (zip_with (λ l x, l ++ [x]) ls c) (zip_with f_suma r c).
Proof.
  intros H. revert c. induction H as [|l x ls r Hl _ IH]; intros [|y c] Hlen;
    try done; cbn [zip_with].
  constructor; [|apply IH; simpl in Hlen; lia].
  apply sa_mas; [done|constructor].
Qed.

Lemma acumular8_arbol vueltas : ∀ ls r a,
  Forall2 suma_arbol ls r → length r = 8%nat →
  (8 * vueltas ≤ length a)%nat →
  ∃ ls' r' resto,
    acumular8 vueltas r a = (r', resto) ∧
    Forall2 suma_arbol ls' r' ∧ length r' = 8%nat ∧
    concat ls' ++ resto ≡ₚ concat ls ++ a.
Proof.
  induction vueltas as [|v IH]; intros ls r a Hls Hr Ha.
  - by exists ls, r, a.
  - cbn [acumular8].
    assert (length (take 8 a) = 8%nat) as Ht by (rewrite length_take; lia).
    destruct (IH (zip_with (λ l x, l ++ [x]) ls (take 8 a))
                 (zip_with f_suma r (take 8 a)) (drop 8 a))
      as (ls' & r' & resto & Heq & Hls' & Hr' & Hperm).
    + apply Forall2_suma_snoc; [done|lia].
    + rewrite length_zip_with. lia.
    + rewrite length_drop. lia.
    + exists ls', r', resto. split; [done|]. split; [done|]. split; [done|].
      rewrite Hperm, concat_zip_snoc.
      * by rewrite <- app_assoc, take_drop.
      * rewrite (Forall2_length _ _ _ Hls). lia.
Qed.

Lemma sumar8_arbol ls r :
  Forall2 suma_arbol ls r → length r = 8%nat →
  suma_arbol (concat ls) (sumar8 r).
Proof.
  intros H Hr.
  do 8 (destruct H as [|? ? ? ? ? H]; [done|]).
  destruct H; [|done]. cbn [sumar8 concat].
  eapply sa_perm; [|repeat (apply sa_mas; [|]); eassumption].
  rewrite app_nil_r, <- !app_assoc. done.
Qed.

Lemma pairwise_sum_arbol combustible : ∀ a,
  (length a ≤ combustible)%nat → suma_arbol a (pairwise_sum combustible a).
Proof.
  assert (∀ a, (8 ≤ length a)%nat → (length a ≤ 128)%nat →
            ∀ c, suma_arbol a (pairwise_sum c a)) as Hbloque.
  { intros a H8 H128 c.
    assert (pairwise_sum c a =
            let '(r, resto) := acumular8 (length a / 8 - 1) (take 8 a) (drop 8 a) in
            foldl f_suma (sumar8 r) resto) as ->.
    { destruct c; cbn [pairwise_sum];
        (destruct (Nat.ltb_spec (length a) 8); [lia|]);
        (destruct (Nat.leb_spec (length a) 128); [done|lia]). }
    pose proof (Nat.div_mod_eq (length a) 8) as Hdm.
    destruct (acumular8_arbol (length a / 8 - 1) ((λ x, [x]) <$> take 8 a)
                (take 8 a) (drop 8 a))
      as (ls' & r' & resto & -> & Hls' & Hr' & Hperm).
    - apply Forall2_fmap_l, Forall_Forall2_diag, Forall_forall.
      intros x _. constructor.
    - rewrite length_take. lia.
    - rewrite length_drop. lia.
    - eapply sa_perm; [|apply suma_arbol_foldl, (sumar8_arbol ls' r'); done].
      rewrite Hperm. clear.
      assert (concat ((λ x : flotante, [x]) <$> take 8 a) = take 8 a) as ->.
      { induction (take 8 a) as [|x l IH]; [done|].
        rewrite fmap_cons. cbn [concat app]. by rewrite IH. }
      by rewrite take_drop. }
  induction combustible as [|c IH]; intros a Hlen.
  - destruct a; [|simpl in Hlen; lia]. constructor.
  - destruct (Nat.ltb_spec (length a) 8) as [H8|H8].
    { cbn [pairwise_sum]. destruct (Nat.ltb_spec (length a) 8); [|lia].
      apply (suma_arbol_foldl a [] (Finito 0%Qc)). constructor. }
    destruct (Nat.leb_spec (length a) 128) as [H128|H128].
    { by apply Hbloque. }
    cbn [pairwise_sum]. destruct (Nat.ltb_spec (length a) 8); [lia|].
    destruct (Nat.leb_spec (length a) 128); [lia|].
    set (n2 := (length a / 2 - (length a / 2) mod 8)%nat).
    pose proof (Nat.div_mod_eq (length a) 2) as Hdm.
    pose proof (Nat.mod_upper_bound (length a) 2 ltac:(done)).
    pose proof (Nat.mod_upper_bound (length a / 2) 8 ltac:(done)).
    assert (0 < n2 < length a)%nat as Hn2 by (subst n2; lia).
    rewrite <- (take_drop n2 a) at 1.
    apply sa_mas; apply IH.
    + rewrite length_take. lia.
    + rewrite length_drop. lia.
Qed.

(** ** The quotient of two integers *)

Lemma Qdiv_Z_no_negativo a b : 0 ≤ a → 0 < b → (0 <= inject_Z a / inject_Z b)%Q.
Proof.
  intros Ha Hb. apply Qle_shift_div_l; [by apply inject_Z_pos|].
  rewrite Qmult_0_l. change 0%Q with (inject_Z 0). by rewrite <- Zle_Qle.
Qed.

Lemma Qdiv_Z_le a b k :
  0 < b → a ≤ k * b → (inject_Z a / inject_Z b <= inject_Z k)%Q.
Proof.
  intros Hb Hab. apply Qle_shift_div_r; [by apply inject_Z_pos|].
  by rewrite <- inject_Z_mult, <- Zle_Qle.
Qed.

Lemma Qdiv_Z_ge a b k :
  0 < b → k * b ≤ a → (inject_Z k <= inject_Z a / inject_Z b)%Q.
Proof.
  intros Hb Hab. apply Qle_shift_div_l; [by apply inject_Z_pos|].
  by rewrite <- inject_Z_mult, <- Zle_Qle.
Qed.

Lemma Qdiv_Z_desde a b :
  0 < a → 0 < b < 2 ^ 63 → (2 ^ (-63) <= inject_Z a / inject_Z b)%Q.
Proof.
  intros Ha Hb. apply Qle_shift_div_l; [apply inject_Z_pos; lia|].
  assert (inject_Z b <= 2 ^ 63)%Q as HB.
  { rewrite <- dos_Z by lia. rewrite <- Zle_Qle. lia. }
  assert (1 <= inject_Z a)%Q as HA.
  { change 1%Q with (inject_Z 1). rewrite <- Zle_Qle. lia. }
  assert (2 ^ (-63) * 2 ^ 63 == 1)%Q as H1 by (by rewrite <- dos_mas).
  pose proof (dos_pos (-63)). nra.
Qed.

Lemma cociente_no_negativo a b : 0 ≤ a → 0 < b → no_negativo (cociente a b).
Proof.
  intros Ha Hb. apply redondear_no_negativo. by apply Qdiv_Z_no_negativo.
Qed.

Lemma cociente_cero b : 0 < b → cociente 0 b = Finito 0%Qc.
Proof.
  intros Hb. apply redondear_cero. unfold Qdiv. by rewrite Qmult_0_l.
Qed.

(** An integer quotient below [2 ^ 53] is exact. *)
Lemma cociente_entero k b :
  0 < b → 0 ≤ k < 2 ^ 53 → cociente (k * b) b = Finito (Qc_of_Z k).
Proof.
  intros Hb Hk. apply redondear_exacto; [|done].
  rewrite inject_Z_mult. field.
  apply Qnot_eq_sym, Qlt_not_eq. by apply inject_Z_pos.
Qed.

Lemma cociente_acotado a b k :
  0 ≤ a → 0 < b → a ≤ k * b → k < 2 ^ 53 →
  ∃ q, cociente a b = Finito q ∧ (0 ≤ q)%Qc ∧ (q ≤ Qc_of_Z k)%Qc.
Proof.
  intros Ha Hb Hab Hk. apply redondear_acotado; [|by apply Qdiv_Z_le|done].
  by apply Qdiv_Z_no_negativo.
Qed.

(** The quotients of the scorer: counts below [2 ^ 63]. *)
Lemma cociente_finito a b :
  0 ≤ a < 2 ^ 63 → 0 < b →
  ∃ q, cociente a b = Finito q ∧ (0 ≤ q)%Qc.
Proof.
  intros Ha Hb.
  assert (0 <= inject_Z a / inject_Z b)%Q as H0
    by (apply Qdiv_Z_no_negativo; lia).
  unfold cociente, redondear.
  pose proof (proj1 (valor_redondeado_signo _) H0) as Hv.
  assert (valor_redondeado (inject_Z a / inject_Z b)
          <= inject_Z (2 ^ 52) * 2 ^ 11)%Q as Hsup.
  { destruct (decide (a = 0)) as [->|Ha0].
    - rewrite valor_redondeado_cero; [done|].
      unfold Qdiv. by rewrite Qmult_0_l.
    - apply valor_redondeado_cota_sup; [|..|done|lia].
      + apply Qlt_shift_div_l; [by apply inject_Z_pos|].
        rewrite Qmult_0_l. apply inject_Z_pos. lia.
      + rewrite <- (dos_Z 11), <- inject_Z_mult by lia.
        apply Qdiv_Z_le; [done|]. change (2 ^ 52 * 2 ^ 11) with (2 ^ 63). nia. }
  rewrite empaquetar_finito.
  - eexists. split; [done|]. by apply Qc_no_negativo.
  - pose proof (dos_pos 1024). lra.
  - apply Qle_lt_trans with (1 := Hsup).
    rewrite (dos_Z 52), <- dos_mas by lia. by apply dos_lt.
Qed.

(** A quotient of such counts is zero only when the numerator is. *)
Lemma cociente_positivo a b q :
  0 < a → 0 < b < 2 ^ 63 → cociente a b = Finito q → (0 < q)%Qc.
Proof.
  intros Ha Hb Hq.
  destruct (redondear_desde (inject_Z a / inject_Z b) (-63)) as [H|(q' & H & Hq')].
  - by apply Qdiv_Z_desde.
  - done.
  - unfold cociente in Hq. congruence.
  - unfold cociente in Hq. rewrite Hq in H. injection H as <-.
    unfold Qclt. change (this 0%Qc) with 0%Q. pose proof (dos_pos (-63)). lra.
Qed.

Lemma cociente_desde_1 a b :
  0 < b → b ≤ a →
  cociente a b = MasInf ∨ ∃ q, cociente a b = Finito q ∧ (1 ≤ q)%Qc.
Proof.
  intros Hb Hab.
  destruct (redondear_desde (inject_Z a / inject_Z b) 0) as [H|(q & H & Hq)].
  - change (2 ^ 0)%Q with (inject_Z 1). apply Qdiv_Z_ge; lia.
  - done.
  - by left.
  - right. exists q. split; [done|]. unfold Qcle. change (this 1%Qc) with 1%Q.
    by change (2 ^ 0)%Q with 1%Q in Hq.
Qed.

(** The rounding error of such a quotient, relative to the exact value. *)
Lemma cociente_error a b q :
  0 ≤ a → 0 < b < 2 ^ 63 → cociente a b = Finito q →
  (Qc_of_Z a / Qc_of_Z b * (1 - epsilon) ≤ q)%Qc ∧
  (q ≤ Qc_of_Z a / Qc_of_Z b * (1 + epsilon))%Qc.
Proof.
  intros Ha Hb Hq.
  assert (this epsilon == 2 ^ (-53))%Q as He by apply this_Q2Qc.
  qc_desplegar. rewrite He. clear He.
  change (inject_Z a * / inject_Z b)%Q with (inject_Z a / inject_Z b)%Q.
  set (x := (inject_Z a / inject_Z b)%Q) in *.
  destruct (decide (a = 0)) as [->|Ha0].
  - rewrite cociente_cero in Hq by lia. injection Hq as <-.
    assert (x == 0)%Q as -> by (unfold x, Qdiv; by rewrite Qmult_0_l).
    change (this 0%Qc) with 0%Q. split; lra.
  - assert (2 ^ (-1022) <= x)%Q as Hnormal.
    { apply Qle_trans with (2 ^ (-63))%Q; [by apply dos_le|].
      apply Qdiv_Z_desde; lia. }
    pose proof (redondear_error_relativo x q Hq Hnormal) as Herr.
    apply Qabs_Qle_condition in Herr. split; lra.
Qed.

(** ** One minus a rate *)

Lemma max0_no_negativo x :
  no_negativo x → max0 x = x.
Proof.
  intros [->|(q & -> & Hq)]; [done|]. unfold max0, positivo.
  destruct (bool_decide_reflect (0 < q)%Qc) as [|Hn]; [done|].
  f_equal. apply Qcle_antisym; [done|by apply Qcnot_lt_le].
Qed.

(** The accuracy that goes with a rate. *)
Lemma max0_uno_menos x :
  no_negativo x →
  ∃ q, max0 (uno_menos x) = Finito q ∧ (0 ≤ q)%Qc ∧ (q ≤ 1)%Qc ∧
       (∀ w, x = Finito w → (w ≤ 1)%Qc →
          uno_menos x = Finito q ∧
          (1 - w - epsilon ≤ q)%Qc ∧ (q ≤ 1 - w + epsilon)%Qc) ∧
       (∀ w, x = Finito w → (1 ≤ w)%Qc → q = 0%Qc) ∧
       (x = MasInf → q = 0%Qc).
Proof.
  intros [->|(w & -> & Hw)].
  { exists 0%Qc. repeat split; done. }
  cbn [uno_menos].
  destruct (Qlt_le_dec 1 w) as [Hgt|Hle].
  - destruct (redondear_no_positivo (1 - w)) as [H|(q & H & Hq)]; [lra|..].
    + rewrite H. exists 0%Qc. split; [done|]. split; [done|]. split; [done|].
      split; [|split; done].
      intros w' [= <-] Hw'. unfold Qcle in Hw'.
      change (this 1%Qc) with 1%Q in Hw'. lra.
    + rewrite H. exists 0%Qc. unfold max0, positivo.
      rewrite bool_decide_false by by apply Qcle_not_lt.
      split; [done|]. split; [done|]. split; [done|].
      split; [|split; done].
      intros w' [= <-] Hw'. unfold Qcle in Hw'.
      change (this 1%Qc) with 1%Q in Hw'. lra.
  - assert (0 <= 1 - w)%Q as H0 by lra.
    assert (0 <= w)%Q as Hw' by (by unfold Qcle in Hw).
    destruct (redondear_acotado (1 - w) 1) as (q & H & Hq0 & Hq1);
      [done|change (inject_Z 1) with 1%Q; lra|done|].
    rewrite H. exists q. rewrite max0_no_negativo by (right; by exists q).
    split; [done|]. split; [done|]. split; [done|]. split; [|split; [|done]].
    + intros w' [= <-] _. split; [done|].
      pose proof (redondear_error (1 - w) q 0 H) as Herr.
      assert (this epsilon == 2 ^ (-53))%Q as He by apply this_Q2Qc.
      assert (Qabs (1 - w) < 2 ^ (0 + 1))%Q as Hab.
      { apply Qabs_Qlt_condition. change (2 ^ (0 + 1))%Q with 2%Q. lra. }
      specialize (Herr Hab ltac:(lia)).
      change (2 ^ (0 - 53))%Q with (2 ^ (-53))%Q in Herr.
      apply Qabs_Qle_condition in Herr. clear Hab.
      qc_desplegar. rewrite He. split; lra.
    + intros w' [= <-] Hw1.
      assert (w == 1)%Q as Hw1'.
      { unfold Qcle in Hw1. change (this 1%Qc) with 1%Q in Hw1. lra. }
      rewrite (redondear_cero (1 - w)) in H by lra. congruence.
Qed.

(** ** What a summation tree preserves *)

Lemma suma_arbol_ceros l x :
  suma_arbol l x → Forall (λ y, y = Finito 0%Qc) l → x = Finito 0%Qc.
Proof.
  induction 1 as [|y|l1 l2 x y _ IH1 _ IH2|l1 l2 x Hp _ IH]; intros Hl.
  - done.
  - by inversion Hl.
  - apply Forall_app in Hl as [H1 H2]. rewrite IH1, IH2 by done.
    by apply redondear_cero.
  - apply IH. by rewrite Hp.
Qed.

Lemma suma_arbol_unos l x :
  suma_arbol l x → Forall (λ y, y = Finito 1%Qc) l →
  Z.of_nat (length l) < 2 ^ 53 →
  x = Finito (Qc_of_Z (Z.of_nat (length l))).
Proof.
  induction 1 as [|y|l1 l2 x y _ IH1 _ IH2|l1 l2 x Hp _ IH]; intros Hl Hlen.
  - cbn [length]. by rewrite <- Z2Qc_inj_0.
  - inversion Hl; subst. cbn [length]. by rewrite <- Z2Qc_inj_1.
  - apply Forall_app in Hl as [H1 H2]. rewrite length_app in *.
    rewrite IH1, IH2 by (done || lia). rewrite f_suma_enteros by lia.
    by rewrite Nat2Z.inj_add.
  - rewrite <- Hp. apply IH; by rewrite Hp.
Qed.

Lemma suma_arbol_acotada l x :
  suma_arbol l x →
  Forall (λ y, ∃ q, y = Finito q ∧ (0 ≤ q)%Qc ∧ (q ≤ 1)%Qc) l →
  Z.of_nat (length l) < 2 ^ 53 →
  ∃ s, x = Finito s ∧ (0 ≤ s)%Qc ∧ (s ≤ Qc_of_Z (Z.of_nat (length l)))%Qc.
Proof.
  induction 1 as [|y|l1 l2 x y _ IH1 _ IH2|l1 l2 x Hp _ IH]; intros Hl Hlen.
  - by exists 0%Qc.
  - inversion Hl as [|? ? (q & -> & H0 & H1) _]; subst.
    by exists q.
  - apply Forall_app in Hl as [H1 H2]. rewrite length_app in Hlen.
    destruct IH1 as (a & -> & Ha0 & Ha1); [done|lia|].
    destruct IH2 as (b & -> & Hb0 & Hb1); [done|lia|].
    destruct (f_suma_acotada a b (Z.of_nat (length l1)) (Z.of_nat (length l2)))
      as (c & Hc & Hc0 & Hc1); [done..|lia|].
    exists c. by rewrite length_app, Nat2Z.inj_add.
  - destruct IH as (s & -> & Hs0 & Hs1); [by rewrite Hp..|].
    exists s. by rewrite <- Hp.
Qed.

Lemma suma_arbol_no_negativo l x :
  suma_arbol l x → Forall no_negativo l →
  no_negativo x ∧ (MasInf ∈ l → x = MasInf).
Proof.
  induction 1 as [|y|l1 l2 x y _ IH1 _ IH2|l1 l2 x Hp _ IH]; intros Hl.
  - split; [right; by exists 0%Qc|]. by intros ?%elem_of_nil.
  - inversion Hl; subst. split; [done|]. by intros ->%list_elem_of_singleton.
  - apply Forall_app in Hl as [H1 H2].
    destruct (IH1 H1) as [Hx Hx']. destruct (IH2 H2) as [Hy Hy'].
    destruct (f_suma_no_negativo x y Hx Hy) as [Hs Hs'].
    split; [done|]. intros [?|?]%elem_of_app; apply Hs'; auto.
  - rewrite <- Hp. apply IH. by rewrite Hp.
Qed.

(** ** The mean of an array *)

(** The number of elements of a non-empty array, as a double. *)
Lemma de_entero_cuenta n :
  (0 < n)%nat →
  ∃ d, de_entero (Z.min (Z.of_nat n) (2 ^ 63 - 1)) = Finito d ∧ (1 ≤ d)%Qc ∧
       (Z.of_nat n < 2 ^ 53 → d = Qc_of_Z (Z.of_nat n)).
Proof.
  intros Hn. set (k := Z.min (Z.of_nat n) (2 ^ 63 - 1)).
  assert (1 ≤ k < 2 ^ 63) as Hk by (subst k; lia).
  assert (1 <= inject_Z k)%Q as H1.
  { change 1%Q with (inject_Z 1). rewrite <- Zle_Qle. lia. }
  unfold de_entero.
  destruct (redondear_acotado_dos (inject_Z k) (2 ^ 52) 11)
    as (d & Hd & _ & _); [lra| |done|lia|].
  { rewrite <- (dos_Z 11), <- inject_Z_mult, <- Zle_Qle by lia.
    change (2 ^ 52 * 2 ^ 11) with (2 ^ 63). lia. }
  destruct (redondear_desde (inject_Z k) 0) as [H|(d' & Hd' & H1')];
    [done|done|congruence|].
  exists d. split; [done|]. split.
  - rewrite Hd in Hd'. injection Hd' as <-. unfold Qcle.
    by change (this 1%Qc) with 1%Q.
  - intros Hn53. subst k. rewrite Z.min_l in Hd by lia.
    rewrite redondear_entero in Hd by lia. congruence.
Qed.

Lemma f_div_finito s d :
  (1 ≤ d)%Qc → f_div (Finito s) (Finito d) = redondear (s / d).
Proof.
  intros Hd. unfold f_div. rewrite bool_decide_false; [done|].
  intros ->. by apply Qcle_not_lt in Hd.
Qed.

(** The mean of zeros is zero. *)
Lemma np_mean_ceros xs :
  xs ≠ [] → Forall (λ y, y = Finito 0%Qc) xs → np_mean xs = Finito 0%Qc.
Proof.
  intros Hne Hxs. unfold np_mean.
  destruct (de_entero_cuenta (length xs)) as (d & -> & Hd & _).
  { destruct xs; [done|]. simpl. lia. }
  rewrite (suma_arbol_ceros xs _ (pairwise_sum_arbol _ _ (Nat.le_refl _)) Hxs).
  rewrite f_div_finito by done. apply redondear_cero.
  change (this 0%Qc) with 0%Q. unfold Qdiv. by rewrite Qmult_0_l.
Qed.

(** The mean of fewer than [2 ^ 53] ones is one. *)
Lemma np_mean_unos xs :
  xs ≠ [] → Z.of_nat (length xs) < 2 ^ 53 →
  Forall (λ y, y = Finito 1%Qc) xs → np_mean xs = Finito 1%Qc.
Proof.
  intros Hne Hlen Hxs. unfold np_mean.
  assert (0 < length xs)%nat as Hpos by (destruct xs; [done|]; simpl; lia).
  destruct (de_entero_cuenta (length xs) Hpos) as (d & -> & Hd & Hd').
  rewrite (suma_arbol_unos xs _ (pairwise_sum_arbol _ _ (Nat.le_refl _)) Hxs Hlen).
  rewrite f_div_finito by done. rewrite Hd' by done.
  rewrite <- Z2Qc_inj_1. apply redondear_exacto; [|lia].
  cbn [this Qc_of_Z]. field.
  apply Qnot_eq_sym, Qlt_not_eq, inject_Z_pos. lia.
Qed.

(** The mean of fewer than [2 ^ 53] values between 0 and 1 is between 0
    and 1. *)
Lemma np_mean_acotada xs :
  xs ≠ [] → Z.of_nat (length xs) < 2 ^ 53 →
  Forall (λ y, ∃ q, y = Finito q ∧ (0 ≤ q)%Qc ∧ (q ≤ 1)%Qc) xs →
  ∃ q, np_mean xs = Finito q ∧ (0 ≤ q)%Qc ∧ (q ≤ 1)%Qc.
Proof.
  intros Hne Hlen Hxs. unfold np_mean.
  assert (0 < length xs)%nat as Hpos by (destruct xs; [done|]; simpl; lia).
  destruct (de_entero_cuenta (length xs) Hpos) as (d & -> & Hd & Hd').
  destruct (suma_arbol_acotada xs _ (pairwise_sum_arbol _ _ (Nat.le_refl _))
              Hxs Hlen) as (s & -> & Hs0 & Hs1).
  rewrite f_div_finito by done. rewrite Hd' in * by done.
  assert (0 < inject_Z (Z.of_nat (length xs)))%Q as Hn
    by (apply inject_Z_pos; lia).
  unfold Qcle in Hs0, Hs1. cbn [this Qc_of_Z] in Hs1.
  change (this 0%Qc) with 0%Q in Hs0.
  apply (redondear_acotado _ 1); [| |done]; cbn [this Qc_of_Z].
  - apply Qle_shift_div_l; [done|]. lra.
  - apply Qle_shift_div_r; [done|]. change (inject_Z 1) with 1%Q. lra.
Qed.

(** One infinite value among non-negative ones makes the mean infinite. *)
Lemma np_mean_MasInf xs :
  Forall no_negativo xs → MasInf ∈ xs → np_mean xs = MasInf.
Proof.
  intros Hxs Hin. unfold np_mean.
  assert (0 < length xs)%nat as Hpos.
  { destruct xs; [by apply elem_of_nil in Hin|]. simpl. lia. }
  destruct (de_entero_cuenta (length xs) Hpos) as (d & -> & Hd & _).
  destruct (suma_arbol_no_negativo xs _
              (pairwise_sum_arbol _ _ (Nat.le_refl _)) Hxs) as [_ Hinf].
  rewrite (Hinf Hin).
  unfold f_div. rewrite bool_decide_true; [done|].
  apply Qcle_trans with 1%Qc; done.
Qed.
(** The accuracy of a pair without errors. *)
Lemma max0_uno_menos_cero : max0 (uno_menos (Finito 0%Qc)) = Finito 1%Qc.
Proof.
  cbn [uno_menos]. rewrite (redondear_exacto _ 1); [|done|lia].
  by rewrite Z2Qc_inj_1.
Qed.

(** ** The scorer *)

Section PuntuacionCorrecta.
Variable U : tablas_unicode.
Variables referencia hipotesis : list N.
Let ref_words := palabras U referencia.
Let hyp_words := palabras U hipotesis.
Hypothesis Hn : Z.of_nat (length ref_words) < int64_max.
Hypothesis Hm : Z.of_nat (length hyp_words) < int64_max.

(** The scorer never raises; its dictionary is built from the counts of
    the alignment of the two token sequences. *)
Lemma calcular_wer_spec :
  ∃ s d k dp,
    calcular_distancia_edicion ref_words hyp_words = Some (s, d, k, dp) ∧
    0 ≤ s ∧ 0 ≤ d ∧ 0 ≤ k ∧
    s + d + k = Z.of_nat (levenshtein ref_words hyp_words) ∧
    calcular_wer U referencia hipotesis =
      let N := Z.of_nat (length ref_words) in
      let wer :=
        if N =? 0
        then (if 0 <? Z.of_nat (length hyp_words) then MasInf else Finito 0%Qc)
        else cociente (s + d + k) N in
      Some {| r_wer := wer;
              r_accuracy :=
                if N =? 0 then Finito 0%Qc else max0 (uno_menos wer);
              r_sustituciones := s;
              r_eliminaciones := d;
              r_inserciones := k;
              r_total_errores := s + d + k;
              r_palabras_referencia := N;
              r_palabras_hipotesis := Z.of_nat (length hyp_words) |}.
Proof.
  destruct (calcular_distancia_edicion_spec ref_words hyp_words Hn Hm)
    as (s & d & k & dp & Hc & _ & Hw).
  pose proof (camino_spec_cuentas _ _ _ _ _ _ _ Hw) as (Hs & Hd & Hk & Hsum & _).
  rewrite tabla_spec_total in Hsum.
  exists s, d, k, dp. split; [done|]. do 4 (split; [done|]).
  unfold calcular_wer. fold (palabras U referencia) (palabras U hipotesis).
  fold ref_words hyp_words. rewrite Hc. cbn [mbind option_bind].
  unfold truediv.
  by destruct (Z.of_nat (length ref_words) =? 0).
Qed.

(** The number of errors of a pair fits in 63 bits. *)
Lemma errores_acotados :
  Z.of_nat (levenshtein ref_words hyp_words) < 2 ^ 63.
Proof.
  pose proof (levenshtein_bound ref_words hyp_words).
  unfold int64_max in *. lia.
Qed.

(** The rate of a pair with reference words: the double nearest to the
    exact quotient, finite, not negative, and within [epsilon] of the
    exact quotient in relative terms. *)
Lemma cociente_del_par s d k :
  s + d + k = Z.of_nat (levenshtein ref_words hyp_words) →
  ref_words ≠ [] →
  ∃ q, cociente (s + d + k) (Z.of_nat (length ref_words)) = Finito q ∧
       (0 ≤ q)%Qc ∧
       (Qc_of_Z (s + d + k) / Qc_of_Z (Z.of_nat (length ref_words))
        * (1 - epsilon) ≤ q)%Qc ∧
       (q ≤ Qc_of_Z (s + d + k) / Qc_of_Z (Z.of_nat (length ref_words))
            * (1 + epsilon))%Qc ∧
       (q = 0%Qc ↔ s + d + k = 0).
Proof.
  intros Hsum Hne. pose proof errores_acotados as Hcota.
  assert (0 < Z.of_nat (length ref_words) < 2 ^ 63) as HN.
  { unfold int64_max in Hn. destruct ref_words; [done|]. simpl in *. lia. }
  destruct (cociente_finito (s + d + k) (Z.of_nat (length ref_words)))
    as (q & Hq & Hq0); [lia|lia|].
  exists q. split; [done|]. split; [done|].
  assert (0 ≤ s + d + k) as Hno by lia.
  destruct (cociente_error _ _ q Hno HN Hq) as [He1 He2].
  split; [done|]. split; [done|]. split.
  - intros ->. destruct (decide (s + d + k = 0)) as [|Hne0]; [done|].
    assert (0 < s + d + k) as Hsi by lia.
    pose proof (cociente_positivo _ _ _ Hsi HN Hq) as Hpos.
    by apply Qclt_not_eq in Hpos.
  - intros H0. rewrite H0, cociente_cero in Hq by lia. congruence.
Qed.

(** What a pair without reference words and without errors is given. *)
Lemma calcular_wer_sin_referencia r :
  calcular_wer U referencia hipotesis = Some r →
  0 ≤ r_sustituciones r ∧ 0 ≤ r_eliminaciones r ∧ 0 ≤ r_inserciones r ∧
  0 ≤ r_palabras_referencia r ∧
  (r_palabras_referencia r = 0 →
   r_sustituciones r = 0 → r_eliminaciones r = 0 → r_inserciones r = 0 →
   r_wer r = Finito 0%Qc).
Proof.
  intros Hr.
  destruct calcular_wer_spec as (s & d & k & dp & _ & Hs & Hd & Hk & Hlv & Hr').
  rewrite Hr in Hr'. cbn zeta in Hr'. injection Hr' as ->.
  cbn [r_sustituciones r_eliminaciones r_inserciones r_palabras_referencia
       r_wer].
  do 3 (split; [done|]). split; [lia|]. intros HN -> -> ->.
  rewrite HN. cbn [Z.eqb].
  assert (ref_words = []) as Hnil.
  { destruct ref_words; [done|]. simpl in HN. lia. }
  rewrite Hnil, levenshtein_nil_l in Hlv.
  by replace (Z.of_nat (length hyp_words)) with 0 by lia.
Qed.

End PuntuacionCorrecta.

(** *** C2: empty reference and empty hypothesis

    The claim asks for [WER = 0] and [accuracy = 1].  The program returns
    [WER = 0.0] but [accuracy = 0.0]: the branch for an empty reference
    sets the accuracy to zero whatever the hypothesis is. *)
Theorem wer_vacio_vacio (U : tablas_unicode) (referencia hipotesis : list N) :
  palabras U referencia = [] →
  palabras U hipotesis = [] →
  ∃ r, calcular_wer U referencia hipotesis = Some r ∧
       r_wer r = Finito 0%Qc ∧
       r_accuracy r = Finito 0%Qc ∧
       r_accuracy r ≠ Finito 1%Qc.
Proof.
  intros Hr Hh.
  destruct (calcular_wer_spec U referencia hipotesis)
    as (s & d & k & dp & _ & _ & _ & _ & _ & ->).
  - by rewrite Hr.
  - by rewrite Hh.
  - rewrite Hr, Hh. cbn [length Z.of_nat Z.eqb Z.ltb Z.compare].
    eexists; split; [done|]. cbn [r_wer r_accuracy]. repeat split. done.
Qed.

Lemma wer_vacio_vacio_ejemplo :
  ∃ r, calcular_wer basic_latin (literal "") (literal "?!") = Some r ∧
       r_wer r = Finito 0%Qc ∧
       r_accuracy r = Finito 0%Qc ∧
       r_accuracy r ≠ Finito 1%Qc.
Proof.
  apply (wer_vacio_vacio basic_latin (literal "") (literal "?!")); reflexivity.
Defined.

(** *** C4: the rate of a pair with a non-empty reference

    When the reference has [N > 0] tokens, [calcular_wer] returns
    [wer = (S + D + I) / N] for the counts [S], [D], [I] of the
    alignment, as Python computes it: the double nearest to the exact
    quotient, which is within [epsilon = 2 ^ -53] of it in relative
    terms.  The accuracy is [max(0, 1 - wer)]; the rate is never negative
    and is not clamped: a one-token reference against a three-token
    hypothesis with two insertions has rate 2. *)
Theorem wer_con_referencia :
  (∀ (U : tablas_unicode) (referencia hipotesis : list N),
     palabras U referencia ≠ [] →
     Z.of_nat (length (palabras U referencia)) < int64_max →
     Z.of_nat (length (palabras U hipotesis)) < int64_max →
     ∃ s d k dp r q,
       calcular_distancia_edicion (palabras U referencia) (palabras U hipotesis)
         = Some (s, d, k, dp) ∧
       calcular_wer U referencia hipotesis = Some r ∧
       r_wer r =
         cociente (s + d + k) (Z.of_nat (length (palabras U referencia))) ∧
       r_wer r = Finito q ∧
       (0 ≤ q)%Qc ∧
       (Qc_of_Z (s + d + k) / Qc_of_Z (Z.of_nat (length (palabras U referencia)))
        * (1 - epsilon) ≤ q)%Qc ∧
       (q ≤ Qc_of_Z (s + d + k)
            / Qc_of_Z (Z.of_nat (length (palabras U referencia)))
            * (1 + epsilon))%Qc ∧
       r_accuracy r = max0 (uno_menos (r_wer r))) ∧
  (∃ r, calcular_wer basic_latin (literal "a") (literal "a b c") = Some r ∧
        r_sustituciones r = 0 ∧ r_eliminaciones r = 0 ∧ r_inserciones r = 2 ∧
        r_palabras_referencia r = 1 ∧ r_palabras_hipotesis r = 3 ∧
        r_wer r = Finito 2%Qc ∧ r_accuracy r = Finito 0%Qc).
Proof.
  split.
  - intros U referencia hipotesis Hne Hn Hm.
    destruct (calcular_wer_spec U referencia hipotesis Hn Hm)
      as (s & d & k & dp & Hc & Hs & Hd & Hk & Hlv & ->).
    destruct (cociente_del_par U referencia hipotesis Hn Hm s d k Hlv Hne)
      as (q & Hq & Hq0 & He1 & He2 & _).
    assert (0 < Z.of_nat (length (palabras U referencia))) as Hpos.
    { destruct (palabras U referencia); [done|]. simpl. lia. }
    exists s, d, k, dp. cbn zeta.
    destruct (Z.eqb_spec (Z.of_nat (length (palabras U referencia))) 0) as [?|_];
      [lia|].
    eexists _, q. split; [done|]. split; [done|]. cbn [r_wer r_accuracy].
    by repeat split.
  - eexists. split; [vm_compute; reflexivity|]. cbn [r_wer r_accuracy
      r_sustituciones r_eliminaciones r_inserciones r_palabras_referencia
      r_palabras_hipotesis].
    repeat split; f_equal; by apply Qc_is_canon.
Qed.

Lemma wer_con_referencia_ejemplo :
  ∃ s d k dp r q,
    calcular_distancia_edicion
      (palabras basic_latin (literal "uno dos tres"))
      (palabras basic_latin (literal "cuatro dos")) = Some (s, d, k, dp) ∧
    calcular_wer basic_latin (literal "uno dos tres")
      (literal "cuatro dos") = Some r ∧
    r_wer r =
      cociente (s + d + k)
        (Z.of_nat (length (palabras basic_latin (literal "uno dos tres")))) ∧
    r_wer r = Finito q ∧
    (0 ≤ q)%Qc ∧
    (Qc_of_Z (s + d + k)
     / Qc_of_Z (Z.of_nat (length (palabras basic_latin (literal "uno dos tres"))))
     * (1 - epsilon) ≤ q)%Qc ∧
    (q ≤ Qc_of_Z (s + d + k)
         / Qc_of_Z (Z.of_nat (length
             (palabras basic_latin (literal "uno dos tres"))))
         * (1 + epsilon))%Qc ∧
    r_accuracy r = max0 (uno_menos (r_wer r)).
Proof.
  apply (proj1 wer_con_referencia basic_latin
           (literal "uno dos tres") (literal "cuatro dos"));
    [discriminate|reflexivity|reflexivity].
Defined.

(** The doubles of the run above: [2 / 3] is [0.6666666666666666] and
    [1 - 0.6666666666666666] is [0.33333333333333337]. *)
Lemma wer_dos_tercios :
  ∃ r, calcular_wer basic_latin (literal "uno dos tres") (literal "cuatro dos")
         = Some r ∧
       r_total_errores r = 2 ∧ r_palabras_referencia r = 3 ∧
       r_wer r = Finito (Q2Qc (6004799503160661 # 9007199254740992)) ∧
       r_accuracy r = Finito (Q2Qc (3002399751580331 # 9007199254740992)).
Proof.
  eexists. split; [vm_compute; reflexivity|].
  cbn [r_wer r_accuracy r_total_errores r_palabras_referencia].
  repeat split; f_equal; by apply Qc_is_canon.
Qed.

(** *** C5: empty reference, non-empty hypothesis

    When the reference has no token and the hypothesis has some,
    [calcular_wer] does not raise and returns an infinite rate and
    accuracy 0. *)
Theorem wer_referencia_vacia (U : tablas_unicode) (referencia hipotesis : list N) :
  palabras U referencia = [] →
  palabras U hipotesis ≠ [] →
  Z.of_nat (length (palabras U hipotesis)) < int64_max →
  ∃ r, calcular_wer U referencia hipotesis = Some r ∧
       r_wer r = MasInf ∧
       r_accuracy r = Finito 0%Qc.
Proof.
  intros Hr Hh Hm.
  destruct (calcular_wer_spec U referencia hipotesis)
    as (s & d & k & dp & _ & _ & _ & _ & _ & ->).
  - by rewrite Hr.
  - done.
  - rewrite Hr. destruct (palabras U hipotesis); [done|].
    eexists; split; [done|]. by split.
Qed.

Lemma wer_referencia_vacia_ejemplo :
  ∃ r, calcular_wer basic_latin (literal "...") (literal "hola mundo") = Some r ∧
       r_wer r = MasInf ∧
       r_accuracy r = Finito 0%Qc.
Proof.
  apply (wer_referencia_vacia basic_latin (literal "...") (literal "hola mundo"));
    [reflexivity|discriminate|reflexivity].
Defined.

(** ** The aggregator *)

Lemma cortas_evaluadas U ts : cortasb U ts = true → cortas U ts.
Proof.
  unfold cortasb, cortas. intros H. apply Forall_forall. intros t Ht.
  apply Z.ltb_lt. revert H Ht. rewrite forallb_forall. intros H Ht.
  apply H. by apply list_elem_of_In.
Qed.

Lemma suma_fmap_cero_inv {A} (f : A → Z) (xs : list A) :
  Forall (λ x, 0 ≤ f x) xs → suma (f <$> xs) = 0 → Forall (λ x, f x = 0) xs.
Proof.
  unfold suma. intros Hxs.
  assert (0 ≤ foldr Z.add 0 (f <$> xs) ∧
          (foldr Z.add 0 (f <$> xs) = 0 → Forall (λ x, f x = 0) xs))
    as [_ H]; [|done].
  induction Hxs as [|x xs Hx _ [IH1 IH2]]; [done|].
  rewrite fmap_cons. cbn [foldr]. split; [lia|].
  intros H0. constructor; [lia|]. apply IH2. lia.
Qed.

Section AgregadorCorrecto.
Variable U : tablas_unicode.

Lemma suma_app xs ys : suma (xs ++ ys) = suma xs + suma ys.
Proof. unfold suma. induction xs as [|x xs IH]; simpl; lia. Qed.

Lemma cortas_zip (ms os : list (list N)) :
  cortas U ms → cortas U os →
  Forall (λ par, Z.of_nat (length (palabras U par.1)) < int64_max ∧
                 Z.of_nat (length (palabras U par.2)) < int64_max)
         (zip ms os).
Proof.
  intros Hm. revert os. induction Hm as [|m ms Hm _ IH]; intros os Ho.
  - constructor.
  - destruct Ho as [|o os Ho Hos]; simpl; constructor; auto.
Qed.

Lemma calcular_wer_no_falla (referencia hipotesis : list N) :
  Z.of_nat (length (palabras U referencia)) < int64_max →
  Z.of_nat (length (palabras U hipotesis)) < int64_max →
  ∃ r, calcular_wer U referencia hipotesis = Some r ∧
       0 ≤ r_palabras_referencia r.
Proof.
  intros Hn Hm.
  destruct (calcular_wer_spec U referencia hipotesis Hn Hm)
    as (s & d & k & dp & _ & _ & _ & _ & _ & ->).
  eexists; split; [done|]. simpl. lia.
Qed.

(** The loop runs over all the pairs, in order, and adds up their counts. *)
Lemma procesar_spec pares : ∀ i ac salida,
  Forall (λ par, Z.of_nat (length (palabras U par.1)) < int64_max ∧
                 Z.of_nat (length (palabras U par.2)) < int64_max) pares →
  ∃ ac' lineas res,
    procesar U i pares ac salida = (Some ac', salida ++ lineas) ∧
    Forall2 (λ par r, calcular_wer U par.1 par.2 = Some r) pares res ∧
    ac_resultados ac' = ac_resultados ac ++ res ∧
    S_total ac' = S_total ac + suma (r_sustituciones <$> res) ∧
    D_total ac' = D_total ac + suma (r_eliminaciones <$> res) ∧
    I_total ac' = I_total ac + suma (r_inserciones <$> res) ∧
    N_total ac' = N_total ac + suma (r_palabras_referencia <$> res) ∧
    0 ≤ suma (r_palabras_referencia <$> res).
Proof.
  induction pares as [|[manual openai] pares IH]; intros i ac salida Hc.
  - exists ac, [], []. simpl. rewrite !app_nil_r, !Z.add_0_r.
    repeat split; done.
  - inversion Hc as [|? ? [Hm Ho] Hc']; subst. simpl in Hm, Ho.
    destruct (calcular_wer_no_falla manual openai Hm Ho) as (r & Hw & Hr0).
    simpl. rewrite Hw.
    match goal with |- context [procesar U _ _ ?ac1 ?sal1] =>
      destruct (IH (S i) ac1 sal1 Hc')
        as (ac' & lineas & res & -> & HF & Hr & HS & HD & HI & HN & Hpos)
    end.
    cbn [ac_resultados S_total D_total I_total N_total] in Hr, HS, HD, HI, HN.
    eexists ac', _, (r :: res). rewrite <- app_assoc. split; [done|].
    split; [constructor; [exact Hw|done]|].
    rewrite Hr, HS, HD, HI, HN, <- app_assoc.
    unfold suma in *. cbn [fmap list_fmap foldr app].
    split; [done|]. repeat split; lia.
Qed.

(** The scores of pairs that have neither reference words nor errors. *)
Lemma resultados_sin_palabras pares res :
  Forall (λ par, Z.of_nat (length (palabras U par.1)) < int64_max ∧
                 Z.of_nat (length (palabras U par.2)) < int64_max) pares →
  Forall2 (λ par r, calcular_wer U par.1 par.2 = Some r) pares res →
  suma (r_palabras_referencia <$> res) = 0 →
  suma (r_sustituciones <$> res) = 0 →
  suma (r_eliminaciones <$> res) = 0 →
  suma (r_inserciones <$> res) = 0 →
  Forall (λ r, r_wer r = Finito 0%Qc) res.
Proof.
  intros Hc HF HN HS HD HI.
  assert (Forall (λ r,
            0 ≤ r_sustituciones r ∧ 0 ≤ r_eliminaciones r ∧
            0 ≤ r_inserciones r ∧ 0 ≤ r_palabras_referencia r ∧
            (r_palabras_referencia r = 0 →
             r_sustituciones r = 0 → r_eliminaciones r = 0 →
             r_inserciones r = 0 → r_wer r = Finito 0%Qc)) res) as Hres.
  { clear HN HS HD HI. induction HF as [|[m o] r pares res Hr _ IH];
      [constructor|].
    inversion Hc as [|? ? [Hm Ho] Hc']; subst. simpl in *.
    constructor; [|by apply IH].
    by apply (calcular_wer_sin_referencia U m o Hm Ho). }
  apply suma_fmap_cero_inv in HN, HS, HD, HI;
    try (eapply Forall_impl; [exact Hres|]; simpl; intros; tauto).
  apply Forall_forall. intros r Hr.
  rewrite Forall_forall in Hres, HN, HS, HD, HI.
  apply (Hres r Hr); auto.
Qed.

(** The summary is always built: the division is guarded. *)
Lemma resumir_spec ac :
  ∃ r, resumir ac = Some r ∧
       wer_total r =
         (if 0 <? N_total ac
          then cociente (S_total ac + D_total ac + I_total ac) (N_total ac)
          else MasInf) ∧
       accuracy_total r = max0 (uno_menos (wer_total r)) ∧
       total_sustituciones r = S_total ac ∧
       total_eliminaciones r = D_total ac ∧
       total_inserciones r = I_total ac ∧
       total_errores r = S_total ac + D_total ac + I_total ac ∧
       total_palabras_referencia r = N_total ac ∧
       num_transcripciones r = length (ac_resultados ac) ∧
       resultados_individuales r = ac_resultados ac ∧
       wer_promedio r = np_mean (r_wer <$> ac_resultados ac).
Proof.
  unfold resumir, truediv.
  destruct (Z.ltb_spec 0 (N_total ac)) as [Hpos|Hle].
  - destruct (Z.eqb_spec (N_total ac) 0) as [?|_]; [lia|].
    eexists; split; [done|]. by repeat split.
  - eexists; split; [done|]. by repeat split.
Qed.

Variable disco : string → lectura.
Variables archivo_manual archivo_openai : string.
Let manual := (extraer_transcripciones U disco archivo_manual).1.
Let openai := (extraer_transcripciones U disco archivo_openai).1.
Let min_len := Nat.min (length manual) (length openai).
Hypothesis Hmanual : cortas U manual.
Hypothesis Hopenai : cortas U openai.

(** The whole function: what it prints first, what it returns, and the
    pairs it has scored. *)
Lemma calcular_wer_total_spec :
  ∃ ret resto,
    calcular_wer_total U disco archivo_manual archivo_openai =
      (Some ret,
       (extraer_transcripciones U disco archivo_manual).2 ++
       (extraer_transcripciones U disco archivo_openai).2 ++
       (igualar manual openai).2 ++ resto) ∧
    match ret with
    | Vacio => min_len = 0%nat ∧ resto = [ErrorSinTranscripciones]
    | Lleno r =>
        (0 < min_len)%nat ∧
        (∃ lineas, resto = Procesando min_len :: lineas) ∧
        num_transcripciones r = min_len ∧
        Forall2 (λ par res, calcular_wer U par.1 par.2 = Some res)
                (zip (take min_len manual) (take min_len openai))
                (resultados_individuales r) ∧
        total_errores r =
          total_sustituciones r + total_eliminaciones r + total_inserciones r ∧
        0 ≤ total_palabras_referencia r ∧
        total_palabras_referencia r =
          suma (r_palabras_referencia <$> resultados_individuales r) ∧
        wer_total r =
          (if 0 <? total_palabras_referencia r
           then cociente (total_errores r) (total_palabras_referencia r)
           else MasInf) ∧
        accuracy_total r = max0 (uno_menos (wer_total r)) ∧
        total_sustituciones r =
          suma (r_sustituciones <$> resultados_individuales r) ∧
        total_eliminaciones r =
          suma (r_eliminaciones <$> resultados_individuales r) ∧
        total_inserciones r =
          suma (r_inserciones <$> resultados_individuales r) ∧
        wer_promedio r = np_mean (r_wer <$> resultados_individuales r)
    end.
Proof.
  unfold calcular_wer_total.
  subst manual openai min_len.
  destruct (extraer_transcripciones U disco archivo_manual) as [ms s1].
  destruct (extraer_transcripciones U disco archivo_openai) as [os s2].
  cbn [fst snd] in *.
  assert (∃ ms' os', igualar ms os = (ms', os', (igualar ms os).2) ∧
            ms' = take (Nat.min (length ms) (length os)) ms ∧
            os' = take (Nat.min (length ms) (length os)) os)
    as (ms' & os' & Hig & Hms' & Hos').
  { unfold igualar. destruct (decide (length ms ≠ length os)) as [Hne|Heq].
    - by eexists _, _.
    - apply dec_stable in Heq. exists ms, os. split; [done|].
      split; symmetry; apply take_ge; lia. }
  rewrite Hig. cbn [snd].
  set (k := Nat.min (length ms) (length os)) in *.
  assert (length ms' = k) as Hlen.
  { rewrite Hms', length_take. lia. }
  destruct ms' as [|m0 ms''] eqn:Hms''.
  { exists Vacio, [ErrorSinTranscripciones]. rewrite <- !app_assoc.
    split; [done|]. simpl in Hlen. done. }
  assert (0 < k)%nat as Hk by (simpl in Hlen; lia).
  rewrite <- Hms'' in *. clear Hms''.
  destruct (procesar_spec (zip ms' os') 1 (Acumulado [] 0 0 0 0)
              ((s1 ++ s2 ++ (igualar ms os).2) ++ [Procesando (length ms')]))
    as (ac & lineas & res & Hp & HF & Hr & HS & HD & HI & HN & Hpos).
  { rewrite Hms', Hos'. apply cortas_zip; by apply Forall_take. }
  rewrite Hp. simpl in Hr, HS, HD, HI, HN.
  destruct (resumir_spec ac)
    as (r & -> & Hwt & Hat & Hts & Hte & Hti & Hto & Htp & Hnum & Hres & Hwp).
  exists (Lleno r), (Procesando (length ms') :: lineas).
  rewrite <- !app_assoc. split; [done|].
  assert (length res = k) as Hlres.
  { rewrite <- (Forall2_length _ _ _ HF), length_zip_with, Hms', Hos'.
    rewrite !length_take. lia. }
  split; [done|].
  split; [rewrite Hlen; by eexists|].
  rewrite Hat, Hnum, Hres, Hr, Hto, Hts, Hte, Hti, Htp, Hwt, HN, Hwp, HS, HD, HI.
  repeat split; try done; try lia.
  - by rewrite <- Hms', <- Hos'.
  - by rewrite Hr.
Qed.

End AgregadorCorrecto.

(** *** C3: the pooled rate of the corpus

    Whenever at least one pair is processed, [wer_total] is
    [(S_total + D_total + I_total) / N_total] when [N_total > 0], as
    Python computes it (the double nearest to the exact quotient), and
    [accuracy_total] is [max(0, 1 - wer_total)].  With [N_total = 0] the
    claim asks for 0 unless errors exist.  The program does not look at
    the errors: it returns the infinite value also when no error exists,
    where every pair was given rate [0.0] by [calcular_wer] and the mean
    of the rates is 0.  The second part runs the program on one pair of
    transcripts made of punctuation only. *)
Theorem wer_total_del_corpus :
  (∀ (U : tablas_unicode) (disco : string → lectura)
     (archivo_manual archivo_openai : string),
     let manual := (extraer_transcripciones U disco archivo_manual).1 in
     let openai := (extraer_transcripciones U disco archivo_openai).1 in
     manual ≠ [] → openai ≠ [] → cortas U manual → cortas U openai →
     ∃ r salida,
       calcular_wer_total U disco archivo_manual archivo_openai
         = (Some (Lleno r), salida) ∧
       total_errores r =
         total_sustituciones r + total_eliminaciones r + total_inserciones r ∧
       0 ≤ total_palabras_referencia r ∧
       (0 < total_palabras_referencia r →
        wer_total r =
          cociente (total_errores r) (total_palabras_referencia r)) ∧
       (total_palabras_referencia r = 0 →
        wer_total r = MasInf ∧
        (total_sustituciones r = 0 → total_eliminaciones r = 0 →
         total_inserciones r = 0 →
         Forall (λ res, r_wer res = Finito 0%Qc) (resultados_individuales r) ∧
         wer_promedio r = Finito 0%Qc)) ∧
       accuracy_total r = max0 (uno_menos (wer_total r))) ∧
  (∃ r salida,
     calcular_wer_total basic_latin disco_signos "manual.txt" "openai.txt"
       = (Some (Lleno r), salida) ∧
     num_transcripciones r = 1%nat ∧
     total_palabras_referencia r = 0 ∧
     total_errores r = 0 ∧
     r_wer <$> resultados_individuales r = [Finito 0%Qc] ∧
     wer_promedio r = Finito 0%Qc ∧
     wer_total r = MasInf ∧
     wer_total r ≠ Finito 0%Qc ∧
     accuracy_total r = Finito 0%Qc).
Proof.
  split.
  - intros U disco archivo_manual archivo_openai manual openai Hm Ho Hcm Hco.
    destruct (calcular_wer_total_spec U disco archivo_manual archivo_openai
                Hcm Hco) as (ret & resto & Heq & Hret).
    destruct ret as [|r].
    { destruct Hret as [Hmin _]. fold manual openai in Hmin.
      destruct manual, openai; simpl in Hmin; done. }
    destruct Hret
      as (Hmin & _ & Hnum & HF & He & HN & HNs & Hw & Ha & HS & HD & HI & Hwp).
    exists r. eexists. split; [exact Heq|]. split; [done|]. split; [done|].
    split; [|split; [|done]].
    + intros Hpos. rewrite Hw.
      by destruct (Z.ltb_spec 0 (total_palabras_referencia r)); [|lia].
    + intros H0. split; [by rewrite Hw, H0|]. intros HS0 HD0 HI0.
      assert (Forall (λ res, r_wer res = Finito 0%Qc)
                (resultados_individuales r)) as Hres.
      { eapply resultados_sin_palabras; [|exact HF|congruence..].
        apply cortas_zip; by apply Forall_take. }
      split; [done|]. rewrite Hwp. apply np_mean_ceros.
      * intros Hnil%fmap_nil_inv. apply Forall2_length in HF.
        rewrite Hnil, length_zip_with, !length_take in HF.
        simpl in HF. lia.
      * by apply Forall_fmap.
  - eexists. eexists. split; [vm_compute; reflexivity|].
    cbn [num_transcripciones total_palabras_referencia total_errores
         resultados_individuales wer_promedio wer_total accuracy_total
         fmap list_fmap r_wer].
    repeat split; try done. f_equal. by apply Qc_is_canon.
Qed.

Lemma wer_total_del_corpus_ejemplo :
  ∃ r salida,
    calcular_wer_total basic_latin disco_signos "manual.txt" "openai.txt"
      = (Some (Lleno r), salida) ∧
    total_errores r =
      total_sustituciones r + total_eliminaciones r + total_inserciones r ∧
    0 ≤ total_palabras_referencia r ∧
    (0 < total_palabras_referencia r →
     wer_total r =
       cociente (total_errores r) (total_palabras_referencia r)) ∧
    (total_palabras_referencia r = 0 →
     wer_total r = MasInf ∧
     (total_sustituciones r = 0 → total_eliminaciones r = 0 →
      total_inserciones r = 0 →
      Forall (λ res, r_wer res = Finito 0%Qc) (resultados_individuales r) ∧
      wer_promedio r = Finito 0%Qc)) ∧
    accuracy_total r = max0 (uno_menos (wer_total r)).
Proof.
  apply (proj1 wer_total_del_corpus basic_latin disco_signos
           "manual.txt" "openai.txt");
    [vm_compute; discriminate|vm_compute; discriminate
    |apply cortas_evaluadas; vm_compute; reflexivity..].
Defined.

(** *** C6: lists of different lengths are truncated to the shorter one

    When the two files give lists of different lengths, both lists are cut
    to the shorter length, keeping their order; the warning with the two
    original lengths is printed before anything else of the aggregation,
    nothing is raised, and exactly [min] pairs are scored: the [i]-th
    result is that of the [i]-th reference and the [i]-th hypothesis. *)
Theorem longitudes_distintas_truncan (U : tablas_unicode)
    (disco : string → lectura) (archivo_manual archivo_openai : string) :
  let manual := (extraer_transcripciones U disco archivo_manual).1 in
  let openai := (extraer_transcripciones U disco archivo_openai).1 in
  let min_len := Nat.min (length manual) (length openai) in
  length manual ≠ length openai → cortas U manual → cortas U openai →
  igualar manual openai =
    (take min_len manual, take min_len openai,
     [Advertencia; Longitudes (length manual) (length openai)]) ∧
  ∃ ret resto,
    calcular_wer_total U disco archivo_manual archivo_openai =
      (Some ret,
       (extraer_transcripciones U disco archivo_manual).2 ++
       (extraer_transcripciones U disco archivo_openai).2 ++
       [Advertencia; Longitudes (length manual) (length openai)] ++ resto) ∧
    match ret with
    | Vacio => min_len = 0%nat ∧ resto = [ErrorSinTranscripciones]
    | Lleno r =>
        (0 < min_len)%nat ∧
        (∃ lineas, resto = Procesando min_len :: lineas) ∧
        num_transcripciones r = min_len ∧
        Forall2 (λ par res, calcular_wer U par.1 par.2 = Some res)
                (zip (take min_len manual) (take min_len openai))
                (resultados_individuales r)
    end.
Proof.
  intros manual openai min_len Hne Hcm Hco.
  assert (igualar manual openai =
    (take min_len manual, take min_len openai,
     [Advertencia; Longitudes (length manual) (length openai)])) as Hig.
  { unfold igualar. by rewrite decide_True. }
  split; [done|].
  destruct (calcular_wer_total_spec U disco archivo_manual archivo_openai Hcm Hco)
    as (ret & resto & Heq & Hret).
  fold manual openai in Heq, Hret. rewrite Hig in Heq. cbn [snd] in Heq.
  exists ret, resto. split; [done|].
  destruct ret as [|r]; [done|].
  by destruct Hret as (? & ? & ? & ? & _).
Qed.

Lemma longitudes_distintas_truncan_ejemplo :
  ∃ r lineas,
    calcular_wer_total basic_latin disco_cinco_tres "manual.txt" "openai.txt" =
      (Some (Lleno r),
       [Advertencia; Longitudes 5 3] ++ Procesando 3 :: lineas) ∧
    num_transcripciones r = 3%nat.
Proof.
  destruct (longitudes_distintas_truncan basic_latin disco_cinco_tres
              "manual.txt" "openai.txt")
    as (_ & ret & resto & Heq & Hret);
    [vm_compute; lia|apply cortas_evaluadas; vm_compute; reflexivity..|].
  destruct ret as [|r].
  - exfalso. destruct Hret as [Hmin _]. vm_compute in Hmin. lia.
  - destruct Hret as (_ & (lineas & ->) & Hnum & _).
    exists r, lineas. split; [exact Heq|exact Hnum].
Defined.

(** * Further properties *)

(** ** The reference distance is a metric *)

Section LevenshteinMetrica.
Context {T : Type} `{!EqDecision T}.
Implicit Types a b c : list T.

Lemma guion_refl a : guion a a 0.
Proof. induction a; by constructor. Qed.

Lemma guion_0_eq a b k : guion a b k → k = 0%nat → a = b.
Proof. induction 1; intros Hk; try done. f_equal. auto. Qed.

Lemma guion_sym a b k : guion a b k → guion b a k.
Proof. induction 1; by constructor. Qed.

(** A script never has fewer edits than the difference of the lengths. *)
Lemma guion_longitudes a b k :
  guion a b k →
  (length a ≤ length b + k ∧ length b ≤ length a + k)%nat.
Proof. induction 1; simpl; lia. Qed.

(** Scripts compose. *)
Lemma guion_trans a b k :
  guion a b k → ∀ c k', guion b c k' →
  ∃ k'', (k'' ≤ k + k')%nat ∧ guion a c k''.
Proof.
  induction 1 as [|x a b k _ IH|x y a b k _ IH|x a b k _ IH|y a b k _ IH];
    intros c k' H2.
  - exists k'. split; [lia|done].
  - remember (x :: b) as xb eqn:Hxb. revert Hxb.
    induction H2 as [|x' b' c' k' H2 _|x' y' b' c' k' H2 _
                     |x' b' c' k' H2 _|y' b' c' k' H2 IH2]; intros Hxb.
    + done.
    + injection Hxb as -> ->. destruct (IH _ _ H2) as (k'' & ? & ?).
      exists k''. split; [lia|]. by constructor.
    + injection Hxb as -> ->. destruct (IH _ _ H2) as (k'' & ? & ?).
      exists (S k''). split; [lia|]. by constructor.
    + injection Hxb as -> ->. destruct (IH _ _ H2) as (k'' & ? & ?).
      exists (S k''). split; [lia|]. by constructor.
    + destruct (IH2 Hxb) as (k'' & ? & ?).
      exists (S k''). split; [lia|]. by constructor.
  - remember (y :: b) as yb eqn:Hyb. revert Hyb.
    induction H2 as [|x' b' c' k' H2 _|x' y' b' c' k' H2 _
                     |x' b' c' k' H2 _|y' b' c' k' H2 IH2]; intros Hyb.
    + done.
    + injection Hyb as -> ->. destruct (IH _ _ H2) as (k'' & ? & ?).
      exists (S k''). split; [lia|]. by constructor.
    + injection Hyb as -> ->. destruct (IH _ _ H2) as (k'' & ? & ?).
      exists (S k''). split; [lia|]. by constructor.
    + injection Hyb as -> ->. destruct (IH _ _ H2) as (k'' & ? & ?).
      exists (S k''). split; [lia|]. by constructor.
    + destruct (IH2 Hyb) as (k'' & ? & ?).
      exists (S k''). split; [lia|]. by constructor.
  - destruct (IH _ _ H2) as (k'' & ? & ?).
    exists (S k''). split; [lia|]. by constructor.
  - remember (y :: b) as yb eqn:Hyb. revert Hyb.
    induction H2 as [|x' b' c' k' H2 _|x' y' b' c' k' H2 _
                     |x' b' c' k' H2 _|y' b' c' k' H2 IH2]; intros Hyb.
    + done.
    + injection Hyb as -> ->. destruct (IH _ _ H2) as (k'' & ? & ?).
      exists (S k''). split; [lia|]. by constructor.
    + injection Hyb as -> ->. destruct (IH _ _ H2) as (k'' & ? & ?).
      exists (S k''). split; [lia|]. by constructor.
    + injection Hyb as -> ->. destruct (IH _ _ H2) as (k'' & ? & ?).
      exists k''. split; [lia|]. done.
    + destruct (IH2 Hyb) as (k'' & ? & ?).
      exists (S k''). split; [lia|]. by constructor.
Qed.

Lemma levenshtein_refl a : levenshtein a a = 0%nat.
Proof.
  pose proof (levenshtein_minimo a a 0 (guion_refl a)). lia.
Qed.

Lemma levenshtein_0_eq a b : levenshtein a b = 0%nat → a = b.
Proof.
  intros H. apply (guion_0_eq a b (levenshtein a b)); [|done].
  apply levenshtein_guion.
Qed.

Lemma levenshtein_sym a b : levenshtein a b = levenshtein b a.
Proof.
  apply Nat.le_antisymm; apply levenshtein_minimo, guion_sym, levenshtein_guion.
Qed.

Lemma levenshtein_triangulo a b c :
  (levenshtein a c ≤ levenshtein a b + levenshtein b c)%nat.
Proof.
  destruct (guion_trans a b _ (levenshtein_guion a b) c _ (levenshtein_guion b c))
    as (k & Hk & Hg).
  pose proof (levenshtein_minimo a c k Hg). lia.
Qed.

Lemma levenshtein_longitudes a b :
  (length a ≤ length b + levenshtein a b ∧
   length b ≤ length a + levenshtein a b)%nat.
Proof. apply guion_longitudes, levenshtein_guion. Qed.

End LevenshteinMetrica.

(** ** More on the counts of the alignment *)

Section CuentasAlineacion.
Context {T : Type} `{!EqDecision T}.
Variables ref hyp : list T.

(** Substitutions and deletions consume reference tokens, substitutions
    and insertions consume hypothesis tokens. *)
Lemma camino_spec_consumo i j s d k :
  camino_spec ref hyp i j (s, d, k) →
  s + d ≤ Z.of_nat i ∧ s + k ≤ Z.of_nat j.
Proof.
  intros H. remember (s, d, k) as c eqn:Hc. revert s d k Hc.
  induction H as [|i j c _ _ IH|i j s0 d0 k0 _ _ _ IH
                  |i j s0 d0 k0 _ _ _ _ IH|i j s0 d0 k0 _ _ _ _ _ IH];
    intros s d k Hc; simplify_eq.
  - lia.
  - specialize (IH _ _ _ eq_refl). lia.
  - specialize (IH _ _ _ eq_refl). lia.
  - specialize (IH _ _ _ eq_refl). lia.
  - specialize (IH _ _ _ eq_refl). lia.
Qed.

Lemma tabla_spec_prefijos i j :
  (i ≤ length ref)%nat → (j ≤ length hyp)%nat →
  tabla_spec ref hyp i j = Z.of_nat (levenshtein (take i ref) (take j hyp)).
Proof.
  intros Hi Hj. rewrite tabla_spec_levenshtein by done.
  by rewrite levenshtein_reverse.
Qed.

End CuentasAlineacion.

(** *** X1: no edit operation exactly on equal lists

    [calcular_distancia_edicion] returns [S + D + I = 0] if and only if
    the two token lists are equal, and then each count is 0. *)
Theorem sin_ediciones_sii_iguales {T : Type} `{!EqDecision T}
    (ref hyp : list T) :
  Z.of_nat (length ref) < int64_max →
  Z.of_nat (length hyp) < int64_max →
  ∃ s d k dp,
    calcular_distancia_edicion ref hyp = Some (s, d, k, dp) ∧
    (s + d + k = 0 ↔ ref = hyp) ∧
    (ref = hyp → s = 0 ∧ d = 0 ∧ k = 0).
Proof.
  intros Hn Hm.
  destruct (calcular_distancia_edicion_spec ref hyp Hn Hm)
    as (s & d & k & dp & Hc & _ & Hw).
  exists s, d, k, dp. split; [done|].
  pose proof (camino_spec_cuentas ref hyp _ _ _ _ _ Hw) as (? & ? & ? & Hs & _).
  rewrite tabla_spec_total in Hs.
  assert (s + d + k = 0 ↔ ref = hyp) as Hiff.
  { split.
    - intros Hcero. apply levenshtein_0_eq. lia.
    - intros ->. rewrite levenshtein_refl in Hs. lia. }
  split; [done|]. intros Heq. apply Hiff in Heq. lia.
Qed.

Lemma sin_ediciones_sii_iguales_ejemplo :
  ∃ s d k dp,
    calcular_distancia_edicion [3; 1; 4; 1; 5]%nat [3; 1; 4; 1; 5]%nat
      = Some (s, d, k, dp) ∧
    (s + d + k = 0 ↔ [3; 1; 4; 1; 5]%nat = [3; 1; 4; 1; 5]%nat) ∧
    ([3; 1; 4; 1; 5]%nat = [3; 1; 4; 1; 5]%nat → s = 0 ∧ d = 0 ∧ k = 0).
Proof.
  apply (sin_ediciones_sii_iguales [3; 1; 4; 1; 5]%nat [3; 1; 4; 1; 5]%nat);
    reflexivity.
Defined.

(** *** X2: the total is symmetric

    Exchanging reference and hypothesis leaves [S + D + I] unchanged and
    exchanges the excess of deletions over insertions. *)
Theorem total_simetrico {T : Type} `{!EqDecision T} (ref hyp : list T) :
  Z.of_nat (length ref) < int64_max →
  Z.of_nat (length hyp) < int64_max →
  ∃ s d k dp s' d' k' dp',
    calcular_distancia_edicion ref hyp = Some (s, d, k, dp) ∧
    calcular_distancia_edicion hyp ref = Some (s', d', k', dp') ∧
    s + d + k = s' + d' + k' ∧
    d - k = k' - d'.
Proof.
  intros Hn Hm.
  destruct (calcular_distancia_edicion_spec ref hyp Hn Hm)
    as (s & d & k & dp & Hc & _ & Hw).
  destruct (calcular_distancia_edicion_spec hyp ref Hm Hn)
    as (s' & d' & k' & dp' & Hc' & _ & Hw').
  exists s, d, k, dp, s', d', k', dp'. split; [done|]. split; [done|].
  pose proof (camino_spec_cuentas _ _ _ _ _ _ _ Hw) as (_ & _ & _ & Hs & Hd).
  pose proof (camino_spec_cuentas _ _ _ _ _ _ _ Hw') as (_ & _ & _ & Hs' & Hd').
  rewrite tabla_spec_total in Hs, Hs'.
  rewrite (levenshtein_sym hyp ref) in Hs'. lia.
Qed.

Lemma total_simetrico_ejemplo :
  ∃ s d k dp s' d' k' dp',
    calcular_distancia_edicion [1; 2; 3; 4]%nat [2; 4; 5]%nat
      = Some (s, d, k, dp) ∧
    calcular_distancia_edicion [2; 4; 5]%nat [1; 2; 3; 4]%nat
      = Some (s', d', k', dp') ∧
    s + d + k = s' + d' + k' ∧
    d - k = k' - d'.
Proof.
  apply (total_simetrico [1; 2; 3; 4]%nat [2; 4; 5]%nat); reflexivity.
Defined.

(** *** X3: the total satisfies the triangle inequality

    The total of [a] against [c] is at most the total of [a] against [b]
    plus the total of [b] against [c]. *)
Theorem total_triangular {T : Type} `{!EqDecision T} (a b c : list T) :
  Z.of_nat (length a) < int64_max →
  Z.of_nat (length b) < int64_max →
  Z.of_nat (length c) < int64_max →
  ∃ s1 d1 k1 dp1 s2 d2 k2 dp2 s3 d3 k3 dp3,
    calcular_distancia_edicion a c = Some (s1, d1, k1, dp1) ∧
    calcular_distancia_edicion a b = Some (s2, d2, k2, dp2) ∧
    calcular_distancia_edicion b c = Some (s3, d3, k3, dp3) ∧
    s1 + d1 + k1 ≤ (s2 + d2 + k2) + (s3 + d3 + k3).
Proof.
  intros Ha Hb Hc.
  destruct (calcular_distancia_edicion_spec a c Ha Hc)
    as (s1 & d1 & k1 & dp1 & H1 & _ & Hw1).
  destruct (calcular_distancia_edicion_spec a b Ha Hb)
    as (s2 & d2 & k2 & dp2 & H2 & _ & Hw2).
  destruct (calcular_distancia_edicion_spec b c Hb Hc)
    as (s3 & d3 & k3 & dp3 & H3 & _ & Hw3).
  exists s1, d1, k1, dp1, s2, d2, k2, dp2, s3, d3, k3, dp3.
  do 3 (split; [done|]).
  pose proof (camino_spec_cuentas _ _ _ _ _ _ _ Hw1) as (_ & _ & _ & E1 & _).
  pose proof (camino_spec_cuentas _ _ _ _ _ _ _ Hw2) as (_ & _ & _ & E2 & _).
  pose proof (camino_spec_cuentas _ _ _ _ _ _ _ Hw3) as (_ & _ & _ & E3 & _).
  rewrite tabla_spec_total in E1, E2, E3.
  pose proof (levenshtein_triangulo a b c). lia.
Qed.

Lemma total_triangular_ejemplo :
  ∃ s1 d1 k1 dp1 s2 d2 k2 dp2 s3 d3 k3 dp3,
    calcular_distancia_edicion [1; 2; 3]%nat [4; 2; 3; 5]%nat
      = Some (s1, d1, k1, dp1) ∧
    calcular_distancia_edicion [1; 2; 3]%nat [2; 3]%nat
      = Some (s2, d2, k2, dp2) ∧
    calcular_distancia_edicion [2; 3]%nat [4; 2; 3; 5]%nat
      = Some (s3, d3, k3, dp3) ∧
    s1 + d1 + k1 ≤ (s2 + d2 + k2) + (s3 + d3 + k3).
Proof.
  apply (total_triangular [1; 2; 3]%nat [2; 3]%nat [4; 2; 3; 5]%nat);
    reflexivity.
Defined.

(** *** X4: bounds on the counts

    The total lies between the difference of the two lengths and the
    larger of them; substitutions plus deletions do not exceed the
    reference length, substitutions plus insertions do not exceed the
    hypothesis length. *)
Theorem cotas_de_las_cuentas {T : Type} `{!EqDecision T} (ref hyp : list T) :
  Z.of_nat (length ref) < int64_max →
  Z.of_nat (length hyp) < int64_max →
  ∃ s d k dp,
    calcular_distancia_edicion ref hyp = Some (s, d, k, dp) ∧
    Z.abs (Z.of_nat (length ref) - Z.of_nat (length hyp)) ≤ s + d + k ∧
    s + d + k ≤ Z.max (Z.of_nat (length ref)) (Z.of_nat (length hyp)) ∧
    s + d ≤ Z.of_nat (length ref) ∧
    s + k ≤ Z.of_nat (length hyp).
Proof.
  intros Hn Hm.
  destruct (calcular_distancia_edicion_spec ref hyp Hn Hm)
    as (s & d & k & dp & Hc & _ & Hw).
  exists s, d, k, dp. split; [done|].
  pose proof (camino_spec_cuentas _ _ _ _ _ _ _ Hw) as (_ & _ & _ & Hs & _).
  pose proof (camino_spec_consumo _ _ _ _ _ _ _ Hw) as [? ?].
  rewrite tabla_spec_total in Hs.
  pose proof (levenshtein_longitudes ref hyp).
  pose proof (levenshtein_bound ref hyp). lia.
Qed.

Lemma cotas_de_las_cuentas_ejemplo :
  ∃ s d k dp,
    calcular_distancia_edicion [1; 2; 3; 4; 5; 6]%nat [7; 2]%nat
      = Some (s, d, k, dp) ∧
    Z.abs (Z.of_nat (length [1; 2; 3; 4; 5; 6]%nat)
           - Z.of_nat (length [7; 2]%nat)) ≤ s + d + k ∧
    s + d + k ≤ Z.max (Z.of_nat (length [1; 2; 3; 4; 5; 6]%nat))
                      (Z.of_nat (length [7; 2]%nat)) ∧
    s + d ≤ Z.of_nat (length [1; 2; 3; 4; 5; 6]%nat) ∧
    s + k ≤ Z.of_nat (length [7; 2]%nat).
Proof.
  apply (cotas_de_las_cuentas [1; 2; 3; 4; 5; 6]%nat [7; 2]%nat); reflexivity.
Defined.

(** *** X5: the matrix that is returned

    The fourth component returned by [calcular_distancia_edicion] has
    [n + 1] rows of [m + 1] cells; cell [(i, j)] is the Levenshtein
    distance between the first [i] reference tokens and the first [j]
    hypothesis tokens, and the last cell is [S + D + I]. *)
Theorem matriz_devuelta {T : Type} `{!EqDecision T} (ref hyp : list T) :
  Z.of_nat (length ref) < int64_max →
  Z.of_nat (length hyp) < int64_max →
  ∃ s d k dp,
    calcular_distancia_edicion ref hyp = Some (s, d, k, dp) ∧
    length dp = S (length ref) ∧
    Forall (λ fila, length fila = S (length hyp)) dp ∧
    (∀ i j, (i ≤ length ref)%nat → (j ≤ length hyp)%nat →
       getitem dp i j =
         Some (Z.of_nat (levenshtein (take i ref) (take j hyp)))) ∧
    getitem dp (length ref) (length hyp) = Some (s + d + k).
Proof.
  intros Hn Hm.
  destruct (calcular_distancia_edicion_spec ref hyp Hn Hm)
    as (s & d & k & dp & Hc & [[Hf1 Hf2] Hl] & Hw).
  exists s, d, k, dp. split; [done|]. split; [done|]. split; [done|].
  pose proof (camino_spec_cuentas _ _ _ _ _ _ _ Hw) as (_ & _ & _ & Hs & _).
  split.
  - intros i j Hi Hj. rewrite Hl by done. by rewrite tabla_spec_prefijos.
  - rewrite Hl by done. by rewrite Hs.
Qed.

Lemma matriz_devuelta_ejemplo :
  ∃ s d k dp,
    calcular_distancia_edicion [1; 2]%nat [2; 1; 5]%nat = Some (s, d, k, dp) ∧
    length dp = 3%nat ∧
    Forall (λ fila, length fila = 4%nat) dp ∧
    (∀ i j, (i ≤ 2)%nat → (j ≤ 3)%nat →
       getitem dp i j =
         Some (Z.of_nat (levenshtein (take i [1; 2]%nat)
                                     (take j [2; 1; 5]%nat)))) ∧
    getitem dp 2 3 = Some (s + d + k).
Proof.
  apply (matriz_devuelta [1; 2]%nat [2; 1; 5]%nat); reflexivity.
Defined.

(** ** Stripping and splitting *)

Section TextoProps.
Variable U : tablas_unicode.
Implicit Types (t l w : list N) (c : N).

Lemma lstrip_descompone t :
  ∃ pre, t = pre ++ lstrip U t ∧ Forall (λ c, u_space U c = true) pre.
Proof.
  induction t as [|c t (pre & Ht & Hpre)]; simpl.
  - by exists [].
  - destruct (u_space U c) eqn:Hc.
    + exists (c :: pre). split; [simpl; congruence|by constructor].
    + by exists [].
Qed.

Lemma rstrip_descompone t :
  ∃ post, t = rstrip U t ++ post ∧ Forall (λ c, u_space U c = true) post.
Proof.
  induction t as [|c t (post & Ht & Hpost)]; simpl.
  - by exists [].
  - destruct (rstrip U t) as [|c' r] eqn:Hr.
    + destruct (u_space U c) eqn:Hc.
      * exists (c :: post). simpl in Ht. split; [simpl; congruence|by constructor].
      * exists post. simpl in *. split; [congruence|done].
    + exists post. split; [|done]. simpl in *. congruence.
Qed.

Lemma rstrip_final t c : last (rstrip U t) = Some c → u_space U c = false.
Proof.
  induction t as [|c0 t IH]; simpl; [done|].
  destruct (rstrip U t) as [|c' r] eqn:Hr.
  - destruct (u_space U c0) eqn:Hc0; simpl; [done|]. by intros [= <-].
  - intros H. apply IH. by rewrite last_cons_cons in H.
Qed.

Lemma rstrip_fijo t :
  (∀ c, last t = Some c → u_space U c = false) → rstrip U t = t.
Proof.
  induction t as [|c t IH]; simpl; [done|]. intros H.
  destruct t as [|c' t'].
  - simpl. by rewrite (H c).
  - rewrite IH; [done|]. intros c0 Hc0. apply H. by rewrite last_cons_cons.
Qed.

(** [split_ws] cuts the text at its whitespace and keeps everything
    else, in order. *)
Lemma split_ws_spec t : ∀ actual,
  Forall (λ c, u_space U c = false) actual →
  Forall (λ w, w ≠ [] ∧ Forall (λ c, u_space U c = false) w) (split_ws U actual t) ∧
  concat (split_ws U actual t) =
    reverse actual ++ List.filter (λ c, negb (u_space U c)) t.
Proof.
  induction t as [|c t IH]; intros actual Hact; simpl.
  - destruct actual as [|a actual'].
    + by split.
    + split.
      * repeat constructor.
        -- intros Hr. apply (f_equal length) in Hr.
           by rewrite length_reverse in Hr.
        -- by apply Forall_reverse.
      * simpl. by rewrite !app_nil_r.
  - destruct (u_space U c) eqn:Hc; simpl.
    + destruct (IH [] ltac:(constructor)) as [IH1 IH2].
      destruct actual as [|a actual'].
      * by split.
      * split.
        -- constructor; [|done]. split.
           ++ intros Hr. apply (f_equal length) in Hr.
              by rewrite length_reverse in Hr.
           ++ by apply Forall_reverse.
        -- simpl. rewrite IH2. by rewrite reverse_nil.
    + destruct (IH (c :: actual) ltac:(by constructor)) as [IH1 IH2].
      split; [done|]. rewrite IH2, reverse_cons, <- app_assoc. done.
Qed.

End TextoProps.

(** *** X6: what [strip] removes

    [strip] removes a run of whitespace at each end and nothing else: the
    text is a whitespace prefix, the result, and a whitespace suffix, and
    the result neither starts nor ends with whitespace. *)
Theorem strip_solo_quita_espacios (U : tablas_unicode) (t : list N) :
  ∃ pre post,
    t = pre ++ strip U t ++ post ∧
    Forall (λ c, u_space U c = true) pre ∧
    Forall (λ c, u_space U c = true) post ∧
    (∀ c, head (strip U t) = Some c → u_space U c = false) ∧
    (∀ c, last (strip U t) = Some c → u_space U c = false).
Proof.
  destruct (lstrip_descompone U t) as (pre & Ht & Hpre).
  destruct (rstrip_descompone U (lstrip U t)) as (post & Hl & Hpost).
  exists pre, post. unfold strip. split; [by rewrite <- Hl|].
  split; [done|]. split; [done|]. split.
  - pose proof (rstrip_inicial U _ (lstrip_inicial U t)) as H.
    destruct (rstrip U (lstrip U t)); simpl; [done|]. by intros c [= <-].
  - apply rstrip_final.
Qed.

(** *** X7: what [split] returns

    The words returned by [split] are non-empty and free of whitespace,
    and put end to end they are the text without its whitespace. *)
Theorem split_quita_los_espacios (U : tablas_unicode) (t : list N) :
  Forall (λ w, w ≠ [] ∧ Forall (λ c, u_space U c = false) w) (split U t) ∧
  concat (split U t) = List.filter (λ c, negb (u_space U c)) t.
Proof. apply (split_ws_spec U t []). constructor. Qed.

(** ** The normalised text and its words *)

Section TextoNormalizado.
Variable U : tablas_unicode.
Hypothesis Hsp : u_space U SP = true.
Implicit Types (t l w : list N) (c : N).

Lemma sub_espacios_espaciado l : ∀ b, espaciado U b (sub_espacios U b l).
Proof.
  induction l as [|c l IH]; intros b; simpl; [done|].
  destruct (u_space U c) eqn:Hc.
  - destruct b; [apply IH|]. simpl. rewrite Hsp. repeat split. apply IH.
  - simpl. rewrite Hc. apply IH.
Qed.

Lemma sub_espacios_Forall (P : N → Prop) l : ∀ b,
  P SP → Forall (λ c, u_space U c = false → P c) l →
  Forall P (sub_espacios U b l).
Proof.
  intros b HSP Hl. revert b.
  induction Hl as [|c l Hc _ IH]; intros b; simpl; [constructor|].
  destruct (u_space U c) eqn:Hsc.
  - destruct b; [apply IH|]. constructor; [done|apply IH].
  - constructor; [by apply Hc|apply IH].
Qed.

Lemma espaciado_sin_doble a : ∀ b b', ¬ espaciado U b (a ++ SP :: SP :: b').
Proof.
  induction a as [|c a IH]; intros b b'; cbn [app espaciado].
  - rewrite Hsp. by intros (_ & _ & [? _]).
  - destruct (u_space U c).
    + intros (_ & _ & H). by apply IH in H.
    + apply IH.
Qed.

Lemma normalizar_texto_caracteres t :
  Forall (caracter_normal U) (normalizar_texto U t).
Proof.
  unfold normalizar_texto, strip.
  apply rstrip_Forall, lstrip_Forall, sub_espacios_Forall; [by left|].
  unfold sub_no_palabra. apply Forall_map, Forall_forall. intros c Hc. simpl.
  apply list_elem_of_In, filter_In in Hc. destruct Hc as [_ HMn].
  apply negb_true_iff in HMn.
  destruct (u_word U c) eqn:Hw; simpl.
  { intros Hs. by right. }
  destruct (u_space U c) eqn:Hs; [congruence|]. intros _. by left.
Qed.

Lemma normalizar_texto_espaciado t :
  espaciado U false (normalizar_texto U t) ∧
  sin_espacio_inicial U (normalizar_texto U t) ∧
  (∀ c, last (normalizar_texto U t) = Some c → u_space U c = false).
Proof.
  unfold normalizar_texto, strip. split; [|split].
  - apply rstrip_espaciado, (lstrip_espaciado U _ false), sub_espacios_espaciado.
  - apply rstrip_inicial, lstrip_inicial.
  - apply rstrip_final.
Qed.

Lemma split_ws_no_vacio l : ∀ actual,
  (actual ≠ [] ∨ ∃ c l', l = c :: l' ∧ u_space U c = false) →
  split_ws U actual l ≠ [].
Proof.
  induction l as [|c l IH]; intros actual H; simpl.
  - destruct H as [H|(? & ? & ? & _)]; [|done]. by destruct actual.
  - destruct (u_space U c) eqn:Hc.
    + destruct H as [H|(? & ? & [= <- <-] & ?)]; [|congruence].
      by destruct actual.
    + apply IH. by left.
Qed.

(** Joining the words of a well-spaced text with single spaces gives the
    text back. *)
Lemma unir_split_ws l : ∀ b actual,
  espaciado U b l →
  (∀ c, last l = Some c → u_space U c = false) →
  (actual = [] → sin_espacio_inicial U l) →
  unir [SP] (split_ws U actual l) = reverse actual ++ l.
Proof.
  induction l as [|c l IH]; intros b actual He Hfin Hini; simpl.
  - destruct actual as [|a actual']; [done|]. simpl. by rewrite !app_nil_r.
  - simpl in He. destruct (u_space U c) eqn:Hc.
    + destruct He as (-> & -> & He).
      destruct actual as [|a actual'].
      { specialize (Hini eq_refl). simpl in Hini. congruence. }
      destruct l as [|c' l'].
      { specialize (Hfin SP eq_refl). congruence. }
      assert (u_space U c' = false) as Hc'.
      { simpl in He. destruct (u_space U c'); [by destruct He|done]. }
      pose proof (split_ws_no_vacio (c' :: l') []
                    (or_intror (ex_intro _ c' (ex_intro _ l' (conj eq_refl Hc')))))
        as Hne.
      specialize (IH true [] He).
      rewrite reverse_nil in IH. simpl app in IH.
      destruct (split_ws U [] (c' :: l')) as [|w ws] eqn:Hsplit; [done|].
      cbn [unir flat_map]. cbn [unir] in IH. rewrite <- app_assoc.
      f_equal. simpl. f_equal. apply IH.
      * intros c0 Hc0. apply Hfin. by rewrite last_cons_cons.
      * intros _. simpl. done.
    + destruct l as [|c' l'].
      { simpl. rewrite !app_nil_r. by rewrite reverse_cons. }
      rewrite (IH false (c :: actual) He).
      * by rewrite reverse_cons, <- app_assoc.
      * intros c0 Hc0. apply Hfin. by rewrite last_cons_cons.
      * done.
Qed.

End TextoNormalizado.

(** *** X8: the shape of a normalised text

    Every character of [normalizar_texto(t)] is the space or a word
    character that is neither whitespace nor a combining mark; the text
    has no two spaces in a row and no space at either end. *)
Theorem forma_del_texto_normalizado (U : tablas_unicode) (t : list N) :
  u_space U SP = true →
  Forall (λ c, c = SP ∨
               (u_word U c = true ∧ u_space U c = false ∧ u_Mn U c = false))
         (normalizar_texto U t) ∧
  (∀ a b, normalizar_texto U t ≠ a ++ SP :: SP :: b) ∧
  (∀ l, normalizar_texto U t ≠ SP :: l) ∧
  (∀ l, normalizar_texto U t ≠ l ++ [SP]).
Proof.
  intros Hsp.
  destruct (normalizar_texto_espaciado U Hsp t) as (He & Hini & Hfin).
  split; [apply normalizar_texto_caracteres|]. split; [|split].
  - intros a b Heq. rewrite Heq in He. by apply espaciado_sin_doble in He.
  - intros l Heq. rewrite Heq in Hini. simpl in Hini. congruence.
  - intros l Heq. specialize (Hfin SP). rewrite Heq, last_snoc in Hfin.
    specialize (Hfin eq_refl). congruence.
Qed.

Lemma forma_del_texto_normalizado_ejemplo :
  Forall (λ c, c = SP ∨
               (u_word basic_latin c = true ∧ u_space basic_latin c = false
                ∧ u_Mn basic_latin c = false))
         (normalizar_texto basic_latin (literal " Hola,  Mundo! ")) ∧
  (∀ a b, normalizar_texto basic_latin (literal " Hola,  Mundo! ")
          ≠ a ++ SP :: SP :: b) ∧
  (∀ l, normalizar_texto basic_latin (literal " Hola,  Mundo! ") ≠ SP :: l) ∧
  (∀ l, normalizar_texto basic_latin (literal " Hola,  Mundo! ") ≠ l ++ [SP]).
Proof.
  apply (forma_del_texto_normalizado basic_latin (literal " Hola,  Mundo! ")).
  reflexivity.
Defined.

(** *** X9: the tokens of a transcript

    Every token that the scorer aligns is a non-empty sequence of word
    characters (no whitespace, no combining mark). *)
Theorem palabras_bien_formadas (U : tablas_unicode) (t : list N) :
  u_space U SP = true →
  Forall (λ w, w ≠ [] ∧
               Forall (λ c, u_word U c = true ∧ u_space U c = false
                            ∧ u_Mn U c = false) w)
         (palabras U t).
Proof.
  intros Hsp. unfold palabras.
  destruct (split_ws_spec U (normalizar_texto U t) []) as [Hw Hcat];
    [constructor|].
  fold (split U (normalizar_texto U t)) in Hw, Hcat.
  apply Forall_forall. intros w Hin.
  pose proof (proj1 (Forall_forall _ _) Hw w Hin) as [Hne Hns].
  split; [done|]. apply Forall_forall. intros c Hc.
  assert (In c (normalizar_texto U t)) as Hr.
  { assert (In c (concat (split U (normalizar_texto U t)))) as Hcc.
    { apply in_concat. exists w. split; by apply list_elem_of_In. }
    rewrite Hcat in Hcc. simpl in Hcc. by apply filter_In in Hcc as [? _]. }
  apply list_elem_of_In in Hr.
  pose proof (proj1 (Forall_forall _ _) (normalizar_texto_caracteres U t) c Hr)
    as [->|?]; [|done].
  pose proof (proj1 (Forall_forall _ _) Hns SP Hc). simpl in *. congruence.
Qed.

Lemma palabras_bien_formadas_ejemplo :
  Forall (λ w, w ≠ [] ∧
               Forall (λ c, u_word basic_latin c = true
                            ∧ u_space basic_latin c = false
                            ∧ u_Mn basic_latin c = false) w)
         (palabras basic_latin (literal " Hola,  Mundo! ")).
Proof.
  apply (palabras_bien_formadas basic_latin (literal " Hola,  Mundo! ")).
  reflexivity.
Defined.

(** *** X10: a normalised text is its tokens joined by single spaces

    [' '.join(normalizar_texto(t).split())] is [normalizar_texto(t)]. *)
Theorem texto_normalizado_es_union (U : tablas_unicode) (t : list N) :
  u_space U SP = true →
  unir [SP] (palabras U t) = normalizar_texto U t.
Proof.
  intros Hsp. unfold palabras, split.
  destruct (normalizar_texto_espaciado U Hsp t) as (He & Hini & Hfin).
  by rewrite (unir_split_ws U _ false []).
Qed.

Lemma texto_normalizado_es_union_ejemplo :
  unir [SP] (palabras basic_latin (literal " Hola,  Mundo! "))
  = normalizar_texto basic_latin (literal " Hola,  Mundo! ").
Proof.
  apply (texto_normalizado_es_union basic_latin (literal " Hola,  Mundo! ")).
  reflexivity.
Defined.

(** ** Paragraphs *)

Section Parrafos.
Implicit Types (t l p : list N) (c : N).

Lemma split_parrafos_cons2 actual c c' l :
  split_parrafos actual (c :: c' :: l) =
    if (c =? LF)%N && (c' =? LF)%N
    then reverse actual :: split_parrafos [] l
    else split_parrafos (c :: actual) (c' :: l).
Proof. reflexivity. Qed.

Lemma split_parrafos_no_vacio l : ∀ actual, split_parrafos actual l ≠ [].
Proof.
  induction l as [l IH] using (induction_ltof1 _ (@length N)).
  unfold ltof in IH. intros actual.
  destruct l as [|c [|c' l'']]; [done..|].
  rewrite split_parrafos_cons2.
  destruct ((c =? LF)%N && (c' =? LF)%N); [done|].
  apply IH. simpl. lia.
Qed.

Lemma unir_cons sep t ts :
  ts ≠ [] → unir sep (t :: ts) = t ++ sep ++ unir sep ts.
Proof.
  destruct ts as [|t' ts']; [done|]. intros _. simpl.
  by rewrite <- app_assoc.
Qed.

Lemma unir_split_parrafos l : ∀ actual,
  unir [LF; LF] (split_parrafos actual l) = reverse actual ++ l.
Proof.
  induction l as [l IH] using (induction_ltof1 _ (@length N)).
  unfold ltof in IH. intros actual.
  destruct l as [|c [|c' l'']].
  - simpl. by rewrite !app_nil_r.
  - simpl. rewrite app_nil_r. by rewrite reverse_cons.
  - rewrite split_parrafos_cons2.
    destruct ((c =? LF)%N && (c' =? LF)%N) eqn:Hcc.
    + apply andb_true_iff in Hcc as [->%N.eqb_eq ->%N.eqb_eq].
      rewrite unir_cons by apply split_parrafos_no_vacio.
      rewrite (IH l'') by (simpl; lia). by rewrite reverse_nil.
    + rewrite (IH (c' :: l'')) by (simpl; lia).
      by rewrite reverse_cons, <- app_assoc.
Qed.

Lemma sin_linea_en_blanco_snoc l c :
  sin_linea_en_blanco l → (last l = Some LF → c ≠ LF) →
  sin_linea_en_blanco (l ++ [c]).
Proof.
  intros Hl Hc a b Heq.
  destruct b as [|y b' _] using rev_ind.
  - change (a ++ [LF; LF]) with (a ++ [LF] ++ [LF]) in Heq.
    rewrite app_assoc in Heq. apply app_inj_tail in Heq as [-> ->].
    apply Hc; [|done]. by rewrite last_snoc.
  - change (a ++ LF :: LF :: b' ++ [y]) with (a ++ (LF :: LF :: b') ++ [y]) in Heq.
    rewrite app_assoc in Heq. apply app_inj_tail in Heq as [-> _].
    by apply (Hl a b').
Qed.

Lemma sin_linea_en_blanco_nil : sin_linea_en_blanco [].
Proof. intros a b H. by destruct a. Qed.

Lemma sin_linea_en_blanco_cons c l :
  sin_linea_en_blanco (c :: l) → sin_linea_en_blanco l.
Proof. intros H a b ->. by apply (H (c :: a) b). Qed.

Lemma sin_linea_en_blanco_medio pre l post :
  sin_linea_en_blanco (pre ++ l ++ post) → sin_linea_en_blanco l.
Proof.
  intros H a b ->. apply (H (pre ++ a) (b ++ post)).
  by rewrite <- !app_assoc.
Qed.

(** No piece of [split_parrafos] contains two line feeds in a row. *)
Lemma split_parrafos_sin_blanco l : ∀ actual,
  sin_linea_en_blanco (reverse actual) →
  (∀ actual' l', actual = LF :: actual' → l ≠ LF :: l') →
  Forall sin_linea_en_blanco (split_parrafos actual l).
Proof.
  induction l as [l IH] using (induction_ltof1 _ (@length N)).
  unfold ltof in IH. intros actual Hact Hjunta.
  assert (∀ c l', l = c :: l' → sin_linea_en_blanco (reverse (c :: actual)))
    as Hpush.
  { intros c l' ->. rewrite reverse_cons.
    apply sin_linea_en_blanco_snoc; [done|].
    intros Hlast ->. rewrite last_reverse in Hlast.
    destruct actual as [|a actual']; [done|]. simpl in Hlast.
    injection Hlast as ->. by eapply Hjunta. }
  destruct l as [|c [|c' l'']].
  - by repeat constructor.
  - simpl. repeat constructor. by eapply Hpush.
  - rewrite split_parrafos_cons2.
    destruct ((c =? LF)%N && (c' =? LF)%N) eqn:Hcc.
    + constructor; [done|]. apply IH; [simpl; lia| |done].
      rewrite reverse_nil. apply sin_linea_en_blanco_nil.
    + apply IH; [simpl; lia|by eapply Hpush|].
      intros actual' l' [= -> <-] [= -> ->].
      by rewrite N.eqb_refl in Hcc.
Qed.

(** A text without a blank line is a single piece ... *)
Lemma split_parrafos_uno t : ∀ actual,
  sin_linea_en_blanco t → split_parrafos actual t = [reverse actual ++ t].
Proof.
  induction t as [|c t IH]; intros actual Ht.
  - simpl. by rewrite app_nil_r.
  - destruct t as [|c' t'].
    + simpl. by rewrite reverse_cons.
    + rewrite split_parrafos_cons2.
      destruct ((c =? LF)%N && (c' =? LF)%N) eqn:Hcc.
      { apply andb_true_iff in Hcc as [->%N.eqb_eq ->%N.eqb_eq].
        by destruct (Ht [] t'). }
      rewrite IH by by eapply sin_linea_en_blanco_cons.
      by rewrite reverse_cons, <- app_assoc.
Qed.

(** ... and followed by a blank line it is the first piece. *)
Lemma split_parrafos_app t : ∀ actual resto,
  sin_linea_en_blanco t → last t ≠ Some LF →
  split_parrafos actual (t ++ LF :: LF :: resto) =
    (reverse actual ++ t) :: split_parrafos [] resto.
Proof.
  induction t as [|c t IH]; intros actual resto Ht Hlast.
  - cbn [app]. rewrite split_parrafos_cons2, N.eqb_refl. cbn [andb].
    by rewrite app_nil_r.
  - assert (∀ c' l', t ++ LF :: LF :: resto = c' :: l' →
              (c =? LF)%N && (c' =? LF)%N = false) as Hno.
    { intros c' l' Heq. apply andb_false_iff.
      destruct (N.eqb_spec c LF) as [->|?]; [right|by left].
      destruct (N.eqb_spec c' LF) as [->|?]; [|done]. exfalso.
      destruct t as [|c2 t2].
      - by apply Hlast.
      - injection Heq as -> _. by destruct (Ht [] t2). }
    change ((c :: t) ++ LF :: LF :: resto) with (c :: (t ++ LF :: LF :: resto)).
    destruct (t ++ LF :: LF :: resto) as [|c' l'] eqn:Heq.
    { by destruct t. }
    rewrite split_parrafos_cons2. rewrite (Hno c' l' eq_refl). rewrite <- Heq.
    rewrite IH.
    + by rewrite reverse_cons, <- app_assoc.
    + by eapply sin_linea_en_blanco_cons.
    + destruct t as [|c2 t2]; [done|]. by rewrite last_cons_cons in Hlast.
Qed.

Lemma split_parrafos_unir ts :
  ts ≠ [] →
  Forall (λ t, sin_linea_en_blanco t ∧ last t ≠ Some LF) ts →
  split_parrafos [] (unir [LF; LF] ts) = ts.
Proof.
  intros Hne Hts. induction Hts as [|t ts [Ht Hlast] Hts IH]; [done|].
  destruct ts as [|t' ts'].
  - simpl. rewrite app_nil_r. by rewrite split_parrafos_uno.
  - rewrite unir_cons by done. cbn [app].
    rewrite split_parrafos_app by done. by rewrite IH.
Qed.

End Parrafos.

(** *** X11: splitting into paragraphs loses nothing

    Joining the pieces of [contenido.split('\n\n')] with ['\n\n'] gives
    [contenido] back, and no piece contains two line feeds in a row. *)
Theorem split_parrafos_reversible (contenido : list N) :
  unir [LF; LF] (split_parrafos [] contenido) = contenido ∧
  Forall sin_linea_en_blanco (split_parrafos [] contenido).
Proof.
  split.
  - by rewrite unir_split_parrafos.
  - apply split_parrafos_sin_blanco; [|done].
    rewrite reverse_nil. apply sin_linea_en_blanco_nil.
Qed.

(** ** Reading the transcripts of a file *)

Section Extraer.
Variable U : tablas_unicode.
Implicit Types (t p : list N).

Lemma strip_sin_linea_en_blanco p :
  sin_linea_en_blanco p → sin_linea_en_blanco (strip U p).
Proof.
  intros Hp.
  destruct (lstrip_descompone U p) as (pre & Hpre & _).
  destruct (rstrip_descompone U (lstrip U p)) as (post & Hpost & _).
  apply (sin_linea_en_blanco_medio pre _ post). unfold strip.
  by rewrite <- Hpost, <- Hpre.
Qed.

Lemma omap_strip_forma ps :
  Forall sin_linea_en_blanco ps →
  Forall (λ t, t ≠ [] ∧ strip U t = t ∧ sin_linea_en_blanco t)
    (omap (λ t, match strip U t with [] => None | t' => Some t' end) ps).
Proof.
  induction 1 as [|p ps Hp _ IH]; simpl; [constructor|].
  destruct (strip U p) as [|c t'] eqn:Hs; [done|].
  constructor; [|done]. rewrite <- Hs. split; [by rewrite Hs|].
  split; [apply strip_idemp|by apply strip_sin_linea_en_blanco].
Qed.

Lemma omap_strip_id ts :
  Forall (λ t, t ≠ [] ∧ strip U t = t) ts →
  omap (λ t, match strip U t with [] => None | t' => Some t' end) ts = ts.
Proof.
  induction 1 as [|t ts [Hne Hs] _ IH]; [done|].
  cbn [omap list_omap]. rewrite Hs. destruct t; [done|].
  f_equal. exact IH.
Qed.

Lemma strip_fijo_final t :
  u_space U LF = true → strip U t = t → last t ≠ Some LF.
Proof.
  intros HLF Hs Hlast. rewrite <- Hs in Hlast. unfold strip in Hlast.
  apply rstrip_final in Hlast. congruence.
Qed.

End Extraer.

Lemma con_linea_en_blanco_cons2 (c c' : N) (t : list N) :
  con_linea_en_blanco (c :: c' :: t) =
    ((c =? LF)%N && (c' =? LF)%N) || con_linea_en_blanco (c' :: t).
Proof. reflexivity. Qed.

Lemma sin_linea_en_blanco_evaluada (t : list N) :
  con_linea_en_blanco t = false → sin_linea_en_blanco t.
Proof.
  intros Ht a. revert t Ht. induction a as [|x a IH]; intros t Ht b ->.
  - cbn [app] in Ht. rewrite con_linea_en_blanco_cons2, N.eqb_refl in Ht.
    done.
  - destruct a as [|y a'].
    + cbn [app] in Ht. rewrite con_linea_en_blanco_cons2 in Ht.
      apply orb_false_iff in Ht as [_ Ht]. by apply (IH _ Ht b).
    + cbn [app] in Ht. rewrite con_linea_en_blanco_cons2 in Ht.
      apply orb_false_iff in Ht as [_ Ht]. by apply (IH _ Ht b).
Qed.

(** *** X12: the transcripts read from a file

    Every transcript returned by [extraer_transcripciones] is non-empty,
    has no whitespace at either end and contains no blank line; a file
    that cannot be read gives the empty list and one error line. *)
Theorem transcripciones_extraidas (U : tablas_unicode)
    (disco : string → lectura) (archivo : string) :
  Forall (λ t, t ≠ [] ∧ strip U t = t ∧ sin_linea_en_blanco t)
         (extraer_transcripciones U disco archivo).1 ∧
  match disco archivo with
  | Contenido _ => (extraer_transcripciones U disco archivo).2 = []
  | NoEncontrado =>
      extraer_transcripciones U disco archivo = ([], [ErrorNoEncontrado archivo])
  | OtroError =>
      extraer_transcripciones U disco archivo = ([], [ErrorLectura archivo])
  end.
Proof.
  unfold extraer_transcripciones.
  destruct (disco archivo) as [contenido| |]; simpl; [|by split..].
  split; [|done]. apply omap_strip_forma, split_parrafos_sin_blanco; [|done].
  rewrite reverse_nil. apply sin_linea_en_blanco_nil.
Qed.

(** *** X13: reading back what was written

    When whitespace includes the line feed, a file made of transcripts of
    that form joined by blank lines is read back as exactly those
    transcripts, with nothing printed. *)
Theorem extraer_lo_escrito (U : tablas_unicode) (disco : string → lectura)
    (archivo : string) (ts : list (list N)) :
  u_space U LF = true →
  Forall (λ t, t ≠ [] ∧ strip U t = t ∧ sin_linea_en_blanco t) ts →
  disco archivo = Contenido (unir [LF; LF] ts) →
  extraer_transcripciones U disco archivo = (ts, []).
Proof.
  intros HLF Hts Hd. unfold extraer_transcripciones. rewrite Hd. f_equal.
  destruct ts as [|t ts'] eqn:Ets; [done|]. rewrite <- Ets in *.
  rewrite split_parrafos_unir.
  - apply omap_strip_id. eapply Forall_impl; [exact Hts|]. simpl.
    by intros t0 (? & ? & _).
  - by rewrite Ets.
  - eapply Forall_impl; [exact Hts|]. simpl. intros t0 (_ & Hs & Hb).
    split; [done|]. by apply (strip_fijo_final U).
Qed.

Lemma extraer_lo_escrito_ejemplo :
  extraer_transcripciones basic_latin
    (disco_con "manual.txt"
       (unir [LF; LF] [literal "hola mundo"; literal "adios"]))
    "manual.txt"
  = ([literal "hola mundo"; literal "adios"], []).
Proof.
  apply (extraer_lo_escrito basic_latin _ "manual.txt"
           [literal "hola mundo"; literal "adios"]).
  - reflexivity.
  - repeat constructor; try discriminate;
      by apply sin_linea_en_blanco_evaluada.
  - reflexivity.
Defined.

(** ** More on the scorer *)

Section PuntuacionMas.
Variable U : tablas_unicode.
Variables referencia hipotesis : list N.
Hypothesis Hn : Z.of_nat (length (palabras U referencia)) < int64_max.
Hypothesis Hm : Z.of_nat (length (palabras U hipotesis)) < int64_max.

(** The dictionary of the scorer together with what the alignment
    guarantees about its counts. *)
Lemma calcular_wer_cuentas :
  ∃ r,
    calcular_wer U referencia hipotesis = Some r ∧
    0 ≤ r_sustituciones r ∧ 0 ≤ r_eliminaciones r ∧ 0 ≤ r_inserciones r ∧
    r_total_errores r =
      r_sustituciones r + r_eliminaciones r + r_inserciones r ∧
    r_total_errores r =
      Z.of_nat (levenshtein (palabras U referencia) (palabras U hipotesis)) ∧
    r_palabras_referencia r = Z.of_nat (length (palabras U referencia)) ∧
    r_palabras_hipotesis r = Z.of_nat (length (palabras U hipotesis)) ∧
    r_sustituciones r + r_eliminaciones r ≤ r_palabras_referencia r ∧
    r_sustituciones r + r_inserciones r ≤ r_palabras_hipotesis r ∧
    r_eliminaciones r - r_inserciones r =
      r_palabras_referencia r - r_palabras_hipotesis r ∧
    (r_palabras_referencia r ≠ 0 →
     r_wer r = cociente (r_total_errores r) (r_palabras_referencia r) ∧
     r_accuracy r = max0 (uno_menos (r_wer r))).
Proof.
  destruct (calcular_wer_spec U referencia hipotesis Hn Hm)
    as (s & d & k & dp & Hc & Hs & Hd & Hk & _ & ->).
  destruct (calcular_distancia_edicion_spec _ _ Hn Hm)
    as (s' & d' & k' & dp' & Hc' & _ & Hw).
  rewrite Hc in Hc'. injection Hc' as <- <- <- <-.
  pose proof (camino_spec_cuentas _ _ _ _ _ _ _ Hw) as (_ & _ & _ & Hsum & Hdif).
  pose proof (camino_spec_consumo _ _ _ _ _ _ _ Hw) as [Hsd Hsk].
  rewrite tabla_spec_total in Hsum.
  eexists. split; [done|]. cbn -[Z.of_nat levenshtein cociente uno_menos max0].
  do 3 (split; [done|]). split; [done|]. split; [done|]. split; [done|].
  split; [done|]. split; [done|]. split; [done|]. split; [done|].
  intros HN. by destruct (Z.eqb_spec (Z.of_nat (length (palabras U referencia))) 0).
Qed.

(** The rate of a pair with reference words, as a number. *)
Lemma wer_finito r :
  calcular_wer U referencia hipotesis = Some r →
  palabras U referencia ≠ [] →
  ∃ w, r_wer r = Finito w ∧ (0 ≤ w)%Qc ∧
       r_accuracy r = max0 (uno_menos (r_wer r)) ∧
       (r_total_errores r = 0 → w = 0%Qc) ∧
       (w = 0%Qc → r_total_errores r = 0) ∧
       (r_total_errores r ≤ r_palabras_referencia r → (w ≤ 1)%Qc).
Proof.
  intros Hr Hne.
  destruct calcular_wer_cuentas
    as (r' & Hr' & _ & _ & _ & _ & Hlev & HN & _ & _ & _ & _ & Hwer).
  rewrite Hr in Hr'. injection Hr' as <-.
  pose proof (errores_acotados U referencia hipotesis Hn Hm) as Hcota.
  assert (0 < r_palabras_referencia r < 2 ^ 63) as HN0.
  { rewrite HN. unfold int64_max in Hn.
    destruct (palabras U referencia); [done|]. simpl in *. lia. }
  destruct Hwer as [Hw Ha]; [lia|].
  destruct (cociente_finito (r_total_errores r) (r_palabras_referencia r))
    as (w & Hq & Hq0); [lia|lia|].
  exists w. rewrite Hw. split; [done|]. split; [done|].
  split; [by rewrite Ha, Hw|]. split; [|split].
  - intros H0. rewrite H0, cociente_cero in Hq by lia. congruence.
  - intros ->. destruct (decide (r_total_errores r = 0)) as [|Hne0]; [done|].
    assert (0 < r_total_errores r) as Hsi by lia.
    pose proof (cociente_positivo _ _ _ Hsi HN0 Hq) as Hpos.
    by apply Qclt_not_eq in Hpos.
  - intros Hle.
    destruct (cociente_acotado (r_total_errores r) (r_palabras_referencia r) 1)
      as (w' & Hq' & _ & Hw1); [lia..|].
    rewrite Hq in Hq'. injection Hq' as <-. by rewrite Z2Qc_inj_1 in Hw1.
Qed.

End PuntuacionMas.

(** *** X14: the dictionary of a pair is coherent

    [calcular_wer] returns non-negative counts with
    [total_errores = S + D + I], the two word counts, at most as many
    substitutions and deletions as reference words and at most as many
    substitutions and insertions as hypothesis words, and
    [D - I = palabras_referencia - palabras_hipotesis]. *)
Theorem metricas_coherentes (U : tablas_unicode) (referencia hipotesis : list N) :
  Z.of_nat (length (palabras U referencia)) < int64_max →
  Z.of_nat (length (palabras U hipotesis)) < int64_max →
  ∃ r,
    calcular_wer U referencia hipotesis = Some r ∧
    0 ≤ r_sustituciones r ∧ 0 ≤ r_eliminaciones r ∧ 0 ≤ r_inserciones r ∧
    r_total_errores r =
      r_sustituciones r + r_eliminaciones r + r_inserciones r ∧
    r_palabras_referencia r = Z.of_nat (length (palabras U referencia)) ∧
    r_palabras_hipotesis r = Z.of_nat (length (palabras U hipotesis)) ∧
    r_sustituciones r + r_eliminaciones r ≤ r_palabras_referencia r ∧
    r_sustituciones r + r_inserciones r ≤ r_palabras_hipotesis r ∧
    r_eliminaciones r - r_inserciones r =
      r_palabras_referencia r - r_palabras_hipotesis r.
Proof.
  intros Hn Hm.
  destruct (calcular_wer_cuentas U referencia hipotesis Hn Hm)
    as (r & Hr & ? & ? & ? & ? & _ & ? & ? & ? & ? & ? & _).
  exists r. by repeat split.
Qed.

Lemma metricas_coherentes_ejemplo :
  ∃ r,
    calcular_wer basic_latin (literal "the quick brown fox")
      (literal "a quick fox jumps") = Some r ∧
    0 ≤ r_sustituciones r ∧ 0 ≤ r_eliminaciones r ∧ 0 ≤ r_inserciones r ∧
    r_total_errores r =
      r_sustituciones r + r_eliminaciones r + r_inserciones r ∧
    r_palabras_referencia r =
      Z.of_nat (length (palabras basic_latin (literal "the quick brown fox"))) ∧
    r_palabras_hipotesis r =
      Z.of_nat (length (palabras basic_latin (literal "a quick fox jumps"))) ∧
    r_sustituciones r + r_eliminaciones r ≤ r_palabras_referencia r ∧
    r_sustituciones r + r_inserciones r ≤ r_palabras_hipotesis r ∧
    r_eliminaciones r - r_inserciones r =
      r_palabras_referencia r - r_palabras_hipotesis r.
Proof.
  apply (metricas_coherentes basic_latin (literal "the quick brown fox")
           (literal "a quick fox jumps")); reflexivity.
Defined.

(** *** X15: a zero rate means the same words

    With a non-empty reference, [calcular_wer] returns [wer = 0] exactly
    when the two transcripts have the same token sequence, and then the
    accuracy is 1. *)
Theorem wer_nulo_sii_mismas_palabras (U : tablas_unicode)
    (referencia hipotesis : list N) :
  palabras U referencia ≠ [] →
  Z.of_nat (length (palabras U referencia)) < int64_max →
  Z.of_nat (length (palabras U hipotesis)) < int64_max →
  ∃ r,
    calcular_wer U referencia hipotesis = Some r ∧
    (r_wer r = Finito 0%Qc ↔ palabras U referencia = palabras U hipotesis) ∧
    (palabras U referencia = palabras U hipotesis →
     r_accuracy r = Finito 1%Qc ∧ r_total_errores r = 0).
Proof.
  intros Hne Hn Hm.
  destruct (calcular_wer_cuentas U referencia hipotesis Hn Hm)
    as (r & Hr & _ & _ & _ & _ & Hlev & _).
  destruct (wer_finito U referencia hipotesis Hn Hm r Hr Hne)
    as (w & Hw & _ & Ha & H0w & Hw0 & _).
  assert (r_wer r = Finito 0%Qc ↔ palabras U referencia = palabras U hipotesis)
    as Hiff.
  { rewrite Hw. split.
    - intros [= ->]. apply levenshtein_0_eq. specialize (Hw0 eq_refl). lia.
    - intros Heq. f_equal. apply H0w.
      rewrite Hlev, Heq, levenshtein_refl. done. }
  exists r. split; [done|]. split; [done|]. intros Heq.
  pose proof (proj2 Hiff Heq) as H0. split.
  - rewrite Ha, H0. apply max0_uno_menos_cero.
  - rewrite Hlev, Heq, levenshtein_refl. done.
Qed.

Lemma wer_nulo_sii_mismas_palabras_ejemplo :
  ∃ r,
    calcular_wer basic_latin (literal "Hola, mundo!") (literal " hola   MUNDO ")
      = Some r ∧
    (r_wer r = Finito 0%Qc ↔
     palabras basic_latin (literal "Hola, mundo!")
     = palabras basic_latin (literal " hola   MUNDO ")) ∧
    (palabras basic_latin (literal "Hola, mundo!")
     = palabras basic_latin (literal " hola   MUNDO ") →
     r_accuracy r = Finito 1%Qc ∧ r_total_errores r = 0).
Proof.
  apply (wer_nulo_sii_mismas_palabras basic_latin (literal "Hola, mundo!")
           (literal " hola   MUNDO "));
    [discriminate|reflexivity|reflexivity].
Defined.

(** *** X16: the accuracy lies between 0 and 1

    [calcular_wer] always returns a finite accuracy between 0 and 1.  With
    a non-empty reference and [wer <= 1] it is the double [1 - wer], which
    is within [epsilon = 2 ^ -53] of the exact difference; with
    [wer >= 1] it is 0. *)
Theorem accuracy_entre_0_y_1 (U : tablas_unicode)
    (referencia hipotesis : list N) :
  Z.of_nat (length (palabras U referencia)) < int64_max →
  Z.of_nat (length (palabras U hipotesis)) < int64_max →
  ∃ r q,
    calcular_wer U referencia hipotesis = Some r ∧
    r_accuracy r = Finito q ∧ (0 ≤ q)%Qc ∧ (q ≤ 1)%Qc ∧
    (palabras U referencia ≠ [] →
     ∃ w, r_wer r = Finito w ∧ (0 ≤ w)%Qc ∧
          ((w ≤ 1)%Qc →
           uno_menos (r_wer r) = Finito q ∧
           (1 - w - epsilon ≤ q)%Qc ∧ (q ≤ 1 - w + epsilon)%Qc) ∧
          ((1 ≤ w)%Qc → q = 0%Qc)).
Proof.
  intros Hn Hm.
  destruct (calcular_wer_no_falla U referencia hipotesis Hn Hm) as (r & Hr & _).
  destruct (decide (palabras U referencia = [])) as [Hnil|Hne].
  - exists r, 0%Qc. split; [done|].
    destruct (calcular_wer_spec U referencia hipotesis Hn Hm)
      as (s & d & k & dp & _ & _ & _ & _ & _ & Hr').
    rewrite Hr, Hnil in Hr'. cbn zeta in Hr'. injection Hr' as ->.
    cbn [r_accuracy length Z.of_nat Z.eqb]. by repeat split.
  - destruct (wer_finito U referencia hipotesis Hn Hm r Hr Hne)
      as (w & Hw & Hw0 & Ha & _).
    destruct (max0_uno_menos (r_wer r)) as (q & Hq & Hq0 & Hq1 & Hle & Hge & _).
    { right. by exists w. }
    exists r, q. split; [done|]. split; [by rewrite Ha|].
    split; [done|]. split; [done|]. intros _. exists w.
    split; [done|]. split; [done|]. split.
    + intros Hw1. by apply Hle.
    + intros Hw1. by apply (Hge w).
Qed.

Lemma accuracy_entre_0_y_1_ejemplo :
  ∃ r q,
    calcular_wer basic_latin (literal "uno dos tres") (literal "uno dos cuatro")
      = Some r ∧
    r_accuracy r = Finito q ∧ (0 ≤ q)%Qc ∧ (q ≤ 1)%Qc ∧
    (palabras basic_latin (literal "uno dos tres") ≠ [] →
     ∃ w, r_wer r = Finito w ∧ (0 ≤ w)%Qc ∧
          ((w ≤ 1)%Qc →
           uno_menos (r_wer r) = Finito q ∧
           (1 - w - epsilon ≤ q)%Qc ∧ (q ≤ 1 - w + epsilon)%Qc) ∧
          ((1 ≤ w)%Qc → q = 0%Qc)).
Proof.
  apply (accuracy_entre_0_y_1 basic_latin (literal "uno dos tres")
           (literal "uno dos cuatro")); reflexivity.
Defined.

(** *** X17: a hypothesis no longer than the reference

    When the hypothesis has at most as many tokens as the non-empty
    reference, the rate is at most 1 and the accuracy is the double
    [1 - wer], not clamped, within [epsilon = 2 ^ -53] of the exact
    difference. *)
Theorem wer_a_lo_sumo_1 (U : tablas_unicode) (referencia hipotesis : list N) :
  palabras U referencia ≠ [] →
  (length (palabras U hipotesis) ≤ length (palabras U referencia))%nat →
  Z.of_nat (length (palabras U referencia)) < int64_max →
  ∃ r w q,
    calcular_wer U referencia hipotesis = Some r ∧
    r_wer r = Finito w ∧ (0 ≤ w)%Qc ∧ (w ≤ 1)%Qc ∧
    r_accuracy r = Finito q ∧
    uno_menos (r_wer r) = Finito q ∧
    (1 - w - epsilon ≤ q)%Qc ∧ (q ≤ 1 - w + epsilon)%Qc.
Proof.
  intros Hne Hlen Hn.
  assert (Z.of_nat (length (palabras U hipotesis)) < int64_max) as Hm by lia.
  destruct (calcular_wer_cuentas U referencia hipotesis Hn Hm)
    as (r & Hr & _ & _ & _ & _ & Hlev & HN & _).
  destruct (wer_finito U referencia hipotesis Hn Hm r Hr Hne)
    as (w & Hw & Hw0 & Ha & _ & _ & Hw1).
  pose proof (levenshtein_bound (palabras U referencia) (palabras U hipotesis)).
  assert (w ≤ 1)%Qc as Hle by (apply Hw1; lia).
  destruct (max0_uno_menos (r_wer r)) as (q & Hq & _ & _ & Hq' & _).
  { right. by exists w. }
  destruct (Hq' w Hw Hle) as (Hu & He1 & He2).
  exists r, w, q. split; [done|]. split; [done|]. split; [done|].
  split; [done|]. split; [by rewrite Ha|]. by repeat split.
Qed.

Lemma wer_a_lo_sumo_1_ejemplo :
  ∃ r w q,
    calcular_wer basic_latin (literal "uno dos tres") (literal "cuatro dos")
      = Some r ∧
    r_wer r = Finito w ∧ (0 ≤ w)%Qc ∧ (w ≤ 1)%Qc ∧
    r_accuracy r = Finito q ∧
    uno_menos (r_wer r) = Finito q ∧
    (1 - w - epsilon ≤ q)%Qc ∧ (q ≤ 1 - w + epsilon)%Qc.
Proof.
  apply (wer_a_lo_sumo_1 basic_latin (literal "uno dos tres")
           (literal "cuatro dos")); [discriminate|vm_compute; lia|reflexivity].
Defined.

Lemma normalizar_texto_punto_fijo (U : tablas_unicode) (x : list N) :
  tablas_ok U →
  normalizar_texto U (normalizar_texto U x) = normalizar_texto U x.
Proof.
  intros Hok.
  destruct (normalizar_texto_forma U Hok x) as (Hl & He & Hs).
  set (r := normalizar_texto U x) in *.
  unfold normalizar_texto at 1.
  destruct (fijos_identidad U Hok r) as [-> ->].
  { eapply Forall_impl; [exact Hl|]. simpl. intros c (Hf & _ & [[? _]|?]); auto. }
  rewrite list_filter_id.
  2:{ eapply Forall_impl; [exact Hl|]. simpl. by intros c (_ & -> & _). }
  rewrite sub_no_palabra_id.
  2:{ eapply Forall_impl; [exact Hl|]. simpl.
      intros c (_ & _ & [[? _]| ->]); [by left|]. right. apply Hok. }
  by rewrite sub_espacios_fijo.
Qed.

(** *** X18: scoring texts that are already normalised

    Over tables with the properties [tablas_ok], normalising the two
    transcripts beforehand changes neither their tokens nor the result of
    [calcular_wer]. *)
Theorem puntuar_texto_normalizado (U : tablas_unicode)
    (referencia hipotesis : list N) :
  tablas_ok U →
  palabras U (normalizar_texto U referencia) = palabras U referencia ∧
  calcular_wer U (normalizar_texto U referencia) (normalizar_texto U hipotesis)
  = calcular_wer U referencia hipotesis.
Proof.
  intros Hok. unfold palabras, calcular_wer.
  by rewrite !normalizar_texto_punto_fijo.
Qed.

Lemma puntuar_texto_normalizado_ejemplo :
  palabras basic_latin (normalizar_texto basic_latin (literal "Hola, Mundo!"))
  = palabras basic_latin (literal "Hola, Mundo!") ∧
  calcular_wer basic_latin (normalizar_texto basic_latin (literal "Hola, Mundo!"))
    (normalizar_texto basic_latin (literal "hola a todo el mundo"))
  = calcular_wer basic_latin (literal "Hola, Mundo!")
      (literal "hola a todo el mundo").
Proof.
  apply (puntuar_texto_normalizado basic_latin (literal "Hola, Mundo!")
           (literal "hola a todo el mundo") basic_latin_ok).
Defined.

(** ** More on the aggregator *)

Section AgregadorMas.
Variable U : tablas_unicode.

(** The loop over pairs whose scores are known. *)
Lemma procesar_lineas pares : ∀ res i ac salida,
  Forall2 (λ par r, calcular_wer U par.1 par.2 = Some r) pares res →
  procesar U i pares ac salida =
    (Some {| ac_resultados := ac_resultados ac ++ res;
             S_total := S_total ac + suma (r_sustituciones <$> res);
             D_total := D_total ac + suma (r_eliminaciones <$> res);
             I_total := I_total ac + suma (r_inserciones <$> res);
             N_total := N_total ac + suma (r_palabras_referencia <$> res) |},
     salida ++ lineas_de i res).
Proof.
  induction pares as [|[manual openai] pares IH]; intros res i ac salida HF.
  - apply Forall2_nil_inv_l in HF as ->. simpl.
    rewrite !app_nil_r, !Z.add_0_r. by destruct ac.
  - apply Forall2_cons_inv_l in HF as (r & res' & Hr & HF & ->).
    simpl in Hr. cbn [procesar]. rewrite Hr.
    rewrite (IH res' _ _ _ HF).
    cbn [ac_resultados S_total D_total I_total N_total lineas_de].
    rewrite <- !app_assoc. unfold suma. cbn [fmap list_fmap foldr app].
    f_equal. f_equal. f_equal; (done || lia).
Qed.

Lemma Forall2_calcular_wer (ms os : list (list N)) :
  cortas U ms → cortas U os →
  ∃ res, Forall2 (λ par r, calcular_wer U par.1 par.2 = Some r) (zip ms os) res.
Proof.
  intros Hm Ho. pose proof (cortas_zip U ms os Hm Ho) as Hz.
  induction Hz as [|[m o] pares [Hcm Hco] _ (res & IH)].
  - by exists [].
  - destruct (calcular_wer_no_falla U m o Hcm Hco) as (r & Hr & _).
    exists (r :: res). by constructor.
Qed.

End AgregadorMas.

Section AgregadorDetalle.
Variable U : tablas_unicode.
Variable disco : string → lectura.
Variables archivo_manual archivo_openai : string.
Let manual := (extraer_transcripciones U disco archivo_manual).1.
Let openai := (extraer_transcripciones U disco archivo_openai).1.
Let min_len := Nat.min (length manual) (length openai).

Lemma igualar_spec :
  ∃ aviso,
    igualar manual openai = (take min_len manual, take min_len openai, aviso) ∧
    (length manual = length openai → aviso = []) ∧
    (length manual ≠ length openai →
     aviso = [Advertencia; Longitudes (length manual) (length openai)]).
Proof.
  unfold igualar. fold min_len.
  destruct (decide (length manual ≠ length openai)) as [Hne|Heq].
  - eexists. split; [done|]. by split.
  - apply dec_stable in Heq. exists []. split; [|by split].
    rewrite !take_ge by (unfold min_len; lia). done.
Qed.

(** With an empty list on either side nothing is scored. *)
Lemma calcular_wer_total_vacio :
  min_len = 0%nat →
  calcular_wer_total U disco archivo_manual archivo_openai =
    (Some Vacio,
     (extraer_transcripciones U disco archivo_manual).2 ++
     (extraer_transcripciones U disco archivo_openai).2 ++
     (igualar manual openai).2 ++ [ErrorSinTranscripciones]).
Proof.
  intros Hk. unfold calcular_wer_total.
  destruct igualar_spec as (aviso & Hig & _).
  subst manual openai.
  destruct (extraer_transcripciones U disco archivo_manual) as [ms s1].
  destruct (extraer_transcripciones U disco archivo_openai) as [os s2].
  cbn [fst snd] in *. rewrite Hig. cbn [snd]. subst min_len. rewrite Hk.
  rewrite take_0. by rewrite <- !app_assoc.
Qed.

Hypothesis Hmanual : cortas U manual.
Hypothesis Hopenai : cortas U openai.

(** With a pair to score, the scores of the first [min_len] pairs decide
    everything that is returned and printed. *)
Lemma calcular_wer_total_detalle :
  (0 < min_len)%nat →
  ∃ res,
    Forall2 (λ par r, calcular_wer U par.1 par.2 = Some r)
            (zip (take min_len manual) (take min_len openai)) res ∧
    length res = min_len ∧
    calcular_wer_total U disco archivo_manual archivo_openai =
      (Lleno <$> resumir
         {| ac_resultados := res;
            S_total := suma (r_sustituciones <$> res);
            D_total := suma (r_eliminaciones <$> res);
            I_total := suma (r_inserciones <$> res);
            N_total := suma (r_palabras_referencia <$> res) |},
       (extraer_transcripciones U disco archivo_manual).2 ++
       (extraer_transcripciones U disco archivo_openai).2 ++
       (igualar manual openai).2 ++
       Procesando min_len :: lineas_de 1 res).
Proof.
  intros Hk.
  destruct (Forall2_calcular_wer U (take min_len manual) (take min_len openai))
    as (res & HF); [by apply Forall_take..|].
  exists res. split; [done|].
  assert (length res = min_len) as Hlen.
  { rewrite <- (Forall2_length _ _ _ HF), length_zip_with, !length_take.
    unfold min_len. lia. }
  split; [done|].
  unfold calcular_wer_total.
  destruct igualar_spec as (aviso & Hig & _).
  subst manual openai.
  destruct (extraer_transcripciones U disco archivo_manual) as [ms s1].
  destruct (extraer_transcripciones U disco archivo_openai) as [os s2].
  cbn [fst snd] in *. rewrite Hig. cbn [snd].
  assert (length (take min_len ms) = min_len) as Hlt.
  { rewrite length_take. unfold min_len. lia. }
  destruct (take min_len ms) as [|m0 ms'] eqn:Hms.
  { simpl in Hlt. lia. }
  rewrite <- Hms in *.
  rewrite (procesar_lineas U _ res _ _ _ HF).
  cbn [ac_resultados S_total D_total I_total N_total].
  rewrite !Z.add_0_l, app_nil_l, Hlt, <- !app_assoc. done.
Qed.

End AgregadorDetalle.

(** ** What a pair contributes to the corpus *)

Section HechosPar.
Variable U : tablas_unicode.
Variables (m o : list N) (r : metricas).
Hypothesis Hm : Z.of_nat (length (palabras U m)) < int64_max.
Hypothesis Ho : Z.of_nat (length (palabras U o)) < int64_max.
Hypothesis Hr : calcular_wer U m o = Some r.

Lemma par_cuentas :
  0 ≤ r_sustituciones r ∧ 0 ≤ r_eliminaciones r ∧ 0 ≤ r_inserciones r ∧
  r_total_errores r =
    r_sustituciones r + r_eliminaciones r + r_inserciones r ∧
  r_palabras_referencia r = Z.of_nat (length (palabras U m)).
Proof.
  destruct (calcular_wer_cuentas U m o Hm Ho)
    as (r' & Hr' & ? & ? & ? & ? & _ & ? & _).
  rewrite Hr in Hr'. injection Hr' as <-. done.
Qed.

Lemma par_wer :
  (r_wer r = MasInf ∨ ∃ w, r_wer r = Finito w ∧ (0 ≤ w)%Qc) ∧
  (palabras U m = [] → palabras U o ≠ [] → r_wer r = MasInf).
Proof.
  destruct (calcular_wer_spec U m o Hm Ho)
    as (s & d & k & dp & _ & Hs & Hd & Hk & _ & Hr').
  rewrite Hr in Hr'. cbn zeta in Hr'. injection Hr' as ->. cbn [r_wer].
  destruct (Z.eqb_spec (Z.of_nat (length (palabras U m))) 0) as [H0|H0].
  - split.
    + destruct (0 <? Z.of_nat (length (palabras U o))); [by left|].
      right. by exists 0%Qc.
    + intros _ Hne. destruct (palabras U o); [done|]. done.
  - split.
    + apply cociente_no_negativo; lia.
    + intros Hnil. rewrite Hnil in H0. done.
Qed.

Lemma par_accuracy :
  ∃ q, r_accuracy r = Finito q ∧ (0 ≤ q)%Qc ∧ (q ≤ 1)%Qc.
Proof.
  pose proof par_wer as [Hw _].
  destruct (calcular_wer_spec U m o Hm Ho)
    as (s & d & k & dp & _ & Hs & Hd & Hk & _ & Hr').
  rewrite Hr in Hr'. cbn zeta in Hr'. injection Hr' as ->.
  cbn [r_accuracy r_wer] in *.
  destruct (Z.eqb_spec (Z.of_nat (length (palabras U m))) 0) as [H0|H0].
  - by exists 0%Qc.
  - destruct (max0_uno_menos _ Hw) as (q & Hq & ? & ? & _). by exists q.
Qed.

Lemma par_iguales :
  palabras U m = palabras U o → palabras U m ≠ [] →
  r_wer r = Finito 0%Qc ∧ r_accuracy r = Finito 1%Qc ∧
  r_sustituciones r = 0 ∧ r_eliminaciones r = 0 ∧ r_inserciones r = 0 ∧
  0 < r_palabras_referencia r.
Proof.
  intros Heq Hne.
  destruct (calcular_wer_cuentas U m o Hm Ho)
    as (r' & Hr' & ? & ? & ? & Hte & Hlev & HN & _ & _ & _ & _ & Hwer).
  rewrite Hr in Hr'. injection Hr' as <-.
  rewrite Heq, levenshtein_refl in Hlev.
  assert (0 < r_palabras_referencia r) as HN0.
  { rewrite HN. destruct (palabras U m); [done|]. simpl. lia. }
  destruct Hwer as [Hw Ha]; [lia|].
  assert (r_wer r = Finito 0%Qc) as Hw0.
  { rewrite Hw, Hlev. by apply cociente_cero. }
  split; [done|]. split.
  - rewrite Ha, Hw0. apply max0_uno_menos_cero.
  - repeat split; lia.
Qed.

End HechosPar.

Lemma calcular_wer_total_errores (U : tablas_unicode) (m o : list N) r :
  calcular_wer U m o = Some r →
  r_total_errores r = r_sustituciones r + r_eliminaciones r + r_inserciones r.
Proof.
  unfold calcular_wer.
  destruct (calcular_distancia_edicion _ _) as [[[[s d] k] dp]|]; [|done].
  cbn [mbind option_bind].
  destruct (_ =? 0); cbn [mbind option_bind].
  - by intros [= <-].
  - destruct (truediv _ _); [|done]. by intros [= <-].
Qed.

Lemma suma_Forall (P : Z → Prop) xs :
  P 0 → (∀ x y, P x → P y → P (x + y)) → Forall P xs → P (suma xs).
Proof. intros H0 Hadd. induction 1; simpl; auto. Qed.

Lemma suma_fmap_mas {A} (f g h : A → Z) (xs : list A) :
  Forall (λ x, h x = f x + g x) xs →
  suma (h <$> xs) = suma (f <$> xs) + suma (g <$> xs).
Proof.
  unfold suma. induction 1 as [|x xs Hx _ IH]; [done|].
  rewrite !fmap_cons. cbn [foldr]. rewrite IH, Hx. lia.
Qed.

Lemma suma_fmap_cero {A} (f : A → Z) (xs : list A) :
  Forall (λ x, f x = 0) xs → suma (f <$> xs) = 0.
Proof.
  unfold suma. induction 1 as [|x xs Hx _ IH]; [done|].
  rewrite fmap_cons. cbn [foldr]. lia.
Qed.

Lemma suma_fmap_pos {A} (f : A → Z) (xs : list A) :
  xs ≠ [] → Forall (λ x, 0 < f x) xs → 0 < suma (f <$> xs).
Proof.
  unfold suma. intros Hne Hxs.
  assert (0 ≤ foldr Z.add 0 (f <$> xs) ∧ (xs ≠ [] → 0 < foldr Z.add 0 (f <$> xs)))
    as [_ H]; [|by apply H].
  clear Hne. induction Hxs as [|x xs Hx _ [IH1 IH2]]; [done|].
  rewrite fmap_cons. cbn [foldr]. split; [lia|]. intros _. lia.
Qed.

(** Facts about each scored pair, from facts about each pair of
    transcripts. *)
Lemma Forall2_zip_Forall {A B C} (P : A * B → C → Prop) (Q : C → Prop)
    (R : A * B → Prop) (ps : list (A * B)) (cs : list C) :
  Forall2 P ps cs → Forall R ps →
  (∀ p c, R p → P p c → Q c) → Forall Q cs.
Proof.
  intros HF HR HQ. induction HF as [|p c ps cs Hp _ IH]; [constructor|].
  inversion HR; subst. constructor; eauto.
Qed.

Lemma igualar_aviso (ms os : list (list N)) :
  (igualar ms os).2 =
    if decide (length ms = length os) then []
    else [Advertencia; Longitudes (length ms) (length os)].
Proof.
  unfold igualar.
  destruct (decide (length ms ≠ length os)) as [Hne|Heq].
  - by rewrite decide_False.
  - apply dec_stable in Heq. by rewrite decide_True.
Qed.

Section Corpus.
Variable U : tablas_unicode.
Variable disco : string → lectura.
Variables archivo_manual archivo_openai : string.
Let manual := (extraer_transcripciones U disco archivo_manual).1.
Let openai := (extraer_transcripciones U disco archivo_openai).1.
Let min_len := Nat.min (length manual) (length openai).
Hypothesis Hmanual : cortas U manual.
Hypothesis Hopenai : cortas U openai.
Hypothesis Hne_manual : manual ≠ [].
Hypothesis Hne_openai : openai ≠ [].

Lemma min_len_pos : (0 < min_len)%nat.
Proof.
  unfold min_len. destruct manual, openai; simpl; try done; lia.
Qed.

(** The summary, the scores it is built from, and what was printed. *)
Lemma calcular_wer_total_lleno :
  ∃ r,
    calcular_wer_total U disco archivo_manual archivo_openai =
      (Some (Lleno r),
       (extraer_transcripciones U disco archivo_manual).2 ++
       (extraer_transcripciones U disco archivo_openai).2 ++
       (igualar manual openai).2 ++
       Procesando min_len :: lineas_de 1 (resultados_individuales r)) ∧
    Forall2 (λ par res, calcular_wer U par.1 par.2 = Some res)
            (zip (take min_len manual) (take min_len openai))
            (resultados_individuales r) ∧
    length (resultados_individuales r) = min_len ∧
    num_transcripciones r = min_len ∧
    total_sustituciones r = suma (r_sustituciones <$> resultados_individuales r) ∧
    total_eliminaciones r = suma (r_eliminaciones <$> resultados_individuales r) ∧
    total_inserciones r = suma (r_inserciones <$> resultados_individuales r) ∧
    total_palabras_referencia r =
      suma (r_palabras_referencia <$> resultados_individuales r) ∧
    total_errores r =
      total_sustituciones r + total_eliminaciones r + total_inserciones r ∧
    wer_promedio r = np_mean (r_wer <$> resultados_individuales r) ∧
    accuracy_promedio r = np_mean (r_accuracy <$> resultados_individuales r) ∧
    wer_total r =
      (if 0 <? total_palabras_referencia r
       then cociente (total_errores r) (total_palabras_referencia r)
       else MasInf) ∧
    accuracy_total r = max0 (uno_menos (wer_total r)).
Proof.
  destruct (calcular_wer_total_detalle U disco archivo_manual archivo_openai
              Hmanual Hopenai min_len_pos) as (res & HF & Hlen & Heq).
  fold manual openai min_len in HF, Hlen, Heq.
  unfold resumir, truediv in Heq.
  cbn [ac_resultados S_total D_total I_total N_total] in Heq.
  destruct (Z.ltb_spec 0 (suma (r_palabras_referencia <$> res))) as [Hpos|Hle].
  - destruct (Z.eqb_spec (suma (r_palabras_referencia <$> res)) 0) as [?|_];
      [lia|].
    cbn [mbind option_bind fmap option_fmap option_map] in Heq.
    eexists. split; [exact Heq|].
    cbn [resultados_individuales num_transcripciones total_sustituciones
         total_eliminaciones total_inserciones total_palabras_referencia
         total_errores wer_promedio accuracy_promedio wer_total accuracy_total].
    rewrite (proj2 (Z.ltb_lt _ _) Hpos). by repeat split.
  - cbn [mbind option_bind fmap option_fmap option_map] in Heq.
    eexists. split; [exact Heq|].
    cbn [resultados_individuales num_transcripciones total_sustituciones
         total_eliminaciones total_inserciones total_palabras_referencia
         total_errores wer_promedio accuracy_promedio wer_total accuracy_total].
    rewrite (proj2 (Z.ltb_ge _ _) Hle). by repeat split.
Qed.

Lemma pares_cortos :
  Forall (λ par, Z.of_nat (length (palabras U par.1)) < int64_max ∧
                 Z.of_nat (length (palabras U par.2)) < int64_max)
         (zip (take min_len manual) (take min_len openai)).
Proof. apply cortas_zip; by apply Forall_take. Qed.

End Corpus.

(** *** X19: the totals of the corpus are the sums over the pairs

    The summary of [calcular_wer_total] counts the pairs it scored, and
    its total substitutions, deletions, insertions, errors and reference
    words are the sums of the corresponding fields of the per-pair
    results. *)
Theorem totales_son_sumas (U : tablas_unicode) (disco : string → lectura)
    (archivo_manual archivo_openai : string) :
  let manual := (extraer_transcripciones U disco archivo_manual).1 in
  let openai := (extraer_transcripciones U disco archivo_openai).1 in
  cortas U manual → cortas U openai → manual ≠ [] → openai ≠ [] →
  ∃ r salida,
    calcular_wer_total U disco archivo_manual archivo_openai
      = (Some (Lleno r), salida) ∧
    num_transcripciones r = length (resultados_individuales r) ∧
    num_transcripciones r = Nat.min (length manual) (length openai) ∧
    total_sustituciones r = suma (r_sustituciones <$> resultados_individuales r) ∧
    total_eliminaciones r = suma (r_eliminaciones <$> resultados_individuales r) ∧
    total_inserciones r = suma (r_inserciones <$> resultados_individuales r) ∧
    total_errores r = suma (r_total_errores <$> resultados_individuales r) ∧
    total_palabras_referencia r =
      suma (r_palabras_referencia <$> resultados_individuales r).
Proof.
  intros manual openai Hcm Hco Hm Ho.
  destruct (calcular_wer_total_lleno U disco archivo_manual archivo_openai
              Hcm Hco Hm Ho)
    as (r & Heq & HF & Hlen & Hnum & HS & HD & HI & HN & HE & _).
  exists r. eexists. split; [exact Heq|]. split; [by rewrite Hlen|].
  split; [done|]. do 3 (split; [done|]). split; [|done].
  rewrite HE, HS, HD, HI.
  assert (Forall (λ res, r_total_errores res =
            (r_sustituciones res + r_eliminaciones res) + r_inserciones res)
            (resultados_individuales r)) as Hte.
  { eapply (Forall2_zip_Forall _ _ (λ _, True) _ _ HF).
    - by apply Forall_true.
    - intros [m o] res _ Hres. by apply (calcular_wer_total_errores U m o). }
  rewrite (suma_fmap_mas _ _ _ _ Hte).
  rewrite (suma_fmap_mas (λ res, r_sustituciones res) (λ res, r_eliminaciones res)
             (λ res, r_sustituciones res + r_eliminaciones res)); [done|].
  by apply Forall_true.
Qed.

Lemma totales_son_sumas_ejemplo :
  ∃ r salida,
    calcular_wer_total basic_latin disco_cinco_tres "manual.txt" "openai.txt"
      = (Some (Lleno r), salida) ∧
    num_transcripciones r = length (resultados_individuales r) ∧
    num_transcripciones r = 3%nat ∧
    total_sustituciones r = suma (r_sustituciones <$> resultados_individuales r) ∧
    total_eliminaciones r = suma (r_eliminaciones <$> resultados_individuales r) ∧
    total_inserciones r = suma (r_inserciones <$> resultados_individuales r) ∧
    total_errores r = suma (r_total_errores <$> resultados_individuales r) ∧
    total_palabras_referencia r =
      suma (r_palabras_referencia <$> resultados_individuales r).
Proof.
  apply (totales_son_sumas basic_latin disco_cinco_tres
           "manual.txt" "openai.txt");
    [apply cortas_evaluadas; vm_compute; reflexivity..
    |vm_compute; discriminate|vm_compute; discriminate].
Defined.

Lemma sin_transcripciones_aux (U : tablas_unicode) (disco : string → lectura)
    (archivo_manual archivo_openai : string) :
  (extraer_transcripciones U disco archivo_manual).1 = [] ∨
  (extraer_transcripciones U disco archivo_openai).1 = [] →
  calcular_wer_total U disco archivo_manual archivo_openai =
    (Some Vacio,
     (extraer_transcripciones U disco archivo_manual).2 ++
     (extraer_transcripciones U disco archivo_openai).2 ++
     (igualar (extraer_transcripciones U disco archivo_manual).1
              (extraer_transcripciones U disco archivo_openai).1).2 ++
     [ErrorSinTranscripciones]).
Proof.
  intros Hvacio. apply calcular_wer_total_vacio.
  destruct Hvacio as [-> | ->]; simpl; lia.
Qed.

(** *** X20: nothing to score

    When either file is missing, unreadable or holds no transcript,
    [calcular_wer_total] returns the empty dictionary without raising, and
    prints the lines of the two readings, the length warning if the other
    file had transcripts, and last the error that no transcription was
    found. *)
Theorem sin_transcripciones (U : tablas_unicode) (disco : string → lectura)
    (archivo_manual archivo_openai : string) :
  let manual := (extraer_transcripciones U disco archivo_manual).1 in
  let openai := (extraer_transcripciones U disco archivo_openai).1 in
  manual = [] ∨ openai = [] →
  calcular_wer_total U disco archivo_manual archivo_openai =
    (Some Vacio,
     (extraer_transcripciones U disco archivo_manual).2 ++
     (extraer_transcripciones U disco archivo_openai).2 ++
     (if decide (length manual = length openai) then []
      else [Advertencia; Longitudes (length manual) (length openai)]) ++
     [ErrorSinTranscripciones]).
Proof.
  intros manual openai Hvacio.
  rewrite <- igualar_aviso. by apply sin_transcripciones_aux.
Qed.

Lemma sin_transcripciones_ejemplo :
  calcular_wer_total basic_latin
    (disco_con "manual.txt" (literal "hola mundo")) "manual.txt" "openai.txt" =
    (Some Vacio,
     [ErrorNoEncontrado "openai.txt"; Advertencia; Longitudes 1 0;
      ErrorSinTranscripciones]).
Proof.
  apply (sin_transcripciones basic_latin
           (disco_con "manual.txt" (literal "hola mundo"))
           "manual.txt" "openai.txt").
  right. reflexivity.
Defined.

(** *** X21: what the aggregator prints

    With transcripts on both sides, [calcular_wer_total] prints the lines
    of the two readings, the length warning only if the lengths differ,
    the number of pairs, and then three lines per scored pair, numbered
    from 1 in the order of the files. *)
Theorem salida_del_agregador (U : tablas_unicode) (disco : string → lectura)
    (archivo_manual archivo_openai : string) :
  let manual := (extraer_transcripciones U disco archivo_manual).1 in
  let openai := (extraer_transcripciones U disco archivo_openai).1 in
  let min_len := Nat.min (length manual) (length openai) in
  cortas U manual → cortas U openai → manual ≠ [] → openai ≠ [] →
  ∃ r,
    calcular_wer_total U disco archivo_manual archivo_openai =
      (Some (Lleno r),
       (extraer_transcripciones U disco archivo_manual).2 ++
       (extraer_transcripciones U disco archivo_openai).2 ++
       (if decide (length manual = length openai) then []
        else [Advertencia; Longitudes (length manual) (length openai)]) ++
       Procesando min_len :: lineas_de 1 (resultados_individuales r)) ∧
    length (resultados_individuales r) = min_len ∧
    Forall2 (λ par res, calcular_wer U par.1 par.2 = Some res)
            (zip (take min_len manual) (take min_len openai))
            (resultados_individuales r).
Proof.
  intros manual openai min_len Hcm Hco Hm Ho.
  destruct (calcular_wer_total_lleno U disco archivo_manual archivo_openai
              Hcm Hco Hm Ho) as (r & Heq & HF & Hlen & _).
  exists r. rewrite <- igualar_aviso. by split.
Qed.

Lemma salida_del_agregador_ejemplo :
  ∃ r,
    calcular_wer_total basic_latin
      (disco_con "t.txt" (unir [LF; LF] [literal "hola mundo"; literal "adios"]))
      "t.txt" "t.txt" =
      (Some (Lleno r),
       Procesando 2 :: lineas_de 1 (resultados_individuales r)) ∧
    length (resultados_individuales r) = 2%nat.
Proof.
  destruct (salida_del_agregador basic_latin
    (disco_con "t.txt" (unir [LF; LF] [literal "hola mundo"; literal "adios"]))
    "t.txt" "t.txt") as (r & Heq & Hlen & _);
    [apply cortas_evaluadas; vm_compute; reflexivity..
    |vm_compute; discriminate|vm_compute; discriminate|].
  exists r. split; [exact Heq|exact Hlen].
Defined.

(** *** X22: a corpus without errors

    When every reference has the same, non-empty token sequence as its
    hypothesis, the summary has no error, [wer_total = 0],
    [accuracy_total = 1] and [wer_promedio = 0]; [accuracy_promedio] is 1
    as long as there are fewer than [2 ^ 53] pairs, so that their number
    is a double and the sum of the accuracies is exact. *)
Theorem corpus_sin_errores (U : tablas_unicode) (disco : string → lectura)
    (archivo_manual archivo_openai : string) :
  let manual := (extraer_transcripciones U disco archivo_manual).1 in
  let openai := (extraer_transcripciones U disco archivo_openai).1 in
  cortas U manual → manual ≠ [] →
  Forall2 (λ m o, palabras U m = palabras U o ∧ palabras U m ≠ [])
          manual openai →
  ∃ r salida,
    calcular_wer_total U disco archivo_manual archivo_openai
      = (Some (Lleno r), salida) ∧
    num_transcripciones r = length manual ∧
    total_errores r = 0 ∧
    wer_total r = Finito 0%Qc ∧ accuracy_total r = Finito 1%Qc ∧
    wer_promedio r = Finito 0%Qc ∧
    (Z.of_nat (length manual) < 2 ^ 53 → accuracy_promedio r = Finito 1%Qc).
Proof.
  intros manual openai Hcm Hm Hig.
  assert (cortas U openai) as Hco.
  { unfold cortas in *. clear Hm.
    induction Hig as [|m o ms os [Heq _] _ IH]; [constructor|].
    inversion Hcm; subst. constructor; [by rewrite <- Heq|by apply IH]. }
  assert (openai ≠ []) as Ho.
  { intros Hnil. rewrite Hnil in Hig. by apply Forall2_nil_inv_r in Hig. }
  pose proof (Forall2_length _ _ _ Hig) as Hlen2.
  destruct (calcular_wer_total_lleno U disco archivo_manual archivo_openai
              Hcm Hco Hm Ho)
    as (r & Heq & HF & Hlen & Hnum & HS & HD & HI & HN & HE & HWP & HAP & HWT & HAT).
  fold manual openai in HF, Hlen, Hnum.
  rewrite !take_ge in HF by lia.
  rewrite <- Hlen2, Nat.min_id in Hlen, Hnum.
  assert (Forall (λ res, r_wer res = Finito 0%Qc ∧ r_accuracy res = Finito 1%Qc ∧
                         r_sustituciones res = 0 ∧ r_eliminaciones res = 0 ∧
                         r_inserciones res = 0 ∧ 0 < r_palabras_referencia res)
            (resultados_individuales r)) as Hres.
  { eapply (Forall2_zip_Forall _ _
      (λ par, (Z.of_nat (length (palabras U par.1)) < int64_max ∧
               Z.of_nat (length (palabras U par.2)) < int64_max) ∧
              palabras U par.1 = palabras U par.2 ∧ palabras U par.1 ≠ [])
      _ _ HF).
    - clear HF. unfold cortas in *.
      revert Hcm Hco. clear -Hig.
      induction Hig as [|m o ms os Hmo _ IH]; intros Hcm Hco; [constructor|].
      inversion Hcm; inversion Hco; subst. destruct Hmo as [? ?].
      cbn [zip zip_with]. constructor; [simpl; tauto|auto].
    - intros [m o] res [[Hbm Hbo] [Heqp Hnep]] Hc. simpl in *.
      by apply (par_iguales U m o res Hbm Hbo Hc). }
  assert (resultados_individuales r ≠ []) as Hrne.
  { intros Hnil. rewrite Hnil in Hlen. simpl in Hlen.
    destruct manual; [done|]. done. }
  assert (total_errores r = 0) as HE0.
  { rewrite HE, HS, HD, HI.
    rewrite !suma_fmap_cero; [done|..];
      (eapply Forall_impl; [exact Hres|]); simpl; intros ? ?; tauto. }
  assert (0 < total_palabras_referencia r) as HN0.
  { rewrite HN. apply suma_fmap_pos; [done|].
    eapply Forall_impl; [exact Hres|]. simpl. intros ? ?; tauto. }
  assert (wer_total r = Finito 0%Qc) as HWT0.
  { rewrite HWT, (proj2 (Z.ltb_lt _ _) HN0), HE0. by apply cociente_cero. }
  exists r. eexists. split; [exact Heq|]. split; [done|]. split; [done|].
  split; [done|]. split; [|split].
  - rewrite HAT, HWT0. apply max0_uno_menos_cero.
  - rewrite HWP. apply np_mean_ceros.
    + by destruct (resultados_individuales r).
    + apply Forall_fmap. eapply Forall_impl; [exact Hres|]. simpl.
      by intros res (-> & _).
  - intros Hpocos. rewrite HAP. apply np_mean_unos.
    + by destruct (resultados_individuales r).
    + by rewrite length_fmap, Hlen.
    + apply Forall_fmap. eapply Forall_impl; [exact Hres|]. simpl.
      by intros res (_ & -> & _).
Qed.

Lemma corpus_sin_errores_ejemplo :
  ∃ r salida,
    calcular_wer_total basic_latin
      (disco_con "t.txt" (unir [LF; LF] [literal "hola mundo"; literal "adios"]))
      "t.txt" "t.txt" = (Some (Lleno r), salida) ∧
    num_transcripciones r = 2%nat ∧
    total_errores r = 0 ∧
    wer_total r = Finito 0%Qc ∧ accuracy_total r = Finito 1%Qc ∧
    wer_promedio r = Finito 0%Qc ∧
    (Z.of_nat 2 < 2 ^ 53 → accuracy_promedio r = Finito 1%Qc).
Proof.
  apply (corpus_sin_errores basic_latin
    (disco_con "t.txt" (unir [LF; LF] [literal "hola mundo"; literal "adios"]))
    "t.txt" "t.txt").
  - apply cortas_evaluadas. vm_compute. reflexivity.
  - vm_compute. discriminate.
  - vm_compute. repeat constructor; discriminate.
Defined.

Lemma lookup_zip_pares {A B} (l1 : list A) (l2 : list B) i a b :
  l1 !! i = Some a → l2 !! i = Some b → zip l1 l2 !! i = Some (a, b).
Proof.
  revert l1 l2. induction i as [|i IH]; intros [|x l1] [|y l2] H1 H2;
    simplify_eq/=; [done|]. by apply IH.
Qed.

(** *** X23: one degenerate pair makes the mean rate infinite

    If some scored pair has an empty reference and a non-empty hypothesis,
    [wer_promedio] is infinite, whatever the other pairs are. *)
Theorem promedio_con_par_degenerado (U : tablas_unicode)
    (disco : string → lectura) (archivo_manual archivo_openai : string)
    (i : nat) (m o : list N) :
  let manual := (extraer_transcripciones U disco archivo_manual).1 in
  let openai := (extraer_transcripciones U disco archivo_openai).1 in
  cortas U manual → cortas U openai →
  manual !! i = Some m → openai !! i = Some o →
  palabras U m = [] → palabras U o ≠ [] →
  ∃ r salida,
    calcular_wer_total U disco archivo_manual archivo_openai
      = (Some (Lleno r), salida) ∧
    wer_promedio r = MasInf.
Proof.
  intros manual openai Hcm Hco Hmi Hoi Hm0 Ho0.
  assert (manual ≠ []) as Hm by (intros Hnil; by rewrite Hnil in Hmi).
  assert (openai ≠ []) as Ho by (intros Hnil; by rewrite Hnil in Hoi).
  destruct (calcular_wer_total_lleno U disco archivo_manual archivo_openai
              Hcm Hco Hm Ho) as (r & Heq & HF & Hlen & _ & _ & _ & _ & _ & _ & HWP & _).
  fold manual openai in HF, Hlen.
  exists r. eexists. split; [exact Heq|]. rewrite HWP.
  pose proof (pares_cortos U disco archivo_manual archivo_openai Hcm Hco) as Hpc.
  fold manual openai in Hpc.
  apply np_mean_MasInf.
  - apply Forall_fmap.
    eapply (Forall2_zip_Forall _ _ _ _ _ HF Hpc).
    intros [m' o'] res [Hbm Hbo] Hc. simpl in *.
    exact (proj1 (par_wer U m' o' res Hbm Hbo Hc)).
  - pose proof (lookup_lt_Some _ _ _ Hmi) as Him.
    pose proof (lookup_lt_Some _ _ _ Hoi) as Hio.
    assert (zip (take (Nat.min (length manual) (length openai)) manual)
                (take (Nat.min (length manual) (length openai)) openai) !! i
            = Some (m, o)) as Hz.
    { apply lookup_zip_pares; by rewrite lookup_take_lt by lia. }
    destruct (Forall2_lookup_l _ _ _ _ _ HF Hz) as (res & Hres & Hc).
    simpl in Hc.
    assert (r_wer res = MasInf) as Hinf.
    { pose proof (proj1 (Forall_lookup _ _) Hpc _ _ Hz) as [Hbm Hbo].
      simpl in *. by apply (par_wer U m o res Hbm Hbo Hc). }
    rewrite <- Hinf. apply list_elem_of_fmap. exists res. split; [done|].
    by apply (list_elem_of_lookup_2 _ i).
Qed.

Lemma promedio_con_par_degenerado_ejemplo :
  ∃ r salida,
    calcular_wer_total basic_latin disco_signo_palabra "manual.txt" "openai.txt"
      = (Some (Lleno r), salida) ∧
    wer_promedio r = MasInf.
Proof.
  apply (promedio_con_par_degenerado basic_latin disco_signo_palabra
           "manual.txt" "openai.txt" 1 (literal "...") (literal "hola")).
  - apply cortas_evaluadas. vm_compute. reflexivity.
  - apply cortas_evaluadas. vm_compute. reflexivity.
  - reflexivity.
  - reflexivity.
  - reflexivity.
  - discriminate.
Defined.

(** *** X24: the ranges of the summary

    In the summary of [calcular_wer_total] the totals are non-negative,
    [wer_total] is infinite or a non-negative number, and
    [accuracy_total] is a number between 0 and 1; so is
    [accuracy_promedio] when fewer than [2 ^ 53] pairs are scored, since
    then no partial sum of the accuracies is rounded above the number of
    its terms. *)
Theorem rangos_del_resumen (U : tablas_unicode) (disco : string → lectura)
    (archivo_manual archivo_openai : string) :
  let manual := (extraer_transcripciones U disco archivo_manual).1 in
  let openai := (extraer_transcripciones U disco archivo_openai).1 in
  cortas U manual → cortas U openai → manual ≠ [] → openai ≠ [] →
  Z.of_nat (Nat.min (length manual) (length openai)) < 2 ^ 53 →
  ∃ r salida,
    calcular_wer_total U disco archivo_manual archivo_openai
      = (Some (Lleno r), salida) ∧
    0 ≤ total_errores r ∧ 0 ≤ total_palabras_referencia r ∧
    (wer_total r = MasInf ∨ ∃ w, wer_total r = Finito w ∧ (0 ≤ w)%Qc) ∧
    (∃ q, accuracy_total r = Finito q ∧ (0 ≤ q)%Qc ∧ (q ≤ 1)%Qc) ∧
    (∃ q, accuracy_promedio r = Finito q ∧ (0 ≤ q)%Qc ∧ (q ≤ 1)%Qc).
Proof.
  intros manual openai Hcm Hco Hm Ho Hpocos.
  destruct (calcular_wer_total_lleno U disco archivo_manual archivo_openai
              Hcm Hco Hm Ho)
    as (r & Heq & HF & Hlen & Hnum & HS & HD & HI & HN & HE & HWP & HAP & HWT & HAT).
  pose proof (pares_cortos U disco archivo_manual archivo_openai Hcm Hco) as Hpc.
  fold manual openai in HF, Hlen, Hpc.
  assert (Forall (λ res, 0 ≤ r_sustituciones res ∧ 0 ≤ r_eliminaciones res ∧
                         0 ≤ r_inserciones res ∧ 0 ≤ r_palabras_referencia res)
            (resultados_individuales r)) as Hres.
  { eapply (Forall2_zip_Forall _ _ _ _ _ HF Hpc).
    intros [m o] res [Hbm Hbo] Hc. simpl in *.
    destruct (par_cuentas U m o res Hbm Hbo Hc) as (? & ? & ? & _ & ->).
    repeat split; try done. lia. }
  assert (∀ f : metricas → Z,
            Forall (λ res, 0 ≤ f res) (resultados_individuales r) →
            0 ≤ suma (f <$> resultados_individuales r)) as Hsuma.
  { intros f Hf. apply (suma_Forall (λ z, 0 ≤ z)); [done|lia|].
    by apply Forall_fmap. }
  assert (0 ≤ total_errores r) as HE0.
  { rewrite HE, HS, HD, HI.
    assert (0 ≤ suma (r_sustituciones <$> resultados_individuales r)) as H1.
    { apply Hsuma. eapply Forall_impl; [exact Hres|]. simpl; intros; tauto. }
    assert (0 ≤ suma (r_eliminaciones <$> resultados_individuales r)) as H2.
    { apply Hsuma. eapply Forall_impl; [exact Hres|]. simpl; intros; tauto. }
    assert (0 ≤ suma (r_inserciones <$> resultados_individuales r)) as H3.
    { apply Hsuma. eapply Forall_impl; [exact Hres|]. simpl; intros; tauto. }
    lia. }
  assert (0 ≤ total_palabras_referencia r) as HN0.
  { rewrite HN. apply Hsuma. eapply Forall_impl; [exact Hres|].
    simpl; intros; tauto. }
  assert (no_negativo (wer_total r)) as HW.
  { rewrite HWT. destruct (Z.ltb_spec 0 (total_palabras_referencia r)).
    - by apply cociente_no_negativo.
    - by left. }
  exists r. eexists. split; [exact Heq|]. do 3 (split; [done|]). split.
  - rewrite HAT. destruct (max0_uno_menos _ HW) as (q & -> & ? & ? & _).
    by exists q.
  - rewrite HAP. apply np_mean_acotada.
    + assert (resultados_individuales r ≠ []) as Hrne.
      { intros Hnil. rewrite Hnil in Hlen. simpl in Hlen.
        destruct manual, openai; simpl in Hlen; done. }
      by destruct (resultados_individuales r).
    + by rewrite length_fmap, Hlen.
    + apply Forall_fmap.
      eapply (Forall2_zip_Forall _ _ _ _ _ HF Hpc).
      intros [m o] res [Hbm Hbo] Hc. simpl in *.
      by apply (par_accuracy U m o res Hbm Hbo Hc).
Qed.

Lemma rangos_del_resumen_ejemplo :
  ∃ r salida,
    calcular_wer_total basic_latin disco_signo_palabra "manual.txt" "openai.txt"
      = (Some (Lleno r), salida) ∧
    0 ≤ total_errores r ∧ 0 ≤ total_palabras_referencia r ∧
    (wer_total r = MasInf ∨ ∃ w, wer_total r = Finito w ∧ (0 ≤ w)%Qc) ∧
    (∃ q, accuracy_total r = Finito q ∧ (0 ≤ q)%Qc ∧ (q ≤ 1)%Qc) ∧
    (∃ q, accuracy_promedio r = Finito q ∧ (0 ≤ q)%Qc ∧ (q ≤ 1)%Qc).
Proof.
  apply (rangos_del_resumen basic_latin disco_signo_palabra
           "manual.txt" "openai.txt");
    [apply cortas_evaluadas; vm_compute; reflexivity..
    |vm_compute; discriminate|vm_compute; discriminate|vm_compute; reflexivity].
Defined.

(** The doubles of a run on five pairs of nine words with one error each:
    the pooled accuracy is [0.8888888888888888] and the mean of the five
    accuracies is [0.888888888888889]; the pooled rate is
    [0.1111111111111111] and the mean rate [0.11111111111111112]. *)
Lemma resumen_de_cinco_pares :
  ∃ r salida,
    calcular_wer_total basic_latin disco_nueve "manual.txt" "openai.txt"
      = (Some (Lleno r), salida) ∧
    total_errores r = 5 ∧ total_palabras_referencia r = 45 ∧
    wer_total r = Finito (Q2Qc (2001599834386887 # 18014398509481984)) ∧
    accuracy_total r = Finito (Q2Qc (2001599834386887 # 2251799813685248)) ∧
    wer_promedio r = Finito (Q2Qc (8006399337547549 # 72057594037927936)) ∧
    accuracy_promedio r = Finito (Q2Qc (8006399337547549 # 9007199254740992)).
Proof.
  eexists. eexists. split; [vm_compute; reflexivity|].
  cbn [total_errores total_palabras_referencia wer_total accuracy_total
       wer_promedio accuracy_promedio].
  repeat split; f_equal; by apply Qc_is_canon.
Qed.

(** *** X25: the script writes a report exactly when pairs were scored

    As long as the results file can be written, the script never lets an
    exception escape (in particular it never calls [mostrar_resultados] on
    the empty dictionary, which would raise [KeyError]).  It writes no file and ends with the failure message when
    either file gives no transcript; otherwise it writes the four totals
    of the summary that [calcular_wer_total] returns and ends with the
    confirmation. *)
Theorem principal_escribe_si_hay_pares (U : tablas_unicode)
    (disco : string → lectura) :
  let manual :=
    (extraer_transcripciones U disco "transcripcionManual.txt").1 in
  let openai :=
    (extraer_transcripciones U disco "transcripcionOpenAI.txt").1 in
  cortas U manual → cortas U openai →
  mostrar_resultados Vacio = (None, [TituloResultados]) ∧
  ∃ escrito salida,
    principal U disco = (Some escrito, salida) ∧
    (escrito = None ↔ manual = [] ∨ openai = []) ∧
    (escrito = None → last salida = Some NoProcesadas) ∧
    (∀ a, escrito = Some a →
       last salida = Some Guardados ∧
       ∃ r impreso,
         calcular_wer_total U disco "transcripcionManual.txt"
           "transcripcionOpenAI.txt" = (Some (Lleno r), impreso) ∧
         a = [TituloResultados; Regla; WerTotal (wer_total r);
              PrecisionTotal (accuracy_total r);
              TotalErrores (total_errores r);
              TotalPalabras (total_palabras_referencia r)]).
Proof.
  intros manual openai Hcm Hco. split; [done|].
  destruct (decide (manual = [] ∨ openai = [])) as [Hvacio|Hlleno].
  - pose proof (sin_transcripciones_aux U disco "transcripcionManual.txt"
                  "transcripcionOpenAI.txt" Hvacio) as Heq.
    unfold principal. rewrite Heq.
    eexists None, _. split; [done|]. split; [done|]. split; [|done].
    intros _. by rewrite last_snoc.
  - assert (manual ≠ [] ∧ openai ≠ []) as [Hm Ho].
    { split; intros H; apply Hlleno; [by left|by right]. }
    destruct (calcular_wer_total_lleno U disco "transcripcionManual.txt"
                "transcripcionOpenAI.txt" Hcm Hco Hm Ho) as (r & Heq & _).
    unfold principal. rewrite Heq. cbn [mostrar_resultados].
    eexists (Some _), _. split; [done|]. split; [|split].
    + split; [done|]. intros H. by apply Hlleno in H.
    + done.
    + intros a [= <-]. split; [by rewrite last_snoc|]. by eexists _, _.
Qed.

Lemma principal_escribe_si_hay_pares_ejemplo :
  mostrar_resultados Vacio = (None, [TituloResultados]) ∧
  ∃ escrito salida,
    principal basic_latin
      (disco_con "transcripcionManual.txt" (literal "hola mundo"))
      = (Some escrito, salida) ∧
    (escrito = None ↔
     (extraer_transcripciones basic_latin
        (disco_con "transcripcionManual.txt" (literal "hola mundo"))
        "transcripcionManual.txt").1 = [] ∨
     (extraer_transcripciones basic_latin
        (disco_con "transcripcionManual.txt" (literal "hola mundo"))
        "transcripcionOpenAI.txt").1 = []) ∧
    (escrito = None → last salida = Some NoProcesadas) ∧
    (∀ a, escrito = Some a →
       last salida = Some Guardados ∧
       ∃ r impreso,
         calcular_wer_total basic_latin
           (disco_con "transcripcionManual.txt" (literal "hola mundo"))
           "transcripcionManual.txt" "transcripcionOpenAI.txt"
           = (Some (Lleno r), impreso) ∧
         a = [TituloResultados; Regla; WerTotal (wer_total r);
              PrecisionTotal (accuracy_total r);
              TotalErrores (total_errores r);
              TotalPalabras (total_palabras_referencia r)]).
Proof.
  apply (principal_escribe_si_hay_pares basic_latin
           (disco_con "transcripcionManual.txt" (literal "hola mundo")));
    apply cortas_evaluadas; vm_compute; reflexivity.
Defined.
